(** * LapackInterface: the templatized C++ interface to LAPACK and BLAS

    A shallow embedding of
    [SimTKmath/LinearAlgebra/src/LapackInterface.cpp].  Every explicit
    specialization of the file is a Rocq function over the element kind; the
    Fortran routines it calls are an oracle ([Backend]) that the wrappers
    consult, and every call, workspace allocation and output statement is
    recorded in a trace.

    Conventions.
    - [int] values are integers of [Z]; an [int] expression whose value
      leaves the range of [int] is undefined, as signed overflow is in C++
      ([int_mul], [int_add], [int_sub]).
    - [double] is Rocq's primitive binary64 [float].  A C++ [float] value is
      held as the [double] equal to it: [float -> double] conversions are
      exact, only [double -> float] rounds ([to_float]).
    - An array is a list of cells; a cell is [None] while its value is
      indeterminate (storage of type [float], [double] or [int] obtained
      from [new], or declared without initializer, and not yet written). *)

From Stdlib Require Import ZArith Floats Ascii String.
From Stdlib Require Uint63.
From stdpp Require Import base option list strings relations.

Local Open Scope Z_scope.

(** ** Element kinds and scalars *)

(** The four types at which the templates are specialized:
    [float], [double], [std::complex<float>], [std::complex<double>]. *)
Inductive Kind := KFloat | KDouble | KComplexFloat | KComplexDouble.

Global Instance Kind_eq_dec : EqDecision Kind.
Proof. solve_decision. Defined.

Abbreviation double := float.

(** [std::complex<R>] *)
Record complex := Complex { real : double; imag : double }.

Definition is_complex (k : Kind) : bool :=
  match k with
  | KFloat | KDouble => false
  | KComplexFloat | KComplexDouble => true
  end.

(** The element type [T] of kind [k]. *)
Definition scalar (k : Kind) : Type :=
  match k with
  | KFloat | KDouble => double
  | KComplexFloat | KComplexDouble => complex
  end.

(** [(float)x]: round a [double] to the nearest binary32 value (ties to even,
    24 bits of precision, exponents up to 128). *)
Definition to_float (x : double) : double :=
  match Prim2SF x with
  | S754_finite s m e => SF2Prim (binary_round 24 128 s m e)
  | _ => x
  end.

(** [(double)x] for a [float] [x]: exact. *)
Definition to_double (x : double) : double := x.

Definition INT_MIN : Z := - 2 ^ 31.
Definition INT_MAX : Z := 2 ^ 31 - 1.

(** [(int)x]: the fractional part is discarded.  The conversion is undefined
    ([None]) when the truncated value does not fit in an [int], which includes
    infinities and NaN. *)
Definition to_int (x : double) : option Z :=
  match Prim2SF x with
  | S754_zero _ => Some 0
  | S754_finite s m e =>
      let v := Z.shiftl (Z.pos m) e in
      let t := if s then - v else v in
      if (INT_MIN <=? t) && (t <=? INT_MAX) then Some t else None
  | S754_infinity _ | S754_nan => None
  end.

(** An [int] expression with the mathematical value [z]: undefined when [z]
    is outside the range of [int]. *)
Definition int_expr (z : Z) : option Z :=
  if (INT_MIN <=? z) && (z <=? INT_MAX) then Some z else None.

(** [a * b], [a + b] and [a - b] on [int]. *)
Definition int_mul (a b : Z) : option Z := int_expr (a * b).
Definition int_add (a b : Z) : option Z := int_expr (a + b).
Definition int_sub (a b : Z) : option Z := int_expr (a - b).

(** [j*n + i] on [int]: the index of row [i] in column [j] of a column-major
    array with the column stride [n]. *)
Definition int_index (j n i : Z) : option Z := p ← int_mul j n; int_add p i.

(** [static const double EPS = .000001;] *)
Definition EPS : double := 0x1.0c6f7a0b5ed8dp-20%float.

(** ** What the wrappers pass to the Fortran routines *)

(** A caller-owned array or reference, as an opaque address. *)
Definition Ptr := nat.

Inductive ElemTy := TInt | TFloat | TDouble | TComplexFloat | TComplexDouble.

Global Instance ElemTy_eq_dec : EqDecision ElemTy.
Proof. solve_decision. Defined.

Inductive Arg :=
| AInt (z : Z)                 (* an [int], by value or by reference to const *)
| AChar (c : ascii)            (* a [char] flag *)
| AStr (s : string)            (* a [const char*] string *)
| AReal (x : double)           (* a [float] or [double] scalar *)
| AComplex (z : complex)       (* a complex scalar *)
| APtr (p : Ptr)               (* a caller-owned array or out-reference, passed on as it is *)
| AInfo                        (* the [int& info] the routine reports through *)
| AWsize                       (* the one-element array [wsize] on the stack *)
| AWork (id : nat)             (* [w.data] of the [id]-th TypedWorkSpace of this call *)
| AReals (cells : list (option double))    (* a real array whose cells the wrapper has read or written *)
| AComplexes (cells : list (option complex)). (* a complex array, likewise *)

(** What a routine leaves behind in the places the wrappers read after the
    call. *)
Record Reply (k : Kind) := {
  r_info : Z;                        (* the value stored in [info] *)
  r_work0 : option (scalar k);       (* the value stored in [work[0]]; [None] leaves it *)
  r_wr : list (option double);       (* xGEEV, real kinds: the cells written in [wr], *)
  r_wi : list (option double);       (* in [wi] *)
  r_vr : list (option double);       (* and in [vr]; [None] leaves a cell as it was *)
  r_result : double;                 (* the function result of xLANGE and xLAMCH *)
  r_ilaenv : Z;                      (* the function result of ilaenv_ *)
  r_small : option double;           (* xLABAD: the values stored in its two arguments; *)
  r_large : option double            (* [None] leaves the variable as it was *)
}.
Arguments r_info {k} _.
Arguments r_work0 {k} _.
Arguments r_wr {k} _.
Arguments r_wi {k} _.
Arguments r_vr {k} _.
Arguments r_result {k} _.
Arguments r_ilaenv {k} _.
Arguments r_small {k} _.
Arguments r_large {k} _.

Inductive Event :=
| WsNew (id : nat) (ty : ElemTy) (size : option Z)
    (* [TypedWorkSpace<ty> w(size);], or [TypedWorkSpace<ty> w;] when [size] is [None] *)
| WsResize (id : nat) (size : Z)            (* [w.resize(size);] *)
| Lapack (k : Kind) (routine : string) (args : list Arg) (reply : Reply k)
| Cout (s : string).                        (* [std::cout << s << std::endl;] *)

Definition Trace := list Event.

(** The Fortran library: what a routine answers to a call, given everything
    that happened before it. *)
Definition Backend := Trace → ∀ k : Kind, string → list Arg → Reply k.

(** The preprocessor symbols the file tests. *)
Record Build := {
  SIMBODY_WITHOUT_LAPACK : bool;
  NDEBUG : bool
}.

(** ** Outcomes and the wrapper monad *)

Inductive Exn :=
| IllegalLapackArg (lapackRoutine : string) (info : Z)  (* SimTK::Exception::IllegalLapackArg *)
| runtime_error (what : string)                         (* std::runtime_error *)
| bad_array_new_length.                                 (* std::bad_array_new_length *)

Inductive Outcome (A : Type) :=
| Returned (a : A)
| Thrown (e : Exn)
| Aborted            (* a failed [assert] *)
| Undefined.         (* undefined behaviour: a read or write outside an array,
                        a read of an indeterminate value, an undefined conversion,
                        an [int] expression that overflows *)
Arguments Returned {A} _.
Arguments Thrown {A} _.
Arguments Aborted {A}.
Arguments Undefined {A}.

Definition Wrapper (A : Type) : Type := Build → Backend → Trace → Outcome A * Trace.

Definition ret {A} (a : A) : Wrapper A := λ _ _ tr, (Returned a, tr).

Definition bind {A B} (m : Wrapper A) (f : A → Wrapper B) : Wrapper B := λ bld lib tr,
  match m bld lib tr with
  | (Returned a, tr') => f a bld lib tr'
  | (Thrown e, tr') => (Thrown e, tr')
  | (Aborted, tr') => (Aborted, tr')
  | (Undefined, tr') => (Undefined, tr')
  end.

Notation "x <- m ;; k" := (bind m (λ x, k))
  (at level 100, m at next level, right associativity, only parsing).
Notation "'do' m ;; k" := (bind m (λ _, k))
  (at level 100, m at next level, right associativity, only parsing).

Definition throw {A} (e : Exn) : Wrapper A := λ _ _ tr, (Thrown e, tr).

Definition undefined {A} : Wrapper A := λ _ _ tr, (Undefined, tr).

(** A pure computation on arrays and numbers, undefined where it is [None]. *)
Definition defined {A} (o : option A) : Wrapper A :=
  match o with
  | Some a => ret a
  | None => undefined
  end.

Definition emit (e : Event) : Wrapper unit := λ _ _ tr, (Returned tt, tr ++ [e]).

(** [#ifdef SIMBODY_WITHOUT_LAPACK a #else b #endif] *)
Definition ifdef_SIMBODY_WITHOUT_LAPACK {A} (a b : Wrapper A) : Wrapper A :=
  λ bld lib tr, if SIMBODY_WITHOUT_LAPACK bld then a bld lib tr else b bld lib tr.

(** [assert(false)]: nothing when NDEBUG is defined, abort otherwise. *)
Definition assert_false : Wrapper unit :=
  λ bld _ tr, if NDEBUG bld then (Returned tt, tr) else (Aborted, tr).

(** A call of the Fortran routine [routine] of kind [k]. *)
Definition call (k : Kind) (routine : string) (args : list Arg) : Wrapper (Reply k) :=
  λ _ lib tr, let r := lib tr k routine args in (Returned r, tr ++ [Lapack k routine args r]).

(** [SimTK_THROW2( SimTK::Exception::IllegalLapackArg, routine, info );] *)
Definition SimTK_THROW2_IllegalLapackArg {A} (routine : string) (info : Z) : Wrapper A :=
  throw (IllegalLapackArg routine info).

(** [if( info < 0 ) { SimTK_THROW2( SimTK::Exception::IllegalLapackArg, routine, info ); }] *)
Definition throw_if_negative (routine : string) (info : Z) : Wrapper unit :=
  if info <? 0 then SimTK_THROW2_IllegalLapackArg routine info else ret tt.

(** Modelled from the spec: the class [SimTK::Exception::IllegalLapackArg] is
    declared outside this file.  The wrappers hand it the routine name and
    [info] as LAPACK set it; the spec (4.4) gives the argument position it
    reports as [-info]. *)
Definition argumentPosition (e : Exn) : option Z :=
  match e with
  | IllegalLapackArg _ info => Some (- info)
  | runtime_error _ | bad_array_new_length => None
  end.

(** *** TypedWorkSpace *)

Definition is_WsNew (e : Event) : bool :=
  match e with WsNew _ _ _ => true | _ => false end.

(** A workspace is known by the order of its declaration in the call. *)
Definition next_ws (tr : Trace) : nat := length (List.filter is_WsNew tr).

(** Modelled from the spec: the class template [TypedWorkSpace] is declared
    in [WorkSpace.h], outside this file.  By 4.3 a TypedWorkSpace is a typed
    contiguous block of uninitialized working memory, created per call;
    [resize] reallocates it and invalidates the prior contents.  The block
    is an array [new T[size]]: a negative [size] raises
    [std::bad_array_new_length]; a declaration without a size allocates
    nothing.  The embedding records the declaration,
    [TypedWorkSpace<ty> w(size);] or [TypedWorkSpace<ty> w;], with its size,
    also when the allocation fails.  Exhausted memory ([std::bad_alloc]) is
    not part of the embedding. *)
Definition TypedWorkSpace (ty : ElemTy) (size : option Z) : Wrapper nat :=
  λ _ _ tr,
    let id := next_ws tr in
    let tr' := tr ++ [WsNew id ty size] in
    match size with
    | Some n => if n <? 0 then (Thrown bad_array_new_length, tr') else (Returned id, tr')
    | None => (Returned id, tr')
    end.

(** [w.resize(size);] *)
Definition ws_resize (id : nat) (size : Z) : Wrapper unit :=
  λ _ _ tr,
    let tr' := tr ++ [WsResize id size] in
    if size <? 0 then (Thrown bad_array_new_length, tr') else (Returned tt, tr').

(** The cells of freshly allocated storage of [size] elements of type
    [float] or [double]. *)
Definition uninitialized {A} (size : Z) : list (option A) := replicate (Z.to_nat size) None.

(** An object of the element type of kind [k] that is declared without
    initializer ([T wsize[1];]) or created by [new T[size]]: a [float] or a
    [double] is indeterminate; a [std::complex] is built by its default
    constructor, which sets both parts to zero. *)
Definition default_initialized (k : Kind) : option (scalar k) :=
  match k with
  | KFloat | KDouble => None
  | KComplexFloat | KComplexDouble => Some (Complex 0 0)
  end.

(** The cells of a block [new T[size]] of the element type of kind [k]. *)
Definition fresh (k : Kind) (size : Z) : list (option (scalar k)) :=
  replicate (Z.to_nat size) (default_initialized k).

(** The first element of a scratch array after a call: the value the
    routine stored there, or else the one the array held before. *)
Definition first_element {A} (before stored : option A) : option A :=
  match stored with
  | Some v => Some v
  | None => before
  end.

(** *** Arrays *)

(** [buf[i]] as an rvalue. *)
Definition load {A} (buf : list (option A)) (i : Z) : option A :=
  if 0 <=? i then mjoin (buf !! Z.to_nat i) else None.

(** [buf[i] = v] *)
Definition store {A} (buf : list (option A)) (i : Z) (v : A) : option (list (option A)) :=
  if (0 <=? i) && (i <? Z.of_nat (length buf)) then Some (<[Z.to_nat i := Some v]> buf) else None.

(** The array [old] after a routine has written the cells [new] into it:
    cell by cell, [Some v] stores [v] and [None] leaves the cell as it was;
    the routine is taken to stay inside the array. *)
Fixpoint written {A} (old new : list (option A)) : list (option A) :=
  match old, new with
  | c :: old', Some v :: new' => Some v :: written old' new'
  | c :: old', None :: new' => c :: written old' new'
  | _, _ => old
  end.

(** [for (int i = lo; i < lo + count; i++) body] over a state [s]. *)
Fixpoint for_loop {St} (count : nat) (i : Z) (body : Z → St → option St) (s : St)
    : option St :=
  match count with
  | O => Some s
  | S c => s' ← body i s; for_loop c (i + 1) body s'
  end.

(** [for (int i = 0; i < n; i++) body] *)
Definition for_ {St} (n : Z) (body : Z → St → option St) (s : St) : option St :=
  for_loop (Z.to_nat n) 0 body s.

(** Running a wrapper from the start of a call. *)
Definition run {A} (w : Wrapper A) (bld : Build) (lib : Backend) : Outcome A * Trace :=
  w bld lib [].

(** The build with the LAPACK library linked in. *)
Definition with_lapack (ndebug : bool) : Build :=
  {| SIMBODY_WITHOUT_LAPACK := false; NDEBUG := ndebug |}.

(** ** The wrappers *)

(** [getLWork], one overload per element type. *)
Definition getLWork (k : Kind) : scalar k → option Z :=
  match k with
  | KFloat => λ work0, to_int work0
  | KDouble => λ work0, to_int work0
  | KComplexFloat => λ work0, to_int (real work0)
  | KComplexDouble => λ work0, to_int (real work0)
  end.

(** A scalar of kind [k] as an argument. *)
Definition AScalar (k : Kind) : scalar k → Arg :=
  match k with
  | KFloat | KDouble => AReal
  | KComplexFloat | KComplexDouble => AComplex
  end.

(** The real type that goes with [k], and [k]'s own element type. *)
Definition TReal (k : Kind) : ElemTy :=
  match k with
  | KFloat | KComplexFloat => TFloat
  | KDouble | KComplexDouble => TDouble
  end.

Definition TElem (k : Kind) : ElemTy :=
  match k with
  | KFloat => TFloat
  | KDouble => TDouble
  | KComplexFloat => TComplexFloat
  | KComplexDouble => TComplexDouble
  end.

(** [wsize[0]] after a call that was given [wsize], declared as
    [T wsize[1];], and [work.data[0]] after a call that was given the block of
    [TypedWorkSpace<T> work(1);]. *)
Definition slot_0 {k : Kind} (q : Reply k) : option (scalar k) :=
  first_element (default_initialized k) (r_work0 q).

(** *** gelss *)

Definition gelss (k : Kind) (m n mn nrhs : Z) (a : Ptr) (lda : Z) (b : Ptr) (ldb : Z)
    (s : Ptr) (rcond : double) (rank : Ptr) : Wrapper Z :=
  let args (work : Arg) (lwork : Z) (rwork : list Arg) :=
    [AInt m; AInt n; AInt nrhs; APtr a; AInt lda; APtr b; AInt ldb; APtr s; AReal rcond;
     APtr rank; work; AInt lwork] ++ rwork ++ [AInfo] in
  ifdef_SIMBODY_WITHOUT_LAPACK (throw (runtime_error "LapackInterface::gelss called"))
  match k with
  | KDouble =>
      q <- call KDouble "dgelss" (args AWsize (-1) []);;
      lwork <- defined (slot_0 q ≫= to_int);;
      work <- TypedWorkSpace TDouble (Some lwork);;
      r <- call KDouble "dgelss" (args (AWork work) lwork []);;
      do throw_if_negative "dgelss" (r_info r);;
      ret (r_info r)
  | KFloat =>
      q <- call KFloat "sgelss" (args AWsize (-1) []);;
      lwork <- defined (slot_0 q ≫= to_int);;
      work <- TypedWorkSpace TFloat (Some lwork);;
      r <- call KFloat "sgelss" (args (AWork work) lwork []);;
      do throw_if_negative "sgelss" (r_info r);;
      ret (r_info r)
  | KComplexFloat =>
      size <- defined (int_mul 5 mn);;
      rwork <- TypedWorkSpace TFloat (Some size);;
      q <- call KComplexFloat "cgelss" (args AWsize (-1) [AWork rwork]);;
      lwork <- defined (slot_0 q ≫= λ w, to_int (real w));;
      work <- TypedWorkSpace TComplexFloat (Some lwork);;
      r <- call KComplexFloat "cgelss" (args (AWork work) lwork [AWork rwork]);;
      do throw_if_negative "cgelss" (r_info r);;
      ret (r_info r)
  | KComplexDouble =>
      size <- defined (int_mul 5 mn);;
      rwork <- TypedWorkSpace TDouble (Some size);;
      q <- call KComplexDouble "zgelss" (args AWsize (-1) [AWork rwork]);;
      lwork <- defined (slot_0 q ≫= λ w, to_int (real w));;
      work <- TypedWorkSpace TComplexDouble (Some lwork);;
      r <- call KComplexDouble "zgelss" (args (AWork work) lwork [AWork rwork]);;
      do throw_if_negative "zgelss" (r_info r);;
      ret (r_info r)
  end.

(** *** potrs, sytrs, getrs: [info] is a local variable *)

Definition potrs (k : Kind) (uplo : ascii) (ncol nrhs : Z) (lu b : Ptr) : Wrapper unit :=
  let args := [AChar uplo; AInt ncol; AInt nrhs; APtr lu; AInt ncol; APtr b; AInt ncol; AInfo; AInt 1] in
  ifdef_SIMBODY_WITHOUT_LAPACK (throw (runtime_error "LapackInterface::potrs called"))
  match k with
  | KDouble => r <- call KDouble "dpotrs" args;; throw_if_negative "dpotrs" (r_info r)
  | KFloat => r <- call KFloat "spotrs" args;; throw_if_negative "spotrs" (r_info r)
  | KComplexFloat => r <- call KComplexFloat "cpotrs" args;; throw_if_negative "cpotrs" (r_info r)
  | KComplexDouble => r <- call KComplexDouble "zpotrs" args;; throw_if_negative "zpotrs" (r_info r)
  end.

Definition sytrs (k : Kind) (trans : ascii) (ncol nrhs : Z) (lu pivots b : Ptr) : Wrapper unit :=
  let args := [AChar trans; AInt ncol; AInt nrhs; APtr lu; AInt ncol; APtr pivots; APtr b;
               AInt ncol; AInfo; AInt 1] in
  ifdef_SIMBODY_WITHOUT_LAPACK (throw (runtime_error "LapackInterface::sytrs called"))
  match k with
  | KDouble => r <- call KDouble "dsytrs" args;; throw_if_negative "dsytrs" (r_info r)
  | KFloat => r <- call KFloat "ssytrs" args;; throw_if_negative "ssytrs" (r_info r)
  | KComplexFloat => r <- call KComplexFloat "chetrs" args;; throw_if_negative "chetrs" (r_info r)
  | KComplexDouble => r <- call KComplexDouble "zhetrs" args;; throw_if_negative "zhetrs" (r_info r)
  end.

Definition getrs (k : Kind) (trans : ascii) (ncol nrhs : Z) (lu pivots b : Ptr) : Wrapper unit :=
  let args := [AChar trans; AInt ncol; AInt nrhs; APtr lu; AInt ncol; APtr pivots; APtr b;
               AInt ncol; AInfo; AInt 1] in
  ifdef_SIMBODY_WITHOUT_LAPACK (throw (runtime_error "LapackInterface::getrs called"))
  match k with
  | KDouble => r <- call KDouble "dgetrs" args;; throw_if_negative "dgetrs" (r_info r)
  | KFloat => r <- call KFloat "sgetrs" args;; throw_if_negative "sgetrs" (r_info r)
  | KComplexFloat => r <- call KComplexFloat "cgetrs" args;; throw_if_negative "cgetrs" (r_info r)
  | KComplexDouble => r <- call KComplexDouble "zgetrs" args;; throw_if_negative "zgetrs" (r_info r)
  end.

(** *** syevx: selected eigenvalues of symmetric matrices *)

Definition syevx (k : Kind) (jobz range uplo : ascii) (n : Z) (a : Ptr) (lda : Z)
    (vl vu : double) (il iu : Z) (abstol : double) (nFound values vectors : Ptr)
    (LDVectors : Z) (ifail : Ptr) : Wrapper Z :=
  let args (work : Arg) (lwork : Z) (rwork : list Arg) (iwork : nat) :=
    [AChar jobz; AChar range; AChar uplo; AInt n; APtr a; AInt lda; AReal vl; AReal vu;
     AInt il; AInt iu; AReal abstol; APtr nFound; APtr values; APtr vectors; AInt LDVectors;
     work; AInt lwork] ++ rwork ++ [AWork iwork; APtr ifail; AInfo; AInt 1; AInt 1; AInt 1] in
  ifdef_SIMBODY_WITHOUT_LAPACK (throw (runtime_error "LapackInterface::syevx called"))
  match k with
  | KFloat =>
      isize <- defined (int_mul 5 n);;
      iwork <- TypedWorkSpace TInt (Some isize);;
      q <- call KFloat "ssyevx" (args AWsize (-1) [] iwork);;
      lwork <- defined (slot_0 q ≫= to_int);;
      work <- TypedWorkSpace TFloat (Some lwork);;
      r <- call KFloat "ssyevx" (args (AWork work) lwork [] iwork);;
      do throw_if_negative "ssyevx" (r_info r);;
      ret (r_info r)
  | KDouble =>
      isize <- defined (int_mul 5 n);;
      iwork <- TypedWorkSpace TInt (Some isize);;
      q <- call KDouble "dsyevx" (args AWsize (-1) [] iwork);;
      lwork <- defined (slot_0 q ≫= to_int);;
      work <- TypedWorkSpace TDouble (Some lwork);;
      r <- call KDouble "dsyevx" (args (AWork work) lwork [] iwork);;
      do throw_if_negative "dsyevx" (r_info r);;
      ret (r_info r)
  | KComplexDouble =>
      isize <- defined (int_mul 5 n);;
      iwork <- TypedWorkSpace TInt (Some isize);;
      rsize <- defined (int_mul 7 n);;
      rwork <- TypedWorkSpace TDouble (Some rsize);;
      q <- call KComplexDouble "zheevx" (args AWsize (-1) [AWork rwork] iwork);;
      lwork <- defined (slot_0 q ≫= λ w, to_int (real w));;
      work <- TypedWorkSpace TComplexDouble (Some lwork);;
      r <- call KComplexDouble "zheevx" (args (AWork work) lwork [AWork rwork] iwork);;
      do throw_if_negative "zheevx" (r_info r);;
      ret (r_info r)
  | KComplexFloat =>
      isize <- defined (int_mul 5 n);;
      iwork <- TypedWorkSpace TInt (Some isize);;
      rsize <- defined (int_mul 7 n);;
      rwork <- TypedWorkSpace TFloat (Some rsize);;
      q <- call KComplexFloat "cheevx" (args AWsize (-1) [AWork rwork] iwork);;
      lwork <- defined (slot_0 q ≫= λ w, to_int (real w));;
      work <- TypedWorkSpace TComplexFloat (Some lwork);;
      r <- call KComplexFloat "cheevx" (args (AWork work) lwork [AWork rwork] iwork);;
      do throw_if_negative "cheevx" (r_info r);;
      ret (r_info r)
  end.

(** *** syev: all eigenvalues of symmetric matrices *)

Definition syev (k : Kind) (jobz uplo : ascii) (n : Z) (a : Ptr) (lda : Z)
    (eigenValues : Ptr) : Wrapper Z :=
  let args (work : Arg) (lwork : Z) (rwork : list Arg) :=
    [AChar jobz; AChar uplo; AInt n; APtr a; AInt lda; APtr eigenValues; work; AInt lwork]
    ++ rwork ++ [AInfo; AInt 1; AInt 1] in
  ifdef_SIMBODY_WITHOUT_LAPACK (throw (runtime_error "LapackInterface::syev called"))
  match k with
  | KFloat =>
      q <- call KFloat "ssyev" (args AWsize (-1) []);;
      lwork <- defined (slot_0 q ≫= to_int);;
      work <- TypedWorkSpace TFloat (Some lwork);;
      r <- call KFloat "ssyev" (args (AWork work) lwork []);;
      do throw_if_negative "ssyev" (r_info r);;
      ret (r_info r)
  | KDouble =>
      q <- call KDouble "dsyev" (args AWsize (-1) []);;
      lwork <- defined (slot_0 q ≫= to_int);;
      work <- TypedWorkSpace TDouble (Some lwork);;
      r <- call KDouble "dsyev" (args (AWork work) lwork []);;
      do throw_if_negative "dsyev" (r_info r);;
      ret (r_info r)
  | KComplexFloat =>
      l <- defined (n3 ← int_mul 3 n; int_sub n3 2);;
      let l := if l <? 1 then 1 else l in
      rwork <- TypedWorkSpace TFloat (Some l);;
      q <- call KComplexFloat "cheev" (args AWsize (-1) [AWork rwork]);;
      lwork <- defined (slot_0 q ≫= λ w, to_int (real w));;
      work <- TypedWorkSpace TComplexFloat (Some lwork);;
      r <- call KComplexFloat "cheev" (args (AWork work) lwork [AWork rwork]);;
      do throw_if_negative "cheev" (r_info r);;
      ret (r_info r)
  | KComplexDouble =>
      l <- defined (n3 ← int_mul 3 n; int_sub n3 2);;
      let l := if l <? 1 then 1 else l in
      rwork <- TypedWorkSpace TDouble (Some l);;
      q <- call KComplexDouble "zheev" (args AWsize (-1) [AWork rwork]);;
      do throw_if_negative "zheev" (r_info q);;
      lwork <- defined (slot_0 q ≫= λ w, to_int (real w));;
      work <- TypedWorkSpace TComplexDouble (Some lwork);;
      r <- call KComplexDouble "zheev" (args (AWork work) lwork [AWork rwork]);;
      ret (r_info r)
  end.

(** *** gesdd: singular value decomposition *)

Definition gesdd (k : Kind) (jobz : ascii) (m n : Z) (a : Ptr) (lda : Z) (s u : Ptr)
    (ldu : Z) (vt : Ptr) (ldvt : Z) : Wrapper Z :=
  let args (work : nat) (lwork : Z) (rwork : list Arg) (iwork : nat) :=
    [AChar jobz; AInt m; AInt n; APtr a; AInt lda; APtr s; APtr u; AInt ldu; APtr vt;
     AInt ldvt; AWork work; AInt lwork] ++ rwork ++ [AWork iwork; AInfo; AInt 1] in
  ifdef_SIMBODY_WITHOUT_LAPACK (throw (runtime_error "LapackInterface::gesdd called"))
  match k with
  | KFloat =>
      let mn := if m <? n then m else n in
      work <- TypedWorkSpace TFloat (Some 1);;
      isize <- defined (int_mul 8 mn);;
      iwork <- TypedWorkSpace TInt (Some isize);;
      q <- call KFloat "sgesdd" (args work (-1) [] iwork);;
      lwork <- defined (slot_0 q ≫= to_int);;
      do ws_resize work lwork;;
      r <- call KFloat "sgesdd" (args work lwork [] iwork);;
      do throw_if_negative "sgesdd" (r_info r);;
      ret (r_info r)
  | KDouble =>
      let mn := if m <? n then m else n in
      work <- TypedWorkSpace TDouble (Some 1);;
      isize <- defined (int_mul 8 mn);;
      iwork <- TypedWorkSpace TInt (Some isize);;
      q <- call KDouble "dgesdd" (args work (-1) [] iwork);;
      lwork <- defined (slot_0 q ≫= to_int);;
      do ws_resize work lwork;;
      r <- call KDouble "dgesdd" (args work lwork [] iwork);;
      do throw_if_negative "dgesdd" (r_info r);;
      ret (r_info r)
  | KComplexFloat =>
      let mn := if m <? n then m else n in
      rwork <- TypedWorkSpace TFloat None;;
      do (if Ascii.eqb jobz "N" then
            rsize <- defined (int_mul 5 mn);;
            ws_resize rwork rsize
          else
            rsize <- defined (a ← int_mul 5 mn; b ← int_mul a mn; c ← int_mul 7 mn;
                              int_add b c);;
            ws_resize rwork rsize);;
      work <- TypedWorkSpace TComplexFloat (Some 1);;
      isize <- defined (int_mul 8 mn);;
      iwork <- TypedWorkSpace TInt (Some isize);;
      q <- call KComplexFloat "cgesdd" (args work (-1) [AWork rwork] iwork);;
      lwork <- defined (slot_0 q ≫= λ w, to_int (real w));;
      do ws_resize work lwork;;
      r <- call KComplexFloat "cgesdd" (args work lwork [AWork rwork] iwork);;
      do throw_if_negative "cgesdd" (r_info r);;
      ret (r_info r)
  | KComplexDouble =>
      let mn := if m <? n then m else n in
      rwork <- TypedWorkSpace TDouble None;;
      do (if Ascii.eqb jobz "N" then
            rsize <- defined (int_mul 5 mn);;
            ws_resize rwork rsize
          else
            rsize <- defined (a ← int_mul 5 mn; b ← int_mul a mn; c ← int_mul 7 mn;
                              int_add b c);;
            ws_resize rwork rsize);;
      work <- TypedWorkSpace TComplexDouble (Some 1);;
      isize <- defined (int_mul 8 mn);;
      iwork <- TypedWorkSpace TInt (Some isize);;
      q <- call KComplexDouble "zgesdd" (args work (-1) [AWork rwork] iwork);;
      lwork <- defined (slot_0 q ≫= λ w, to_int (real w));;
      do ws_resize work lwork;;
      r <- call KComplexDouble "zgesdd" (args work lwork [AWork rwork] iwork);;
      do throw_if_negative "zgesdd" (r_info r);;
      ret (r_info r)
  end.

(** *** geev: eigenvalues of nonsymmetric matrices *)

(** [for(int i=0;i<n;i++) rightVectors[j*n+i] = std::complex<R>(vr.data[j*n+i], 0.0 );] *)
Definition real_column (n : Z) (vr : list (option double)) (j : Z)
    (rightVectors : list (option complex)) : option (list (option complex)) :=
  for_ n (λ i rv,
    p ← int_index j n i;
    x ← load vr p;
    store rv p (Complex x 0%float)) rightVectors.

(** [for(int i=0;i<n;i++) {
       rightVectors[j*n+i] = std::complex<R>(vr.data[j*n+i], vr.data[(j+1)*n+i]);
       rightVectors[(j+1)*n+i] = std::complex<R>(vr.data[j*n+i], -vr.data[(j+1)*n+i]); }] *)
Definition conjugate_columns (n : Z) (vr : list (option double)) (j : Z)
    (rightVectors : list (option complex)) : option (list (option complex)) :=
  for_ n (λ i rv,
    p ← int_index j n i;
    j1 ← int_add j 1;
    p1 ← int_index j1 n i;
    x ← load vr p;
    y ← load vr p1;
    rv ← store rv p (Complex x y);
    x' ← load vr p;
    y' ← load vr p1;
    store rv p1 (Complex x' (- y')%float)) rightVectors.

(** [for(int j=0;j<n;j++) { if( fabs(wi.data[j]) < eps ) {...} else {...; j++;} }],
    entered at column [j] with [todo = n - j] columns left; the branch of a
    conjugate pair advances [j] twice. *)
Fixpoint eigenvector_columns (eps : double) (n : Z) (wi vr : list (option double))
    (todo : nat) (j : Z) (rightVectors : list (option complex))
    : option (list (option complex)) :=
  match todo with
  | O => Some rightVectors
  | S todo' =>
      w ← load wi j;
      if PrimFloat.ltb (PrimFloat.abs w) eps then
        rv ← real_column n vr j rightVectors;
        eigenvector_columns eps n wi vr todo' (j + 1) rv
      else
        rv ← conjugate_columns n vr j rightVectors;
        match todo' with
        | O => Some rv
        | S todo'' => eigenvector_columns eps n wi vr todo'' (j + 2) rv
        end
  end.

(** [for(int i=0;i<n;i++) values[i] = std::complex<R>(wr.data[i], wi.data[i] );] *)
Definition eigenvalues (n : Z) (wr wi : list (option double))
    (values : list (option complex)) : option (list (option complex)) :=
  for_ n (λ i vs,
    x ← load wr i;
    y ← load wi i;
    store vs i (Complex x y)) values.

(** [for(int i=0;i<n;i++) wi.data[i] = 0;] *)
Definition zero_fill (n : Z) (wi : list (option double)) : option (list (option double)) :=
  for_ n (λ i d, store d i 0%float) wi.

(** A caller-owned complex array that a wrapper may write itself. *)
Record CallerArray := { addr : Ptr; cells : list (option complex) }.

(** The result is [info] with the cells of [values] and [rightVectors] as
    the wrapper's own assignments leave them (at the complex kinds the
    routine fills both arrays and the wrapper assigns nothing). *)
Definition geev (k : Kind) (jobvl jobvr : ascii) (n : Z) (a : Ptr) (lda : Z)
    (values : CallerArray) (vl : Ptr) (ldvl : Z) (rightVectors : CallerArray) (ldvr : Z)
    (work : Ptr) (lwork : Z)
    : Wrapper (Z * list (option complex) * list (option complex)) :=
  ifdef_SIMBODY_WITHOUT_LAPACK (throw (runtime_error "LapackInterface::geev called"))
  match k with
  | KDouble =>
      wr <- TypedWorkSpace TDouble (Some n);;
      wi <- TypedWorkSpace TDouble (Some n);;
      nn <- defined (int_mul n n);;
      vr <- TypedWorkSpace TDouble (Some nn);;
      wi_data <- defined (zero_fill n (uninitialized n));;
      r <- call KDouble "dgeev"
             [AChar jobvl; AChar jobvr; AInt n; APtr a; AInt lda; AWork wr; AReals wi_data;
              APtr vl; AInt ldvl; AWork vr; AInt ldvr; APtr work; AInt lwork; AInfo;
              AInt 1; AInt 1];;
      do throw_if_negative "dgeev" (r_info r);;
      let wr_data := written (uninitialized n) (r_wr r) in
      let wi_data := written wi_data (r_wi r) in
      let vr_data := written (uninitialized nn) (r_vr r) in
      vs <- defined (eigenvalues n wr_data wi_data (cells values));;
      rv <- defined (eigenvector_columns EPS n wi_data vr_data (Z.to_nat n) 0
                       (cells rightVectors));;
      ret (r_info r, vs, rv)
  | KFloat =>
      wr <- TypedWorkSpace TFloat (Some n);;
      wi <- TypedWorkSpace TFloat (Some n);;
      nn <- defined (int_mul n n);;
      vr <- TypedWorkSpace TFloat (Some nn);;
      wi_data <- defined (zero_fill n (uninitialized n));;
      r <- call KFloat "sgeev"
             [AChar jobvl; AChar jobvr; AInt n; APtr a; AInt lda; AWork wr; AReals wi_data;
              APtr vl; AInt ldvl; AWork vr; AInt ldvr; APtr work; AInt lwork; AInfo;
              AInt 1; AInt 1];;
      do throw_if_negative "sgeev" (r_info r);;
      let wr_data := written (uninitialized n) (r_wr r) in
      let wi_data := written wi_data (r_wi r) in
      let vr_data := written (uninitialized nn) (r_vr r) in
      vs <- defined (eigenvalues n wr_data wi_data (cells values));;
      rv <- defined (eigenvector_columns (to_float EPS) n wi_data vr_data (Z.to_nat n) 0
                       (cells rightVectors));;
      ret (r_info r, vs, rv)
  | KComplexFloat =>
      size <- defined (int_mul 2 n);;
      Rwork <- TypedWorkSpace TFloat (Some size);;
      r <- call KComplexFloat "cgeev"
             [AChar jobvl; AChar jobvr; AInt n; APtr a; AInt lda; APtr (addr values);
              APtr vl; AInt ldvl; APtr (addr rightVectors); AInt ldvr; APtr work; AInt lwork;
              AWork Rwork; AInfo; AInt 1; AInt 1];;
      do throw_if_negative "cgeev" (r_info r);;
      ret (r_info r, cells values, cells rightVectors)
  | KComplexDouble =>
      size <- defined (int_mul 2 n);;
      Rwork <- TypedWorkSpace TDouble (Some size);;
      r <- call KComplexDouble "zgeev"
             [AChar jobvl; AChar jobvr; AInt n; APtr a; AInt lda; APtr (addr values);
              APtr vl; AInt ldvl; APtr (addr rightVectors); AInt ldvr; APtr work; AInt lwork;
              AWork Rwork; AInfo; AInt 1; AInt 1];;
      do throw_if_negative "zgeev" (r_info r);;
      ret (r_info r, cells values, cells rightVectors)
  end.

(** *** getrf, tzrzf, geqp3, lascl *)

Definition getrf (k : Kind) (m n : Z) (lu : Ptr) (lda : Z) (pivots : Ptr) : Wrapper Z :=
  let args := [AInt m; AInt n; APtr lu; AInt lda; APtr pivots; AInfo] in
  ifdef_SIMBODY_WITHOUT_LAPACK (throw (runtime_error "LapackInterface::getrf called"))
  match k with
  | KDouble => r <- call KDouble "dgetrf" args;; ret (r_info r)
  | KFloat => r <- call KFloat "sgetrf" args;; ret (r_info r)
  | KComplexDouble =>
      r <- call KComplexDouble "zgetrf" args;;
      do throw_if_negative "zgetrf" (r_info r);;
      ret (r_info r)
  | KComplexFloat =>
      r <- call KComplexFloat "cgetrf" args;;
      do throw_if_negative "cgetrf" (r_info r);;
      ret (r_info r)
  end.

Definition tzrzf (k : Kind) (m n : Z) (a : Ptr) (lda : Z) (tau work : Ptr) (lwork : Z)
    : Wrapper Z :=
  let args := [AInt m; AInt n; APtr a; AInt lda; APtr tau; APtr work; AInt lwork; AInfo] in
  ifdef_SIMBODY_WITHOUT_LAPACK (throw (runtime_error "LapackInterface::tzrzf called"))
  match k with
  | KDouble =>
      r <- call KDouble "dtzrzf" args;;
      do throw_if_negative "dtzrzf" (r_info r);;
      ret (r_info r)
  | KFloat =>
      r <- call KFloat "stzrzf" args;;
      do throw_if_negative "stzrzf" (r_info r);;
      ret (r_info r)
  | KComplexDouble => r <- call KComplexDouble "ztzrzf" args;; ret (r_info r)
  | KComplexFloat =>
      r <- call KComplexFloat "ctzrzf" args;;
      do throw_if_negative "ctzrzf" (r_info r);;
      ret (r_info r)
  end.

(** At the complex kinds [rwork] is declared before the [#ifdef]. *)
Definition geqp3 (k : Kind) (m n : Z) (a : Ptr) (lda : Z) (pivots tau work : Ptr)
    (lwork : Z) : Wrapper Z :=
  let args (rwork : list Arg) :=
    [AInt m; AInt n; APtr a; AInt lda; APtr pivots; APtr tau; APtr work; AInt lwork]
    ++ rwork ++ [AInfo] in
  let unavailable {A} : Wrapper A := throw (runtime_error "LapackInterface::geqp3 called") in
  match k with
  | KDouble =>
      ifdef_SIMBODY_WITHOUT_LAPACK unavailable
      (r <- call KDouble "dgeqp3" (args []);;
       do throw_if_negative "dgeqp3" (r_info r);;
       ret (r_info r))
  | KFloat =>
      ifdef_SIMBODY_WITHOUT_LAPACK unavailable
      (r <- call KFloat "sgeqp3" (args []);;
       do throw_if_negative "sgeqp3" (r_info r);;
       ret (r_info r))
  | KComplexFloat =>
      size <- defined (int_mul 2 n);;
      rwork <- TypedWorkSpace TFloat (Some size);;
      ifdef_SIMBODY_WITHOUT_LAPACK unavailable
      (r <- call KComplexFloat "cgeqp3" (args [AWork rwork]);;
       do throw_if_negative "cgeqp3" (r_info r);;
       ret (r_info r))
  | KComplexDouble =>
      size <- defined (int_mul 2 n);;
      rwork <- TypedWorkSpace TDouble (Some size);;
      ifdef_SIMBODY_WITHOUT_LAPACK unavailable
      (r <- call KComplexDouble "zgeqp3" (args [AWork rwork]);;
       do throw_if_negative "zgeqp3" (r_info r);;
       ret (r_info r))
  end.

Definition lascl (k : Kind) (type : ascii) (kl ku : Z) (cfrom cto : double) (m n : Z)
    (a : Ptr) (lda : Z) : Wrapper Z :=
  let args := [AChar type; AInt kl; AInt ku; AReal cfrom; AReal cto; AInt m; AInt n; APtr a;
               AInt lda; AInfo; AInt 1] in
  ifdef_SIMBODY_WITHOUT_LAPACK (throw (runtime_error "LapackInterface::lascl called"))
  match k with
  | KDouble =>
      r <- call KDouble "dlascl" args;;
      do throw_if_negative "dlascl" (r_info r);;
      ret (r_info r)
  | KFloat =>
      r <- call KFloat "slascl" args;;
      do throw_if_negative "slascl" (r_info r);;
      ret (r_info r)
  | KComplexFloat =>
      r <- call KComplexFloat "clascl" args;;
      do throw_if_negative "clascl" (r_info r);;
      ret (r_info r)
  | KComplexDouble =>
      r <- call KComplexDouble "zlascl" args;;
      do throw_if_negative "zlascl" (r_info r);;
      ret (r_info r)
  end.

(** *** lange: matrix norms *)

(** [std::complex<float>] to [std::complex<double>], exact in both parts. *)
Definition complex_to_double (z : complex) : complex :=
  Complex (to_double (real z)) (to_double (imag z)).

(** [for (int j=0; j<n; j++) for (int i=0; i<m; i++) da.data[j*m + i] = a[j*lda + i];] *)
Definition copy_matrix {A B} (convert : A → B) (m n : Z) (a : list (option A)) (lda : Z)
    (da : list (option B)) : option (list (option B)) :=
  for_ n (λ j da,
    for_ m (λ i da,
      q ← int_index j lda i;
      x ← load a q;
      p ← int_index j m i;
      store da p (convert x)) da) da.

(** The matrix [a] is given by the cells of the caller's array.  At [float]
    and [std::complex<float>] the wrapper reads it; at the other two kinds it
    is handed to the routine as it is.  At [double], [work] is declared
    before the [#ifdef]. *)
Definition lange (k : Kind) (norm : ascii) (m n : Z)
    : list (option (scalar k)) → Z → Wrapper double :=
  let unavailable {A} : Wrapper A := throw (runtime_error "LapackInterface::lange called") in
  match k with
  | KFloat => λ a lda,
      ifdef_SIMBODY_WITHOUT_LAPACK unavailable
      (work <- TypedWorkSpace TDouble (Some m);;
       size <- defined (int_mul m n);;
       da <- TypedWorkSpace TDouble (Some size);;
       da_data <- defined (copy_matrix to_double m n a lda (uninitialized size));;
       r <- call KDouble "dlange"
              [AChar norm; AInt m; AInt n; AReals da_data; AInt m; AWork work; AInt 1];;
       ret (r_result r))
  | KDouble => λ a lda,
      work <- TypedWorkSpace TDouble (Some m);;
      ifdef_SIMBODY_WITHOUT_LAPACK unavailable
      (r <- call KDouble "dlange"
              [AChar norm; AInt m; AInt n; AReals a; AInt lda; AWork work; AInt 1];;
       ret (r_result r))
  | KComplexFloat => λ a lda,
      ifdef_SIMBODY_WITHOUT_LAPACK unavailable
      (work <- TypedWorkSpace TDouble (Some m);;
       size <- defined (int_mul m n);;
       za <- TypedWorkSpace TComplexDouble (Some size);;
       za_data <- defined (copy_matrix complex_to_double m n a lda (fresh KComplexDouble size));;
       do emit (Cout "LapackInterface::lange called");;
       r <- call KComplexDouble "zlange"
              [AChar norm; AInt m; AInt n; AComplexes za_data; AInt m; AWork work; AInt 1];;
       ret (r_result r))
  | KComplexDouble => λ a lda,
      ifdef_SIMBODY_WITHOUT_LAPACK unavailable
      (work <- TypedWorkSpace TDouble (Some m);;
       r <- call KComplexDouble "zlange"
              [AChar norm; AInt m; AInt n; AComplexes a; AInt lda; AWork work; AInt 1];;
       ret (r_result r))
  end.

(** *** ormqr, trsm, ormrz, copy, laic1 *)

Definition ormqr (k : Kind) (side trans : ascii) (m n k' : Z) (a : Ptr) (lda : Z)
    (tau c__ : Ptr) (ldc : Z) (work : Ptr) (lwork : Z) : Wrapper Z :=
  let args := [AChar side; AChar trans; AInt m; AInt n; AInt k'; APtr a; AInt lda; APtr tau;
               APtr c__; AInt ldc; APtr work; AInt lwork; AInfo; AInt 1; AInt 1] in
  ifdef_SIMBODY_WITHOUT_LAPACK (throw (runtime_error "LapackInterface::ormqr called"))
  match k with
  | KFloat =>
      r <- call KFloat "sormqr" args;;
      do throw_if_negative "sormqr" (r_info r);;
      ret (r_info r)
  | KDouble =>
      r <- call KDouble "dormqr" args;;
      do throw_if_negative "dormqr" (r_info r);;
      ret (r_info r)
  | KComplexDouble =>
      r <- call KComplexDouble "zunmqr" args;;
      do throw_if_negative "zunmqr" (r_info r);;
      ret (r_info r)
  | KComplexFloat =>
      r <- call KComplexFloat "cunmqr" args;;
      do throw_if_negative "cunmqr" (r_info r);;
      ret (r_info r)
  end.

Definition trsm (k : Kind) (side uplo transA diag : ascii) (m n : Z) (alpha : scalar k)
    (a : Ptr) (lda : Z) (b : Ptr) (ldb : Z) : Wrapper unit :=
  let args := [AChar side; AChar uplo; AChar transA; AChar diag; AInt m; AInt n;
               AScalar k alpha; APtr a; AInt lda; APtr b; AInt ldb; AInt 1; AInt 1; AInt 1] in
  ifdef_SIMBODY_WITHOUT_LAPACK (throw (runtime_error "LapackInterface::trsm called"))
  match k with
  | KFloat => _ <- call KFloat "strsm" args;; ret tt
  | KDouble => _ <- call KDouble "dtrsm" args;; ret tt
  | KComplexDouble => _ <- call KComplexDouble "ztrsm" args;; ret tt
  | KComplexFloat => _ <- call KComplexFloat "ctrsm" args;; ret tt
  end.

Definition ormrz (k : Kind) (side trans : ascii) (m n k' l : Z) (a : Ptr) (lda : Z)
    (tau c__ : Ptr) (ldc : Z) (work : Ptr) (lwork : Z) : Wrapper Z :=
  let args := [AChar side; AChar trans; AInt m; AInt n; AInt k'; AInt l; APtr a; AInt lda;
               APtr tau; APtr c__; AInt ldc; APtr work; AInt lwork; AInfo; AInt 1; AInt 1] in
  ifdef_SIMBODY_WITHOUT_LAPACK (throw (runtime_error "LapackInterface::ormrz called"))
  match k with
  | KFloat =>
      r <- call KFloat "sormrz" args;;
      do throw_if_negative "sormrz" (r_info r);;
      ret (r_info r)
  | KDouble =>
      r <- call KDouble "dormrz" args;;
      do throw_if_negative "dormrz" (r_info r);;
      ret (r_info r)
  | KComplexFloat =>
      r <- call KComplexFloat "cunmrz" args;;
      do throw_if_negative "cunmrz" (r_info r);;
      ret (r_info r)
  | KComplexDouble =>
      r <- call KComplexDouble "zunmrz" args;;
      do throw_if_negative "zunmrz" (r_info r);;
      ret (r_info r)
  end.

Definition copy (k : Kind) (n : Z) (x : Ptr) (incx : Z) (y : Ptr) (incy : Z) : Wrapper unit :=
  let args := [AInt n; APtr x; AInt incx; APtr y; AInt incy] in
  ifdef_SIMBODY_WITHOUT_LAPACK (throw (runtime_error "LapackInterface::copy called"))
  match k with
  | KFloat => _ <- call KFloat "scopy" args;; ret tt
  | KDouble => _ <- call KDouble "dcopy" args;; ret tt
  | KComplexFloat => _ <- call KComplexFloat "ccopy" args;; ret tt
  | KComplexDouble => _ <- call KComplexDouble "zcopy" args;; ret tt
  end.

Definition laic1 (k : Kind) (job j : Z) (x : Ptr) (sest : double) (w : Ptr)
    (gamma : scalar k) (sestpr s c__ : Ptr) : Wrapper unit :=
  let args := [AInt job; AInt j; APtr x; AReal sest; APtr w; AScalar k gamma; APtr sestpr;
               APtr s; APtr c__] in
  ifdef_SIMBODY_WITHOUT_LAPACK (throw (runtime_error "LapackInterface::laic1 called"))
  match k with
  | KFloat => _ <- call KFloat "slaic1" args;; ret tt
  | KDouble => _ <- call KDouble "dlaic1" args;; ret tt
  | KComplexFloat => _ <- call KComplexFloat "claic1" args;; ret tt
  | KComplexDouble => _ <- call KComplexDouble "zlaic1" args;; ret tt
  end.

(** *** getMachineUnderflow, getMachinePrecision *)

(** The two real types: the machine-constant accessors are specialized for
    [float] and [double] only. *)
Inductive RealKind := RFloat | RDouble.

Definition kind_of_real (r : RealKind) : Kind :=
  match r with
  | RFloat => KFloat
  | RDouble => KDouble
  end.

(** The result is the value assigned to [underFlow]. *)
Definition getMachineUnderflow (r : RealKind) : Wrapper double :=
  ifdef_SIMBODY_WITHOUT_LAPACK
    (throw (runtime_error "LapackInterface::getMachineUnderflow called"))
  match r with
  | RFloat => x <- call KFloat "slamch" [AChar "S"];; ret (r_result x)
  | RDouble => x <- call KDouble "dlamch" [AChar "S"];; ret (r_result x)
  end.

(** [x / y] on [float] and [double]: the IEEE quotient; a division by zero
    is undefined in C++.  At [float], the single-precision quotient of two
    [float] values is the double-precision one rounded to [float]. *)
Definition float_div (r : RealKind) (x y : double) : option double :=
  if PrimFloat.eqb y 0 then None
  else Some match r with
            | RFloat => to_float (x / y)
            | RDouble => (x / y)%float
            end.

(** [f('S')/f('P')]: C++ leaves open which of the two calls is made first;
    [left_first] is the choice of the compiler. *)
Definition quotient_of_calls (k : Kind) (routine : string) (left_first : bool)
    : Wrapper (double * double) :=
  if left_first then
    s <- call k routine [AChar "S"];;
    p <- call k routine [AChar "P"];;
    ret (r_result s, r_result p)
  else
    p <- call k routine [AChar "P"];;
    s <- call k routine [AChar "S"];;
    ret (r_result s, r_result p).

(** The result is the pair of [smallNumber] and [bigNumber] as xLABAD
    leaves them. *)
Definition getMachinePrecision (r : RealKind) (left_first : bool) : Wrapper (double * double) :=
  ifdef_SIMBODY_WITHOUT_LAPACK
    (throw (runtime_error "LapackInterface::getMachinePrecision called"))
  match r with
  | RFloat =>
      sp <- quotient_of_calls KFloat "slamch" left_first;;
      smallNumber <- defined (float_div RFloat sp.1 sp.2);;
      bigNumber <- defined (float_div RFloat 1 smallNumber);;
      x <- call KFloat "slabad" [AReal smallNumber; AReal bigNumber];;
      ret (default smallNumber (r_small x), default bigNumber (r_large x))
  | RDouble =>
      sp <- quotient_of_calls KDouble "dlamch" left_first;;
      smallNumber <- defined (float_div RDouble sp.1 sp.2);;
      bigNumber <- defined (float_div RDouble 1 smallNumber);;
      x <- call KDouble "dlabad" [AReal smallNumber; AReal bigNumber];;
      ret (default smallNumber (r_small x), default bigNumber (r_large x))
  end.

(** *** potrf, sytrf *)

Definition potrf (k : Kind) (uplo : ascii) (n : Z) (a : Ptr) (lda : Z) : Wrapper Z :=
  let args := [AChar uplo; AInt n; APtr a; AInt lda; AInfo] in
  ifdef_SIMBODY_WITHOUT_LAPACK (throw (runtime_error "LapackInterface::potrf called"))
  match k with
  | KDouble =>
      r <- call KDouble "dpotrf" args;;
      do throw_if_negative "dpotrf" (r_info r);;
      ret (r_info r)
  | KFloat =>
      r <- call KFloat "spotrf" args;;
      do throw_if_negative "spotrf" (r_info r);;
      ret (r_info r)
  | KComplexDouble =>
      r <- call KComplexDouble "zpotrf" args;;
      do throw_if_negative "zpotrf" (r_info r);;
      ret (r_info r)
  | KComplexFloat =>
      r <- call KComplexFloat "cpotrf" args;;
      do throw_if_negative "cpotrf" (r_info r);;
      ret (r_info r)
  end.

Definition sytrf (k : Kind) (uplo : ascii) (n : Z) (a : Ptr) (lda : Z) (pivots work : Ptr)
    (lwork : Z) : Wrapper Z :=
  let args := [AChar uplo; AInt n; APtr a; AInt lda; APtr pivots; APtr work; AInt lwork;
               AInfo] in
  ifdef_SIMBODY_WITHOUT_LAPACK (throw (runtime_error "LapackInterface::sytrf called"))
  match k with
  | KFloat =>
      r <- call KFloat "ssytrf" args;;
      do throw_if_negative "ssytrf" (r_info r);;
      ret (r_info r)
  | KDouble =>
      r <- call KDouble "dsytrf" args;;
      do throw_if_negative "dsytrf" (r_info r);;
      ret (r_info r)
  | KComplexDouble =>
      r <- call KComplexDouble "zsytrf" args;;
      do throw_if_negative "zsytrf" (r_info r);;
      ret (r_info r)
  | KComplexFloat =>
      r <- call KComplexFloat "csytrf" args;;
      do throw_if_negative "csytrf" (r_info r);;
      ret (r_info r)
  end.

(** *** ilaenv *)

(** [strcat(dest, src)] into an array of [capacity] chars: the result with its
    terminating NUL has to fit. *)
Definition strcat (capacity : nat) (dest src : string) : option string :=
  if (String.length dest + String.length src + 1 <=? capacity)%nat
  then Some (dest +:+ src) else None.

(** [(int)strlen(s)] *)
Definition strlen (s : string) : Z := Z.of_nat (String.length s).

Definition ilaenv (k : Kind) (ispec : Z) (name opts : string) (n1 n2 n3 n4 : Z) : Wrapper Z :=
  let args (d : string) :=
    [AInt ispec; AStr d; AStr opts; AInt n1; AInt n2; AInt n3; AInt n3; AInt 6;
     AInt (strlen opts)] in
  ifdef_SIMBODY_WITHOUT_LAPACK (throw (runtime_error "LapackInterface::ilaenv called"))
  match k with
  | KDouble =>
      d <- defined (strcat 10 "d" name);;
      r <- call KDouble "ilaenv" (args d);;
      ret (r_ilaenv r)
  | KFloat =>
      s <- defined (strcat 10 "s" name);;
      r <- call KFloat "ilaenv" (args s);;
      ret (r_ilaenv r)
  | KComplexDouble =>
      z <- defined (strcat 10 "z" name);;
      r <- call KComplexDouble "ilaenv" (args z);;
      ret (r_ilaenv r)
  | KComplexFloat =>
      c <- defined (strcat 10 "c" name);;
      r <- call KComplexFloat "ilaenv" (args c);;
      ret (r_ilaenv r)
  end.

(** ** The primary templates *)

(** The body the file gives to the unspecialized templates of gelss, syevx,
    syev, gesdd, geev and sytrf: [{ assert(false); }].  The other templates
    have no definition in this file. *)
Definition primary_template : Wrapper unit := assert_false.

(** ** Calls of the wrappers, uniformly *)

Inductive Invocation :=
| call_gelss (k : Kind) (m n mn nrhs : Z) (a : Ptr) (lda : Z) (b : Ptr) (ldb : Z) (s : Ptr)
    (rcond : double) (rank : Ptr)
| call_potrs (k : Kind) (uplo : ascii) (ncol nrhs : Z) (lu b : Ptr)
| call_sytrs (k : Kind) (trans : ascii) (ncol nrhs : Z) (lu pivots b : Ptr)
| call_getrs (k : Kind) (trans : ascii) (ncol nrhs : Z) (lu pivots b : Ptr)
| call_syevx (k : Kind) (jobz range uplo : ascii) (n : Z) (a : Ptr) (lda : Z) (vl vu : double)
    (il iu : Z) (abstol : double) (nFound values vectors : Ptr) (LDVectors : Z) (ifail : Ptr)
| call_syev (k : Kind) (jobz uplo : ascii) (n : Z) (a : Ptr) (lda : Z) (eigenValues : Ptr)
| call_gesdd (k : Kind) (jobz : ascii) (m n : Z) (a : Ptr) (lda : Z) (s u : Ptr) (ldu : Z)
    (vt : Ptr) (ldvt : Z)
| call_geev (k : Kind) (jobvl jobvr : ascii) (n : Z) (a : Ptr) (lda : Z) (values : CallerArray)
    (vl : Ptr) (ldvl : Z) (rightVectors : CallerArray) (ldvr : Z) (work : Ptr) (lwork : Z)
| call_getrf (k : Kind) (m n : Z) (lu : Ptr) (lda : Z) (pivots : Ptr)
| call_tzrzf (k : Kind) (m n : Z) (a : Ptr) (lda : Z) (tau work : Ptr) (lwork : Z)
| call_geqp3 (k : Kind) (m n : Z) (a : Ptr) (lda : Z) (pivots tau work : Ptr) (lwork : Z)
| call_lascl (k : Kind) (type : ascii) (kl ku : Z) (cfrom cto : double) (m n : Z) (a : Ptr)
    (lda : Z)
| call_lange (k : Kind) (norm : ascii) (m n : Z) (a : list (option (scalar k))) (lda : Z)
| call_ormqr (k : Kind) (side trans : ascii) (m n k' : Z) (a : Ptr) (lda : Z) (tau c__ : Ptr)
    (ldc : Z) (work : Ptr) (lwork : Z)
| call_trsm (k : Kind) (side uplo transA diag : ascii) (m n : Z) (alpha : scalar k) (a : Ptr)
    (lda : Z) (b : Ptr) (ldb : Z)
| call_ormrz (k : Kind) (side trans : ascii) (m n k' l : Z) (a : Ptr) (lda : Z)
    (tau c__ : Ptr) (ldc : Z) (work : Ptr) (lwork : Z)
| call_copy (k : Kind) (n : Z) (x : Ptr) (incx : Z) (y : Ptr) (incy : Z)
| call_laic1 (k : Kind) (job j : Z) (x : Ptr) (sest : double) (w : Ptr) (gamma : scalar k)
    (sestpr s c__ : Ptr)
| call_potrf (k : Kind) (uplo : ascii) (n : Z) (a : Ptr) (lda : Z)
| call_sytrf (k : Kind) (uplo : ascii) (n : Z) (a : Ptr) (lda : Z) (pivots work : Ptr)
    (lwork : Z)
| call_ilaenv (k : Kind) (ispec : Z) (name opts : string) (n1 n2 n3 n4 : Z)
| call_getMachineUnderflow (precision : RealKind)
| call_getMachinePrecision (precision : RealKind) (left_first : bool).

(** The wrapper has an [int& info] parameter. *)
Definition with_info (w : Wrapper Z) : Wrapper (option Z) := info <- w;; ret (Some info).

(** The wrapper has none. *)
Definition without_info {A} (w : Wrapper A) : Wrapper (option Z) := _ <- w;; ret None.

(** The call, with the value of the caller's [info] on return as its result
    ([None] for a wrapper that has no [info] parameter). *)
Definition invoke (c : Invocation) : Wrapper (option Z) :=
  match c with
  | call_gelss k m n mn nrhs a lda b ldb s rcond rank =>
      with_info (gelss k m n mn nrhs a lda b ldb s rcond rank)
  | call_potrs k uplo ncol nrhs lu b => without_info (potrs k uplo ncol nrhs lu b)
  | call_sytrs k trans ncol nrhs lu pivots b => without_info (sytrs k trans ncol nrhs lu pivots b)
  | call_getrs k trans ncol nrhs lu pivots b => without_info (getrs k trans ncol nrhs lu pivots b)
  | call_syevx k jobz range uplo n a lda vl vu il iu abstol nFound values vectors LDVectors ifail =>
      with_info (syevx k jobz range uplo n a lda vl vu il iu abstol nFound values vectors
                   LDVectors ifail)
  | call_syev k jobz uplo n a lda eigenValues => with_info (syev k jobz uplo n a lda eigenValues)
  | call_gesdd k jobz m n a lda s u ldu vt ldvt =>
      with_info (gesdd k jobz m n a lda s u ldu vt ldvt)
  | call_geev k jobvl jobvr n a lda values vl ldvl rightVectors ldvr work lwork =>
      with_info (out <- geev k jobvl jobvr n a lda values vl ldvl rightVectors ldvr work lwork;;
                 ret (out.1.1))
  | call_getrf k m n lu lda pivots => with_info (getrf k m n lu lda pivots)
  | call_tzrzf k m n a lda tau work lwork => with_info (tzrzf k m n a lda tau work lwork)
  | call_geqp3 k m n a lda pivots tau work lwork =>
      with_info (geqp3 k m n a lda pivots tau work lwork)
  | call_lascl k type kl ku cfrom cto m n a lda =>
      with_info (lascl k type kl ku cfrom cto m n a lda)
  | call_lange k norm m n a lda => without_info (lange k norm m n a lda)
  | call_ormqr k side trans m n k' a lda tau c__ ldc work lwork =>
      with_info (ormqr k side trans m n k' a lda tau c__ ldc work lwork)
  | call_trsm k side uplo transA diag m n alpha a lda b ldb =>
      without_info (trsm k side uplo transA diag m n alpha a lda b ldb)
  | call_ormrz k side trans m n k' l a lda tau c__ ldc work lwork =>
      with_info (ormrz k side trans m n k' l a lda tau c__ ldc work lwork)
  | call_copy k n x incx y incy => without_info (copy k n x incx y incy)
  | call_laic1 k job j x sest w gamma sestpr s c__ =>
      without_info (laic1 k job j x sest w gamma sestpr s c__)
  | call_potrf k uplo n a lda => with_info (potrf k uplo n a lda)
  | call_sytrf k uplo n a lda pivots work lwork =>
      with_info (sytrf k uplo n a lda pivots work lwork)
  | call_ilaenv k ispec name opts n1 n2 n3 n4 =>
      without_info (ilaenv k ispec name opts n1 n2 n3 n4)
  | call_getMachineUnderflow precision => without_info (getMachineUnderflow precision)
  | call_getMachinePrecision precision left_first =>
      without_info (getMachinePrecision precision left_first)
  end.

(** The wrapper called has an [info] out-parameter. *)
Definition has_info_parameter (c : Invocation) : bool :=
  match c with
  | call_potrs _ _ _ _ _ _ | call_sytrs _ _ _ _ _ _ _ | call_getrs _ _ _ _ _ _ _
  | call_lange _ _ _ _ _ _ | call_trsm _ _ _ _ _ _ _ _ _ _ _ _ | call_copy _ _ _ _ _ _
  | call_laic1 _ _ _ _ _ _ _ _ _ _ | call_ilaenv _ _ _ _ _ _ _ _
  | call_getMachineUnderflow _ | call_getMachinePrecision _ _ => false
  | _ => true
  end.

(** ** Reading a trace *)

Definition is_AInfo (a : Arg) : bool :=
  match a with AInfo => true | _ => false end.

(** The status the routine of a call reported, if it has an [info] argument. *)
Definition reported_info (e : Event) : option Z :=
  match e with
  | Lapack _ _ args reply => if existsb is_AInfo args then Some (r_info reply) else None
  | _ => None
  end.

Definition routine_of (e : Event) : option string :=
  match e with
  | Lapack _ routine _ _ => Some routine
  | _ => None
  end.

Definition is_Lapack (e : Event) : bool :=
  match e with Lapack _ _ _ _ => true | _ => false end.

(** The calls of Fortran routines in a trace, in order. *)
Definition lapack_calls (tr : Trace) : list Event := List.filter is_Lapack tr.

(** The last call of a Fortran routine in a trace. *)
Definition last_call (tr : Trace) : option Event := last (lapack_calls tr).

(** ** Definitions for the statements *)

(** The cell of [buf] at index [i], if the array has one. *)
Definition cell {A} (buf : list (option A)) (i : Z) : option (option A) :=
  if 0 <=? i then buf !! Z.to_nat i else None.

(** *** lange *)

(** The entry in row [i] and column [j] of the matrix held in [a] with the
    leading dimension [lda]: [a[j*lda + i]]; [None] when the index is not an
    [int] or [a] has no value there. *)
Definition entry {A} (a : list (option A)) (lda j i : Z) : option A :=
  p ← int_index j lda i; load a p.

(** Column [j] of the [m]-row matrix held in [a] with leading dimension
    [lda], each entry promoted by [convert]; [None] when [a] lacks an entry. *)
Definition promoted_column {A B} (convert : A → B) (m : Z) (a : list (option A)) (lda j : Z)
    : option (list B) :=
  mapM (λ i, convert <$> entry a lda j i) (seqZ 0 m).

(** The promoted [m]-by-[n] matrix as a dense column-major array of leading
    dimension [m]. *)
Definition promoted_matrix {A B} (convert : A → B) (m n : Z) (a : list (option A)) (lda : Z)
    : option (list (option B)) :=
  cols ← mapM (promoted_column convert m a lda) (seqZ 0 n);
  Some (Some <$> concat cols).

(** The [m]-by-[n] matrix held in [a] as a dense column-major array of
    leading dimension [m], every cell with the value of the entry (a [float]
    is held as the [double] equal to it, so promotion keeps the value). *)
Definition dense {A} (m n : Z) (a : list (option A)) (lda : Z) : option (list (option A)) :=
  promoted_matrix (λ x, x) m n a lda.

(** A library whose answers do not depend on what was called before. *)
Definition stateless (lib : Backend) : Prop :=
  ∀ tr tr' k routine args, lib tr k routine args = lib tr' k routine args.

(** *** geev *)

(** The name of the routine behind geev, and the threshold its column loop
    compares [fabs(wi.data[j])] with: [EPS] at [double], [(float)EPS] at
    [float]. *)
Definition geev_routine (k : Kind) : string :=
  match k with
  | KFloat => "sgeev"
  | KDouble => "dgeev"
  | KComplexFloat => "cgeev"
  | KComplexDouble => "zgeev"
  end.

Definition geev_threshold (k : Kind) : double :=
  match k with
  | KFloat => to_float EPS
  | _ => EPS
  end.

(** The column loop goes from index [j] to index [j'] in one iteration:
    one column further after a real eigenvalue, two after a conjugate pair. *)
Definition next_column (eps : double) (n : Z) (wi : list (option double)) (j j' : Z) : Prop :=
  ∃ w, load wi j = Some w ∧
       j' = (if PrimFloat.ltb (PrimFloat.abs w) eps then j + 1 else j + 2) ∧
       j' < n.

(** The column loop runs its body with index [j]. *)
Definition loop_index (eps : double) (n : Z) (wi : list (option double)) (j : Z) : Prop :=
  0 < n ∧ rtc (next_column eps n wi) 0 j.

(** What the loop body leaves in the output for index [j]. *)
Definition column_written (eps : double) (n : Z) (wi vr : list (option double))
    (out : list (option complex)) (j : Z) : Prop :=
  ∃ w, load wi j = Some w ∧
    if PrimFloat.ltb (PrimFloat.abs w) eps
    then ∀ i, 0 ≤ i < n →
           ∃ x, load vr (j * n + i) = Some x ∧
                load out (j * n + i) = Some (Complex x 0%float)
    else ∀ i, 0 ≤ i < n →
           ∃ x y, load vr (j * n + i) = Some x ∧ load vr ((j + 1) * n + i) = Some y ∧
                  load out (j * n + i) = Some (Complex x y) ∧
                  load out ((j + 1) * n + i) = Some (Complex x (- y)%float).

(** No conjugate pair starts in the last column. *)
Definition pairs_complete (eps : double) (n : Z) (wi : list (option double)) : Prop :=
  ∀ j w, loop_index eps n wi j → load wi j = Some w →
         PrimFloat.ltb (PrimFloat.abs w) eps = false → j + 1 < n.

(** *** Traces *)

(** The events of a trace before the first call of a Fortran routine. *)
Fixpoint before_first_call (tr : Trace) : Trace :=
  match tr with
  | [] => []
  | e :: tr' => if is_Lapack e then [] else e :: before_first_call tr'
  end.

(** The precision letter that ilaenv puts before the routine name. *)
Definition precision_letter (k : Kind) : string :=
  match k with
  | KFloat => "s"
  | KDouble => "d"
  | KComplexFloat => "c"
  | KComplexDouble => "z"
  end.

Definition kind_of (c : Invocation) : Kind :=
  match c with
  | call_gelss k _ _ _ _ _ _ _ _ _ _ _ | call_potrs k _ _ _ _ _ | call_sytrs k _ _ _ _ _ _
  | call_getrs k _ _ _ _ _ _ | call_syevx k _ _ _ _ _ _ _ _ _ _ _ _ _ _ _ _
  | call_syev k _ _ _ _ _ _ | call_gesdd k _ _ _ _ _ _ _ _ _ _
  | call_geev k _ _ _ _ _ _ _ _ _ _ _ _ | call_getrf k _ _ _ _ _
  | call_tzrzf k _ _ _ _ _ _ _ | call_geqp3 k _ _ _ _ _ _ _ _
  | call_lascl k _ _ _ _ _ _ _ _ _ | call_lange k _ _ _ _ _
  | call_ormqr k _ _ _ _ _ _ _ _ _ _ _ _ | call_trsm k _ _ _ _ _ _ _ _ _ _ _
  | call_ormrz k _ _ _ _ _ _ _ _ _ _ _ _ _ | call_copy k _ _ _ _ _
  | call_laic1 k _ _ _ _ _ _ _ _ _ | call_potrf k _ _ _ _ | call_sytrf k _ _ _ _ _ _ _
  | call_ilaenv k _ _ _ _ _ _ _ => k
  | call_getMachineUnderflow precision | call_getMachinePrecision precision _ =>
      kind_of_real precision
  end.

(** The wrappers that ask the routine for the size of its workspace. *)
Definition uses_workspace_query (c : Invocation) : bool :=
  match c with
  | call_gelss _ _ _ _ _ _ _ _ _ _ _ _
  | call_syevx _ _ _ _ _ _ _ _ _ _ _ _ _ _ _ _ _
  | call_syev _ _ _ _ _ _ _
  | call_gesdd _ _ _ _ _ _ _ _ _ _ _ => true
  | _ => false
  end.


(** An allocation that fails: a block of negative size. *)
Definition failed_allocation (e : Event) : Prop :=
  match e with
  | WsNew _ _ (Some size) | WsResize _ size => size < 0
  | _ => False
  end.

(** The wrapper called tests the status of its last call: all do, except
    getrf at the real kinds and tzrzf and syev at [std::complex<double>]. *)
Definition checks_last_info (c : Invocation) : bool :=
  match c with
  | call_getrf KFloat _ _ _ _ _ | call_getrf KDouble _ _ _ _ _
  | call_tzrzf KComplexDouble _ _ _ _ _ _ _
  | call_syev KComplexDouble _ _ _ _ _ _ => false
  | _ => true
  end.

(** The specialization called has an [if( info < 0 )] test: all that hand
    an [info] to the routine, except getrf at the real kinds and tzrzf at
    [std::complex<double>]. *)
Definition tests_info (c : Invocation) : bool :=
  match c with
  | call_getrf KFloat _ _ _ _ _ | call_getrf KDouble _ _ _ _ _
  | call_tzrzf KComplexDouble _ _ _ _ _ _ _
  | call_lange _ _ _ _ _ _ | call_trsm _ _ _ _ _ _ _ _ _ _ _ _ | call_copy _ _ _ _ _ _
  | call_laic1 _ _ _ _ _ _ _ _ _ _ | call_ilaenv _ _ _ _ _ _ _ _
  | call_getMachineUnderflow _ | call_getMachinePrecision _ _ => false
  | _ => true
  end.

(** *** Builds, names and routines *)

(** The build without the LAPACK library. *)
Definition without_lapack (ndebug : bool) : Build :=
  {| SIMBODY_WITHOUT_LAPACK := true; NDEBUG := ndebug |}.

(** The message of the [std::runtime_error] of a wrapper. *)
Definition called (wrapper : string) : string := "LapackInterface::" +:+ wrapper +:+ " called".

(** The name of the wrapper called, as its [runtime_error] message spells it. *)
Definition wrapper_name (c : Invocation) : string :=
  match c with
  | call_gelss _ _ _ _ _ _ _ _ _ _ _ _ => "gelss"
  | call_potrs _ _ _ _ _ _ => "potrs"
  | call_sytrs _ _ _ _ _ _ _ => "sytrs"
  | call_getrs _ _ _ _ _ _ _ => "getrs"
  | call_syevx _ _ _ _ _ _ _ _ _ _ _ _ _ _ _ _ _ => "syevx"
  | call_syev _ _ _ _ _ _ _ => "syev"
  | call_gesdd _ _ _ _ _ _ _ _ _ _ _ => "gesdd"
  | call_geev _ _ _ _ _ _ _ _ _ _ _ _ _ => "geev"
  | call_getrf _ _ _ _ _ _ => "getrf"
  | call_tzrzf _ _ _ _ _ _ _ _ => "tzrzf"
  | call_geqp3 _ _ _ _ _ _ _ _ _ => "geqp3"
  | call_lascl _ _ _ _ _ _ _ _ _ _ => "lascl"
  | call_lange _ _ _ _ _ _ => "lange"
  | call_ormqr _ _ _ _ _ _ _ _ _ _ _ _ _ => "ormqr"
  | call_trsm _ _ _ _ _ _ _ _ _ _ _ _ => "trsm"
  | call_ormrz _ _ _ _ _ _ _ _ _ _ _ _ _ _ => "ormrz"
  | call_copy _ _ _ _ _ _ => "copy"
  | call_laic1 _ _ _ _ _ _ _ _ _ _ => "laic1"
  | call_potrf _ _ _ _ _ => "potrf"
  | call_sytrf _ _ _ _ _ _ _ _ => "sytrf"
  | call_ilaenv _ _ _ _ _ _ _ _ => "ilaenv"
  | call_getMachineUnderflow _ => "getMachineUnderflow"
  | call_getMachinePrecision _ _ => "getMachinePrecision"
  end.

(** The workspace a specialization declares before its [#ifdef], so in
    either build, with its element type and size: [rwork(2*n)] in geqp3 at
    the complex kinds, [work(m)] in lange at [double]. *)
Definition declared_before_ifdef (c : Invocation) : option (ElemTy * option Z) :=
  match c with
  | call_geqp3 KComplexFloat _ n _ _ _ _ _ _ => Some (TFloat, int_mul 2 n)
  | call_geqp3 KComplexDouble _ n _ _ _ _ _ _ => Some (TDouble, int_mul 2 n)
  | call_lange KDouble _ m _ _ _ => Some (TDouble, Some m)
  | _ => None
  end.

(** The LAPACK or BLAS name, without its precision letter, of the routine
    behind a wrapper: the wrapper's own name, except that at the complex
    kinds sytrs, syev and syevx stand for the Hermitian routines and ormqr
    and ormrz for the unitary ones. *)
Definition stem (c : Invocation) : string :=
  match c with
  | call_sytrs k _ _ _ _ _ _ => if is_complex k then "hetrs" else "sytrs"
  | call_syevx k _ _ _ _ _ _ _ _ _ _ _ _ _ _ _ _ => if is_complex k then "heevx" else "syevx"
  | call_syev k _ _ _ _ _ _ => if is_complex k then "heev" else "syev"
  | call_ormqr k _ _ _ _ _ _ _ _ _ _ _ _ => if is_complex k then "unmqr" else "ormqr"
  | call_ormrz k _ _ _ _ _ _ _ _ _ _ _ _ _ => if is_complex k then "unmrz" else "ormrz"
  | call_getMachineUnderflow _ | call_getMachinePrecision _ _ => "lamch"
  | _ => wrapper_name c
  end.

(** The precision of the routine called: that of the element type, except
    for lange, which goes to double precision at the single-precision kinds. *)
Definition routine_kind (c : Invocation) : Kind :=
  match c with
  | call_lange KFloat _ _ _ _ _ => KDouble
  | call_lange KComplexFloat _ _ _ _ _ => KComplexDouble
  | _ => kind_of c
  end.

Definition routine_called (c : Invocation) : string :=
  match c with
  | call_ilaenv _ _ _ _ _ _ _ _ => "ilaenv"
  | _ => precision_letter (routine_kind c) +:+ stem c
  end.

(** The routines a run calls when it goes to its end, in order: the
    routine of the wrapper, twice where the wrapper asks for the workspace
    size first; getMachinePrecision calls xLAMCH twice and then xLABAD. *)
Definition routines_called (c : Invocation) : list string :=
  match c with
  | call_getMachinePrecision precision _ =>
      [routine_called c; routine_called c;
       precision_letter (kind_of_real precision) +:+ "labad"]
  | _ => if uses_workspace_query c then [routine_called c; routine_called c]
         else [routine_called c]
  end.

Definition is_Cout (e : Event) : bool :=
  match e with Cout _ => true | _ => false end.

(** What a run has written to [std::cout]. *)
Definition printed (tr : Trace) : list Event := List.filter is_Cout tr.

(** The workspaces a run has declared. *)
Definition declared (tr : Trace) : Trace := List.filter is_WsNew tr.

(** Factor a matrix, then solve with the factors: the factorization wrapper
    followed by the solver on the same arrays, as a caller of the interface
    combines them (the callers are outside this file). *)
Definition potrf_then_potrs (k : Kind) (uplo : ascii) (n nrhs : Z) (a : Ptr) (lda : Z) (b : Ptr)
    : Wrapper unit :=
  _ <- potrf k uplo n a lda;; potrs k uplo n nrhs a b.

Definition sytrf_then_sytrs (k : Kind) (uplo : ascii) (n nrhs : Z) (a : Ptr) (lda : Z)
    (pivots work : Ptr) (lwork : Z) (b : Ptr) : Wrapper unit :=
  _ <- sytrf k uplo n a lda pivots work lwork;; sytrs k uplo n nrhs a pivots b.

Definition getrf_then_getrs (k : Kind) (trans : ascii) (n nrhs : Z) (lu : Ptr) (lda : Z)
    (pivots b : Ptr) : Wrapper unit :=
  _ <- getrf k n n lu lda pivots;; getrs k trans n nrhs lu pivots b.

(** *** Sample libraries and inputs *)

Definition of_double (k : Kind) (x : double) : scalar k :=
  match k with
  | KFloat | KDouble => x
  | KComplexFloat | KComplexDouble => Complex x 0%float
  end.

(** The answer of a routine that reports [info] and, in [work[0]], the
    workspace size [lwork]. *)
Definition status (k : Kind) (info : Z) (lwork : double) : Reply k :=
  {| r_info := info; r_work0 := Some (of_double k lwork); r_wr := []; r_wi := []; r_vr := [];
     r_result := 0%float; r_ilaenv := 0; r_small := None; r_large := None |}.

(** A library whose every routine reports [info] and the size [lwork]. *)
Definition reporting (info : Z) (lwork : double) : Backend :=
  λ _ k _ _, status k info lwork.

(** A library whose size queries succeed and whose other calls report [info]. *)
Definition query_succeeds_then (info : Z) (lwork : double) : Backend :=
  λ tr k _ _, match lapack_calls tr with
              | [] => status k 0 lwork
              | _ => status k info lwork
              end.

(** xLAMCH and xLABAD on an IEEE machine: the safe minimum for ['S']
    ([2^-126] in single, [2^-1022] in double precision) and the precision for
    ['P'] ([2^-24], [2^-53]); xLABAD leaves its arguments as they are. *)
Definition machine_constants : Backend :=
  λ _ k _ args,
    {| r_info := 0; r_work0 := None; r_wr := []; r_wi := []; r_vr := [];
       r_result := match k, args with
                   | KFloat, [AChar "S"] => 0x1p-126
                   | KFloat, [AChar "P"] => 0x1p-24
                   | KDouble, [AChar "S"] => 0x1p-1022
                   | KDouble, [AChar "P"] => 0x1p-53
                   | _, _ => 0
                   end%float;
       r_ilaenv := 0; r_small := None; r_large := None |}.

(** A library whose every routine finds an illegal argument: it reports
    [info < 0] and returns at once, so it stores no workspace size. *)
Definition rejecting (info : Z) : Backend :=
  λ _ k _ _,
    {| r_info := info; r_work0 := None; r_wr := []; r_wi := []; r_vr := [];
       r_result := 0%float; r_ilaenv := 0; r_small := None; r_large := None |}.


(** dgeev_ on a 2-by-2 block with the eigenvalues [0.5 +- 2i]: the conjugate
    pair comes back in [wr], [wi] and, as real part and imaginary part, in
    the two columns of [vr]. *)
Definition rotation_block : Backend :=
  λ _ k _ _,
    {| r_info := 0; r_work0 := Some (of_double k 0);
       r_wr := [Some 0.5; Some 0.5]%float;
       r_wi := [Some 2; Some (-2)]%float;
       r_vr := [Some 1; Some 0; Some 0; Some (-1)]%float;
       r_result := 0%float; r_ilaenv := 0; r_small := None; r_large := None |}.

(** The caller's output arrays for that block. *)
Definition values_2 : CallerArray := {| addr := 5%nat; cells := [None; None] |}.

Definition rightVectors_2 : CallerArray :=
  {| addr := 6%nat; cells := [None; None; None; None] |}.

(** A 2-by-2 matrix held with leading dimension 3: the third cell of each
    column is not part of the matrix. *)
Definition a_2x2 (pad : option double) : list (option double) :=
  [Some 1; Some 2; pad; Some 3; Some 4; pad]%float.

(** dlange_ with norm ['M']: the largest absolute value of the cells. *)
Definition max_abs (cells : list (option double)) : double :=
  foldr (λ c acc, match c with
                  | Some x => if PrimFloat.ltb acc (PrimFloat.abs x) then PrimFloat.abs x else acc
                  | None => acc
                  end) 0%float cells.

(** The same for a complex matrix, held with leading dimension 3. *)
Definition c_2x2 (pad : option complex) : list (option complex) :=
  [Some (Complex 1 0); Some (Complex 0 2); pad; Some (Complex 3 4); Some (Complex 0 0); pad].

(** zlange_ with norm ['M']: the largest modulus of the cells. *)
Definition modulus (z : complex) : double :=
  PrimFloat.sqrt (real z * real z + imag z * imag z)%float.

Definition max_modulus (cells : list (option complex)) : double :=
  foldr (λ c acc, match c with
                  | Some z => if PrimFloat.ltb acc (modulus z) then modulus z else acc
                  | None => acc
                  end) 0%float cells.

Definition norm_library : Backend :=
  λ _ k _ args,
    {| r_info := 0; r_work0 := Some (of_double k 0); r_wr := []; r_wi := []; r_vr := [];
       r_result := match args with
                   | [_; _; _; AReals cells; _; _; _] => max_abs cells
                   | [_; _; _; AComplexes cells; _; _; _] => max_modulus cells
                   | _ => 0%float
                   end;
       r_ilaenv := 0; r_small := None; r_large := None |}.

(** dgeev_ asked for eigenvalues only ([jobvr = 'N']) on the 2-by-2 diagonal
    matrix with the entries 3 and 5: it fills [wr] and [wi] and does not
    reference [vr]. *)
Definition eigenvalues_only : Backend :=
  λ _ k _ _,
    {| r_info := 0; r_work0 := Some (of_double k 0);
       r_wr := [Some 3; Some 5]%float;
       r_wi := [Some 0; Some 0]%float;
       r_vr := [];
       r_result := 0%float; r_ilaenv := 0; r_small := None; r_large := None |}.

(** dgeev_ on a 2-by-2 block whose eigenvalues [1 +- 2^-24 i] have an
    imaginary part below [EPS]. *)
Definition nearly_real_pair : Backend :=
  λ _ k _ _,
    {| r_info := 0; r_work0 := Some (of_double k 0);
       r_wr := [Some 1; Some 1]%float;
       r_wi := [Some 0x1p-24; Some (-0x1p-24)]%float;
       r_vr := [Some 1; Some 0; Some 0; Some (-1)]%float;
       r_result := 0%float; r_ilaenv := 0; r_small := None; r_large := None |}.

(** xGEEV on the 2-by-2 block with the rows [(1, w)] and [(-w, 1)], where
    [w = (float)EPS] is the [float] nearest to [0.000001], which is below
    it: the eigenvalues are [1 +- w i], and the eigenvector [(1, -i)] of the
    first comes back as real part and imaginary part in the two columns of
    [vr]. *)
Definition pair_at_the_float_threshold : Backend :=
  λ _ k _ _,
    {| r_info := 0; r_work0 := Some (of_double k 0);
       r_wr := [Some 1; Some 1]%float;
       r_wi := [Some 0x1.0c6f7ap-20; Some (-0x1.0c6f7ap-20)]%float;
       r_vr := [Some 1; Some 0; Some 0; Some (-1)]%float;
       r_result := 0%float; r_ilaenv := 0; r_small := None; r_large := None |}.

(** The [double] equal to the [int] [z]: what a routine leaves in [work[0]]
    when it stores the workspace size [z] there. *)
Definition of_int (z : Z) : double :=
  if z <? 0 then (- PrimFloat.of_uint63 (Uint63.of_Z (- z)))%float
  else PrimFloat.of_uint63 (Uint63.of_Z z).

(** ** Tactics *)

Arguments zero_fill : simpl never.
Arguments eigenvalues : simpl never.
Arguments eigenvector_columns : simpl never.
Arguments copy_matrix : simpl never.
Arguments to_int : simpl never.
Arguments strcat : simpl never.
Arguments written : simpl never.
Arguments uninitialized : simpl never.
Arguments fresh : simpl never.
Arguments int_expr : simpl never.
Arguments int_mul : simpl never.
Arguments int_add : simpl never.
Arguments int_sub : simpl never.
Arguments slot_0 : simpl never.
Arguments float_div : simpl never.

Ltac unfold_wrappers :=
  unfold run, invoke, with_info, without_info,
    gelss, potrs, sytrs, getrs, syevx, syev, gesdd, geev, getrf, tzrzf, geqp3, lascl, lange,
    ormqr, trsm, ormrz, copy, laic1, potrf, sytrf, ilaenv, getMachineUnderflow,
    getMachinePrecision, quotient_of_calls,
    ifdef_SIMBODY_WITHOUT_LAPACK, throw_if_negative, SimTK_THROW2_IllegalLapackArg,
    TypedWorkSpace, ws_resize, emit, call, defined, undefined, throw, bind, ret, with_lapack,
    next_ws.

(** One case distinction on a value the run depends on. *)
Ltac case_step :=
  match goal with
  | |- context [int_mul ?a ?b] => destruct (int_mul a b) eqn:?
  | |- context [int_add ?a ?b] => destruct (int_add a b) eqn:?
  | |- context [int_sub ?a ?b] => destruct (int_sub a b) eqn:?
  | |- context [slot_0 ?q] => destruct (slot_0 q) eqn:?
  | |- context [float_div ?r ?x ?y] => destruct (float_div r x y) eqn:?
  | |- context [to_int ?x] => destruct (to_int x) eqn:?
  | |- context [strcat ?a ?b ?c] => destruct (strcat a b c) eqn:?
  | |- context [zero_fill ?a ?b] => destruct (zero_fill a b) eqn:?
  | |- context [eigenvalues ?a ?b ?c ?d] => destruct (eigenvalues a b c d) eqn:?
  | |- context [eigenvector_columns ?a ?b ?c ?d ?e ?f ?g] =>
      destruct (eigenvector_columns a b c d e f g) eqn:?
  | |- context [copy_matrix ?f ?a ?b ?c ?d ?e] => destruct (copy_matrix f a b c d e) eqn:?
  | |- context [Ascii.eqb ?a ?b] => destruct (Ascii.eqb a b) eqn:?
  | |- context [?z <? 0] => destruct (z <? 0) eqn:?
  | |- context [if ?b then _ else _] => is_var b; destruct b
  end.

Ltac run_wrapper := unfold_wrappers; simpl; repeat (case_step; simpl).

(** One goal for each specialization. *)
Ltac each_specialization c :=
  destruct c;
  match goal with
  | k : Kind |- _ => destruct k
  | precision : RealKind |- _ => destruct precision
  end.


(** ** Conversions *)

Example to_int_discards_the_fraction :
  to_int 66.75 = Some 66 ∧ to_int (-3.5) = Some (-3) ∧ to_int 0.25 = Some 0 ∧
  to_int 2147483647 = Some INT_MAX ∧ to_int 2147483648 = None ∧
  to_int infinity = None ∧ to_int nan = None.
Proof. vm_compute. repeat split; reflexivity. Qed.

(** [(float)EPS] is the binary32 value next to [1e-6], just below [EPS]. *)
Example EPS_at_float :
  to_float EPS = 0x1.0c6f7ap-20%float ∧
  PrimFloat.ltb (to_float EPS) EPS = true ∧
  to_float 0.5 = 0.5%float.
Proof. vm_compute. repeat split; reflexivity. Qed.

(** *** Integers held in a [double] *)

Lemma iter_xO_value p k : Z.pos (Pos.iter xO p k) = Z.pos p * 2 ^ Z.pos k.
Proof.
  induction k as [|k IH] using Pos.peano_ind.
  - simpl. lia.
  - rewrite Pos.iter_succ, Pos2Z.inj_succ, Z.pow_succ_r by lia.
    rewrite Pos2Z.inj_xO, IH. lia.
Qed.

Lemma iter_xO_digits p k : digits2_pos (Pos.iter xO p k) = (digits2_pos p + k)%positive.
Proof.
  induction k as [|k IH] using Pos.peano_ind.
  - simpl. lia.
  - rewrite Pos.iter_succ. simpl. rewrite IH. lia.
Qed.

Lemma digits2_pos_size p : digits2_pos p = Pos.size p.
Proof. induction p as [p IH|p IH|]; simpl; by rewrite ?IH. Qed.

Lemma digits2_pos_bound p k : 0 ≤ k → Z.pos p < 2 ^ k → Z.pos (digits2_pos p) ≤ k.
Proof.
  intros Hk Hp. rewrite digits2_pos_size.
  pose proof (Pos.size_le p) as Hsize.
  apply Pos2Z.pos_le_pos in Hsize. rewrite Pos2Z.inj_pow, Pos2Z.inj_xO in Hsize.
  destruct (Z.le_gt_cases (Z.pos (Pos.size p)) k) as [|Hgt]; [done|].
  assert (2 ^ (k + 1) ≤ 2 ^ Z.pos (Pos.size p)) by (apply Z.pow_le_mono_r; lia).
  assert (2 ^ (k + 1) = 2 ^ k * 2) as Hpow by (rewrite Z.pow_add_r by lia; reflexivity).
  change ((2 * 1) ^ Z.pos (Pos.size p)) with (2 ^ Z.pos (Pos.size p)) in Hsize.
  lia.
Qed.

(** An integer of at most 53 bits is a [double]. *)
Lemma binary_round_integer s p :
  Z.pos (digits2_pos p) ≤ 53 →
  ∃ m e, binary_round prec emax s p 0 = S754_finite s m e ∧ e ≤ 0 ∧
         Z.pos m = Z.pos p * 2 ^ (- e).
Proof.
  intros Hd. unfold binary_round, shl_align, fexp, SpecFloat.emin, prec, emax.
  set (d := Z.pos (digits2_pos p)) in *.
  replace (Z.max (d + 0 - 53) (3 - 1024 - 53) - 0) with (d - 53) by lia.
  assert (∀ m e, Z.pos (digits2_pos m) = 53 → e = d - 53 →
            binary_round_aux 53 1024 s (Z.pos m) e loc_Exact = S754_finite s m e) as Haux.
  { intros m e Hm ->. unfold binary_round_aux, shr_fexp, fexp, SpecFloat.emin.
    simpl Zdigits2. rewrite Hm.
    replace (Z.max (53 + (d - 53) - 53) (3 - 1024 - 53) - (d - 53)) with 0 by lia.
    simpl. rewrite Hm.
    replace (Z.max (53 + (d - 53) - 53) (3 - 1024 - 53) - (d - 53)) with 0 by lia.
    simpl. destruct (Z.leb_spec (d - 53) (1024 - 53)); [done|lia]. }
  destruct (d - 53) as [|q|q] eqn:Hq; [|lia|].
  - exists p, 0. replace (Z.max (d + 0 - 53) (3 - 1024 - 53)) with 0 by lia.
    rewrite Haux by (fold d; lia). split; [done|]. simpl. lia.
  - exists (Pos.iter xO p q), (Z.neg q).
    replace (Z.max (d + 0 - 53) (3 - 1024 - 53)) with (Z.neg q) by lia.
    rewrite Haux.
    + split; [done|]. split; [lia|]. simpl. apply iter_xO_value.
    + rewrite iter_xO_digits. fold d in Hq. unfold d in *. lia.
    + lia.
Qed.

Lemma to_int_of_uint63 z :
  0 ≤ z ≤ INT_MAX → to_int (PrimFloat.of_uint63 (Uint63.of_Z z)) = Some z ∧
  (0 < z → ∃ m e, Prim2SF (PrimFloat.of_uint63 (Uint63.of_Z z)) = S754_finite false m e ∧
                  Z.shiftl (Z.pos m) e = z).
Proof.
  intros Hz. unfold to_int, INT_MAX, INT_MIN in *.
  rewrite of_uint63_spec, Uint63.of_Z_spec.
  rewrite Z.mod_small
    by (split; [lia|]; apply Z.le_lt_trans with (2 ^ 31 - 1); [lia|vm_compute; reflexivity]).
  destruct z as [|p|p]; [split; [done|lia]| |lia].
  simpl binary_normalize.
  destruct (binary_round_integer false p) as (m & e & -> & He & Hm).
  { pose proof (digits2_pos_bound p 31 ltac:(lia) ltac:(lia)). lia. }
  assert (Z.shiftl (Z.pos m) e = Z.pos p) as Hshift.
  { rewrite Hm. replace e with (- - e) at 2 by lia.
    rewrite Z.shiftl_opp_r, Z.shiftr_div_pow2 by lia.
    apply Z.div_mul. apply Z.pow_nonzero; lia. }
  split; [|eauto]. simpl. rewrite Hshift.
  destruct (Z.leb_spec (- 2 ^ 31) (Z.pos p)); [|lia].
  destruct (Z.leb_spec (Z.pos p) (2 ^ 31 - 1)); [done|lia].
Qed.

Lemma to_int_of_int z : INT_MIN ≤ z ≤ INT_MAX → to_int (of_int z) = Some z.
Proof.
  intros Hz. unfold of_int. destruct (Z.ltb_spec z 0) as [Hneg|Hpos].
  - destruct (decide (z = INT_MIN)) as [->|Hmin]; [vm_compute; reflexivity|].
    destruct (to_int_of_uint63 (- z)) as (_ & m & e & Hsf & Hshift);
      [unfold INT_MIN, INT_MAX in *; lia..|].
    unfold to_int. rewrite FloatAxioms.opp_spec, Hsf. simpl. rewrite Hshift.
    unfold INT_MIN, INT_MAX in *.
    destruct (Z.leb_spec (- 2 ^ 31) (- - z)); [|lia].
    destruct (Z.leb_spec (- - z) (2 ^ 31 - 1)); [|lia]. simpl. f_equal. lia.
  - apply to_int_of_uint63. lia.
Qed.

(** ** [int] arithmetic *)

Lemma INT_MIN_value : INT_MIN = -2147483648.
Proof. reflexivity. Qed.

Lemma INT_MAX_value : INT_MAX = 2147483647.
Proof. reflexivity. Qed.

Lemma int_expr_Some z v : int_expr z = Some v → v = z ∧ INT_MIN ≤ z ≤ INT_MAX.
Proof.
  unfold int_expr.
  destruct (Z.leb_spec INT_MIN z); destruct (Z.leb_spec z INT_MAX); simpl; [|done..].
  intros [= <-]. lia.
Qed.

Lemma int_expr_None z : int_expr z = None → ¬ (INT_MIN ≤ z ≤ INT_MAX).
Proof.
  unfold int_expr.
  destruct (Z.leb_spec INT_MIN z); destruct (Z.leb_spec z INT_MAX); simpl; (done || lia).
Qed.

Lemma int_expr_in_range z : INT_MIN ≤ z ≤ INT_MAX → int_expr z = Some z.
Proof.
  intros Hz. unfold int_expr.
  destruct (Z.leb_spec INT_MIN z); destruct (Z.leb_spec z INT_MAX); simpl; (done || lia).
Qed.

Lemma int_mul_Some a b v : int_mul a b = Some v → v = a * b ∧ INT_MIN ≤ a * b ≤ INT_MAX.
Proof. apply int_expr_Some. Qed.

Lemma int_add_Some a b v : int_add a b = Some v → v = a + b ∧ INT_MIN ≤ a + b ≤ INT_MAX.
Proof. apply int_expr_Some. Qed.

Lemma int_sub_Some a b v : int_sub a b = Some v → v = a - b ∧ INT_MIN ≤ a - b ≤ INT_MAX.
Proof. apply int_expr_Some. Qed.

Lemma int_mul_in_range a b : INT_MIN ≤ a * b ≤ INT_MAX → int_mul a b = Some (a * b).
Proof. apply int_expr_in_range. Qed.

Lemma int_add_in_range a b : INT_MIN ≤ a + b ≤ INT_MAX → int_add a b = Some (a + b).
Proof. apply int_expr_in_range. Qed.

Lemma int_sub_in_range a b : INT_MIN ≤ a - b ≤ INT_MAX → int_sub a b = Some (a - b).
Proof. apply int_expr_in_range. Qed.

Lemma int_mul_None a b : int_mul a b = None → ¬ (INT_MIN ≤ a * b ≤ INT_MAX).
Proof. apply int_expr_None. Qed.

Lemma int_add_None a b : int_add a b = None → ¬ (INT_MIN ≤ a + b ≤ INT_MAX).
Proof. apply int_expr_None. Qed.

Lemma int_sub_None a b : int_sub a b = None → ¬ (INT_MIN ≤ a - b ≤ INT_MAX).
Proof. apply int_expr_None. Qed.

(** What the case distinctions of a run say about its [int] values. *)
Ltac int_facts :=
  repeat match goal with
  | H : int_mul _ _ = Some _ |- _ => apply int_mul_Some in H as [? ?]
  | H : int_add _ _ = Some _ |- _ => apply int_add_Some in H as [? ?]
  | H : int_sub _ _ = Some _ |- _ => apply int_sub_Some in H as [? ?]
  | H : int_mul _ _ = None |- _ => apply int_mul_None in H
  | H : int_add _ _ = None |- _ => apply int_add_None in H
  | H : int_sub _ _ = None |- _ => apply int_sub_None in H
  | H : (_ <? _) = true |- _ => apply Z.ltb_lt in H
  | H : (_ <? _) = false |- _ => apply Z.ltb_ge in H
  end;
  subst; rewrite ?INT_MIN_value, ?INT_MAX_value in *.

Lemma int_index_Some j n i p : int_index j n i = Some p → p = j * n + i.
Proof.
  unfold int_index. destruct (int_mul j n) as [q|] eqn:Hq; [|done]. simpl.
  apply int_mul_Some in Hq as [-> _]. intros Hp. by apply int_add_Some in Hp as [-> _].
Qed.

Lemma int_index_in_range j n i :
  INT_MIN ≤ j * n ≤ INT_MAX → INT_MIN ≤ j * n + i ≤ INT_MAX → int_index j n i = Some (j * n + i).
Proof.
  intros Hjn Hp. unfold int_index. rewrite int_mul_in_range by done. simpl.
  by apply int_add_in_range.
Qed.

(** The cells of a column-major array of [rows * cols] elements that fits
    the range of [int] have indices that are [int] expressions. *)
Lemma int_index_cell rows cols j i :
  0 ≤ rows → rows * cols ≤ INT_MAX → 0 ≤ j < cols → 0 ≤ i < rows →
  int_index j rows i = Some (j * rows + i).
Proof.
  intros Hrows Hfit Hj Hi.
  assert (0 ≤ j * rows) by (apply Z.mul_nonneg_nonneg; lia).
  assert ((j + 1) * rows ≤ cols * rows) by (apply Z.mul_le_mono_nonneg_r; lia).
  rewrite INT_MAX_value in Hfit.
  apply int_index_in_range; rewrite INT_MIN_value, INT_MAX_value; lia.
Qed.

(** ** Arrays: loads, stores and loops *)

Lemma load_cell {A} (buf : list (option A)) i : load buf i = mjoin (cell buf i).
Proof. unfold load, cell. by destruct (0 <=? i). Qed.

Lemma store_length {A} (buf buf' : list (option A)) i v :
  store buf i v = Some buf' → length buf' = length buf.
Proof.
  unfold store. destruct (_ && _); [|done]. intros [= <-]. apply length_insert.
Qed.

Lemma store_cell_eq {A} (buf buf' : list (option A)) i v :
  store buf i v = Some buf' → cell buf' i = Some (Some v).
Proof.
  unfold store, cell. destruct (0 <=? i) eqn:Hi; [|done]. simpl.
  destruct (i <? _) eqn:Hlt; [|done]. intros [= <-].
  apply list_lookup_insert_eq. lia.
Qed.

Lemma store_cell_ne {A} (buf buf' : list (option A)) i j v :
  store buf i v = Some buf' → j ≠ i → cell buf' j = cell buf j.
Proof.
  unfold store, cell. destruct (0 <=? i) eqn:Hi; [|done]. simpl.
  destruct (i <? _) eqn:Hlt; [|done]. intros [= <-] Hne.
  destruct (0 <=? j) eqn:Hj; [|done].
  apply list_lookup_insert_ne. lia.
Qed.

Lemma load_store_eq {A} (buf buf' : list (option A)) i v :
  store buf i v = Some buf' → load buf' i = Some v.
Proof. intros H. rewrite load_cell, (store_cell_eq _ _ _ _ H). done. Qed.

Lemma load_store_ne {A} (buf buf' : list (option A)) i j v :
  store buf i v = Some buf' → j ≠ i → load buf' j = load buf j.
Proof. intros H Hne. by rewrite !load_cell, (store_cell_ne _ _ _ _ _ H Hne). Qed.

Lemma store_in_range {A} (buf buf' : list (option A)) i v :
  store buf i v = Some buf' → 0 ≤ i < Z.of_nat (length buf).
Proof.
  unfold store. destruct (0 <=? i) eqn:Hi; [|done]. simpl.
  destruct (i <? _) eqn:Hlt; [|done]. lia.
Qed.

Lemma load_in_range {A} (buf : list (option A)) i v :
  load buf i = Some v → 0 ≤ i < Z.of_nat (length buf).
Proof.
  unfold load. destruct (0 <=? i) eqn:Hi; [|done].
  destruct (buf !! Z.to_nat i) eqn:Hl; [|done]. intros _.
  apply lookup_lt_Some in Hl. lia.
Qed.

(** An invariant carried through a [for] loop. *)
Lemma for_loop_invariant {St} (P : Z → St → Prop) count lo (body : Z → St → option St) s s' :
  for_loop count lo body s = Some s' →
  P lo s →
  (∀ i t t', lo ≤ i < lo + Z.of_nat count → P i t → body i t = Some t' → P (i + 1) t') →
  P (lo + Z.of_nat count) s'.
Proof.
  revert lo s. induction count as [|c IH]; intros lo s Hrun Hlo Hstep; simpl in Hrun.
  - injection Hrun as <-. by replace (lo + Z.of_nat 0) with lo by lia.
  - destruct (body lo s) as [t|] eqn:Hbody; [|done]. simpl in Hrun.
    replace (lo + Z.of_nat (S c)) with ((lo + 1) + Z.of_nat c) by lia.
    apply (IH (lo + 1) t Hrun).
    + apply (Hstep lo s t); [lia|done..].
    + intros i u u' Hi. apply Hstep. lia.
Qed.

Lemma for_invariant {St} (P : Z → St → Prop) n (body : Z → St → option St) s s' :
  for_ n body s = Some s' →
  0 ≤ n →
  P 0 s →
  (∀ i t t', 0 ≤ i < n → P i t → body i t = Some t' → P (i + 1) t') →
  P n s'.
Proof.
  unfold for_. intros Hrun Hn H0 Hstep.
  replace n with (0 + Z.of_nat (Z.to_nat n)) at 1 by lia.
  apply (for_loop_invariant P _ _ _ _ _ Hrun H0).
  intros i t t' Hi. apply Hstep. lia.
Qed.

(** Two loop bodies that agree on the range give the same loop. *)
Lemma for_loop_ext {St} count lo (body body' : Z → St → option St) s :
  (∀ i t, lo ≤ i < lo + Z.of_nat count → body i t = body' i t) →
  for_loop count lo body s = for_loop count lo body' s.
Proof.
  revert lo s. induction count as [|c IH]; intros lo s Hext; simpl; [done|].
  rewrite <- (Hext lo s) by lia.
  destruct (body lo s) as [t|]; simpl; [|done].
  apply IH. intros i u Hi. apply Hext. lia.
Qed.

Lemma store_defined {A} (buf : list (option A)) i v :
  0 ≤ i < Z.of_nat (length buf) → ∃ buf', store buf i v = Some buf'.
Proof.
  intros Hi. unfold store.
  destruct (Z.leb_spec 0 i); [|lia].
  destruct (Z.ltb_spec i (Z.of_nat (length buf))); [|lia]. simpl. eauto.
Qed.

(** A loop whose body is defined on every state that satisfies an invariant. *)
Lemma for_loop_defined {St} (P : Z → St → Prop) count lo (body : Z → St → option St) s :
  P lo s →
  (∀ i t, lo ≤ i < lo + Z.of_nat count → P i t → ∃ t', body i t = Some t' ∧ P (i + 1) t') →
  ∃ s', for_loop count lo body s = Some s'.
Proof.
  revert lo s. induction count as [|c IH]; intros lo s Hlo Hstep; simpl; [eauto|].
  destruct (Hstep lo s) as (t & -> & Ht); [lia|done|]. simpl.
  apply IH; [done|]. intros i u Hi. apply Hstep. lia.
Qed.

(** A loop that fills consecutive cells of fresh storage. *)
Lemma store_fresh {A} (pre rest : list (option A)) c i x :
  i = Z.of_nat (length pre) →
  store (pre ++ c :: rest) i x = Some ((pre ++ [Some x]) ++ rest).
Proof.
  intros ->. unfold store.
  rewrite length_app. simpl.
  destruct (Z.leb_spec 0 (Z.of_nat (length pre))); [|lia].
  destruct (Z.ltb_spec (Z.of_nat (length pre)) (Z.of_nat (length pre + S (length rest))));
    [|lia]. simpl.
  rewrite Nat2Z.id, insert_app_r_alt, Nat.sub_diag by lia.
  simpl. by rewrite <- app_assoc.
Qed.

Lemma for_loop_fill {A} (g : Z → option A) count lo off (pre post : list (option A)) c0 :
  off + lo = Z.of_nat (length pre) →
  for_loop count lo (λ i d, x ← g i; store d (off + i) x) (pre ++ replicate count c0 ++ post)
  = xs ← mapM g (seqZ lo (Z.of_nat count)); Some (pre ++ (Some <$> xs) ++ post).
Proof.
  revert lo pre. induction count as [|c IH]; intros lo pre Hoff.
  - simpl. done.
  - rewrite Nat2Z.inj_succ, seqZ_cons by lia. simpl.
    destruct (g lo) as [x|] eqn:Hg; simpl; [|done].
    rewrite (store_fresh pre _ c0 _ x Hoff). simpl.
    rewrite Z.pred_succ.
    replace (Z.succ lo) with (lo + 1) by lia.
    rewrite IH by (rewrite length_app; simpl; lia).
    destruct (mapM g _); simpl; [|done]. by rewrite <- app_assoc.
Qed.

(** ** lange: the copy into a dense double-precision matrix *)

(** The body of the copy loops, in terms of the entries of the matrix. *)
Lemma copy_body {A B} (convert : A → B) (m : Z) (a : list (option A)) (lda j i : Z)
    (da : list (option B)) :
  int_index j m i = Some (j * m + i) →
  (q ← int_index j lda i; x ← load a q; p ← int_index j m i; store da p (convert x))
  = (y ← convert <$> entry a lda j i; store da (j * m + i) y).
Proof.
  intros Hp. unfold entry. destruct (int_index j lda i) as [q|]; simpl; [|done].
  destruct (load a q) as [x|]; simpl; [|done]. by rewrite Hp.
Qed.

Lemma copy_column {A B} (convert : A → B) (m : Z) (a : list (option A)) (lda j : Z)
    (pre post : list (option B)) c0 :
  j * m = Z.of_nat (length pre) →
  (∀ i, 0 ≤ i < m → int_index j m i = Some (j * m + i)) →
  for_ m (λ i da, q ← int_index j lda i; x ← load a q; p ← int_index j m i;
                  store da p (convert x))
    (pre ++ replicate (Z.to_nat m) c0 ++ post)
  = xs ← promoted_column convert m a lda j; Some (pre ++ (Some <$> xs) ++ post).
Proof.
  intros Hpre Hidx. unfold for_, promoted_column.
  rewrite (for_loop_ext _ _ _
    (λ i d, y ← convert <$> entry a lda j i; store d (j * m + i) y)).
  2:{ intros i t Hi. apply copy_body, Hidx. lia. }
  rewrite (for_loop_fill (λ i, convert <$> entry a lda j i)) by lia.
  destruct (Z.le_gt_cases 0 m).
  - rewrite Z2Nat.id; done.
  - replace (Z.to_nat m) with 0%nat by lia. simpl. unfold seqZ.
    replace (Z.to_nat m) with 0%nat by lia. done.
Qed.

Lemma copy_columns {A B} (convert : A → B) (m : Z) (a : list (option A)) (lda : Z)
    (count : nat) (j : Z) (pre : list (option B)) c0 :
  0 ≤ m →
  j * m = Z.of_nat (length pre) →
  (∀ j' i, j ≤ j' < j + Z.of_nat count → 0 ≤ i < m → int_index j' m i = Some (j' * m + i)) →
  for_loop count j
    (λ j da, for_ m (λ i da, q ← int_index j lda i; x ← load a q; p ← int_index j m i;
                             store da p (convert x)) da)
    (pre ++ replicate (count * Z.to_nat m) c0)
  = cols ← mapM (promoted_column convert m a lda) (seqZ j (Z.of_nat count));
    Some (pre ++ (Some <$> concat cols)).
Proof.
  intros Hm. revert j pre. induction count as [|c IH]; intros j pre Hpre Hidx.
  - simpl. by rewrite app_nil_r.
  - rewrite Nat2Z.inj_succ, seqZ_cons by lia. simpl.
    rewrite replicate_add, copy_column; [|done|intros i Hi; apply Hidx; lia].
    destruct (promoted_column convert m a lda j) as [xs|] eqn:Hxs; simpl; [|done].
    rewrite Z.pred_succ, app_assoc.
    replace (Z.succ j) with (j + 1) by lia.
    rewrite IH.
    + destruct (mapM _ _); simpl; [|done]. by rewrite fmap_app, app_assoc.
    + apply length_mapM in Hxs. rewrite length_seqZ in Hxs.
      rewrite length_app, length_fmap. lia.
    + intros j' i Hj' Hi. apply Hidx; lia.
Qed.

(** What the two copy loops of lange leave in the fresh array. *)
Lemma copy_matrix_promoted {A B} (convert : A → B) (m n : Z) (a : list (option A)) (lda : Z) c0 :
  0 ≤ m → 0 ≤ n → m * n ≤ INT_MAX →
  copy_matrix convert m n a lda (replicate (Z.to_nat (m * n)) c0)
  = promoted_matrix convert m n a lda.
Proof.
  intros Hm Hn Hfit. unfold copy_matrix, promoted_matrix, for_ at 1.
  replace (Z.to_nat (m * n)) with (Z.to_nat n * Z.to_nat m)%nat by lia.
  change (replicate (Z.to_nat n * Z.to_nat m) c0)
    with ([] ++ replicate (Z.to_nat n * Z.to_nat m) c0).
  rewrite (copy_columns convert m a lda (Z.to_nat n) 0 []); [|done|simpl; lia|].
  - by rewrite Z2Nat.id.
  - intros j i Hj Hi. apply (int_index_cell m n); lia.
Qed.

(** The copy reads the [m]-by-[n] entries of [a] and nothing else. *)
Lemma copy_matrix_entries {A B} (convert : A → B) (m n : Z) (a a' : list (option A)) (lda : Z)
    (da : list (option B)) :
  (∀ i j, 0 ≤ i < m → 0 ≤ j < n → entry a lda j i = entry a' lda j i) →
  copy_matrix convert m n a lda da = copy_matrix convert m n a' lda da.
Proof.
  intros Hsame. unfold copy_matrix, for_.
  apply for_loop_ext. intros j d Hj.
  apply for_loop_ext. intros i t Hi.
  specialize (Hsame i j ltac:(lia) ltac:(lia)). unfold entry in Hsame.
  destruct (int_index j lda i) as [q|]; simpl in *; [|done]. by rewrite Hsame.
Qed.

(** Promotion keeps the value of every entry. *)
Lemma promoted_matrix_dense {A} (convert : A → A) (m n : Z) (a : list (option A)) (lda : Z) :
  (∀ x, convert x = x) → promoted_matrix convert m n a lda = dense m n a lda.
Proof.
  intros Hid. unfold dense, promoted_matrix. f_equal.
  apply mapM_ext. intros j. unfold promoted_column.
  apply mapM_ext. intros i. by destruct (entry a lda j i) as [x|]; simpl; rewrite ?Hid.
Qed.

Lemma complex_to_double_exact z : complex_to_double z = z.
Proof. by destruct z. Qed.

(** ** geev at the real kinds: the loops after the call *)

Lemma for_loop_store_fresh {A} (v : A) count lo (pre : list (option A)) :
  lo = Z.of_nat (length pre) →
  for_loop count lo (λ i d, store d i v) (pre ++ replicate count None)
  = Some (pre ++ replicate count (Some v)).
Proof.
  revert lo pre. induction count as [|c IH]; intros lo pre Hlo; simpl; [done|].
  rewrite (store_fresh pre _ None _ v Hlo). simpl.
  rewrite IH by (rewrite length_app; simpl; lia).
  by rewrite <- app_assoc.
Qed.

(** [wi] after the loop that clears it. *)
Lemma zero_fill_uninitialized n :
  zero_fill n (uninitialized n) = Some (replicate (Z.to_nat n) (Some 0%float)).
Proof.
  unfold zero_fill, for_, uninitialized.
  apply (for_loop_store_fresh 0%float (Z.to_nat n) 0 []). done.
Qed.

Lemma eigenvalues_spec n wr wi values vs :
  0 ≤ n →
  eigenvalues n wr wi values = Some vs →
  (∀ i, 0 ≤ i < n →
     ∃ x y, load wr i = Some x ∧ load wi i = Some y ∧ load vs i = Some (Complex x y)) ∧
  (∀ p, ¬ (0 ≤ p < n) → cell vs p = cell values p) ∧
  length vs = length values.
Proof.
  intros Hn Hrun. unfold eigenvalues in Hrun.
  apply (for_invariant (λ i t,
    (∀ i', 0 ≤ i' < i →
       ∃ x y, load wr i' = Some x ∧ load wi i' = Some y ∧ load t i' = Some (Complex x y)) ∧
    (∀ p, ¬ (0 ≤ p < i) → cell t p = cell values p) ∧
    length t = length values) _ _ _ _ Hrun Hn).
  - split; [intros; lia|done].
  - intros i t t' Hi (Hdone & Hframe & Hlen) Hbody.
    destruct (load wr i) as [x|] eqn:Hx; [|done].
    destruct (load wi i) as [y|] eqn:Hy; [|done]. simpl in Hbody.
    split; [|split].
    + intros i' Hi'. destruct (decide (i' = i)) as [->|Hne].
      * exists x, y. by rewrite (load_store_eq _ _ _ _ Hbody).
      * destruct (Hdone i') as (x' & y' & ? & ? & ?); [lia|].
        exists x', y'. by rewrite (load_store_ne _ _ _ _ _ Hbody Hne).
    + intros p Hp. rewrite (store_cell_ne _ _ _ _ _ Hbody) by lia. apply Hframe. lia.
    + by rewrite (store_length _ _ _ _ Hbody).
Qed.

Lemma real_column_spec n vr j rv rv' :
  0 ≤ n →
  real_column n vr j rv = Some rv' →
  (∀ i, 0 ≤ i < n →
     ∃ x, load vr (j * n + i) = Some x ∧ load rv' (j * n + i) = Some (Complex x 0%float)) ∧
  (∀ p, ¬ (j * n ≤ p < j * n + n) → cell rv' p = cell rv p) ∧
  length rv' = length rv.
Proof.
  intros Hn Hrun. unfold real_column in Hrun.
  apply (for_invariant (λ i t,
    (∀ i', 0 ≤ i' < i →
       ∃ x, load vr (j * n + i') = Some x ∧ load t (j * n + i') = Some (Complex x 0%float)) ∧
    (∀ p, ¬ (j * n ≤ p < j * n + i) → cell t p = cell rv p) ∧
    length t = length rv) _ _ _ _ Hrun Hn).
  - split; [intros; lia|done].
  - intros i t t' Hi (Hdone & Hframe & Hlen) Hbody.
    destruct (int_index j n i) as [p|] eqn:Hp; [|done]. simpl in Hbody.
    apply int_index_Some in Hp as ->.
    destruct (load vr (j * n + i)) as [x|] eqn:Hx; [|done]. simpl in Hbody.
    split; [|split].
    + intros i' Hi'. destruct (decide (i' = i)) as [->|Hne].
      * exists x. by rewrite (load_store_eq _ _ _ _ Hbody).
      * destruct (Hdone i') as (x' & ? & ?); [lia|].
        exists x'. rewrite (load_store_ne _ _ _ _ _ Hbody) by lia. done.
    + intros p Hp. rewrite (store_cell_ne _ _ _ _ _ Hbody) by lia. apply Hframe. lia.
    + by rewrite (store_length _ _ _ _ Hbody).
Qed.

Lemma conjugate_columns_spec n vr j rv rv' :
  0 ≤ n →
  conjugate_columns n vr j rv = Some rv' →
  (∀ i, 0 ≤ i < n →
     ∃ x y, load vr (j * n + i) = Some x ∧ load vr ((j + 1) * n + i) = Some y ∧
            load rv' (j * n + i) = Some (Complex x y) ∧
            load rv' ((j + 1) * n + i) = Some (Complex x (- y)%float)) ∧
  (∀ p, ¬ (j * n ≤ p < (j + 2) * n) → cell rv' p = cell rv p) ∧
  length rv' = length rv.
Proof.
  intros Hn Hrun. unfold conjugate_columns in Hrun.
  cut ((∀ i', 0 ≤ i' < n →
       ∃ x y, load vr (j * n + i') = Some x ∧ load vr ((j + 1) * n + i') = Some y ∧
              load rv' (j * n + i') = Some (Complex x y) ∧
              load rv' ((j + 1) * n + i') = Some (Complex x (- y)%float)) ∧
    (∀ p, ¬ (j * n ≤ p < j * n + n) → ¬ ((j + 1) * n ≤ p < (j + 1) * n + n) →
          cell rv' p = cell rv p) ∧
    length rv' = length rv).
  { intros (Hdone & Hframe & Hlen). split; [done|]. split; [|done].
    intros p Hp. apply Hframe; lia. }
  apply (for_invariant (λ i t,
    (∀ i', 0 ≤ i' < i →
       ∃ x y, load vr (j * n + i') = Some x ∧ load vr ((j + 1) * n + i') = Some y ∧
              load t (j * n + i') = Some (Complex x y) ∧
              load t ((j + 1) * n + i') = Some (Complex x (- y)%float)) ∧
    (∀ p, ¬ (j * n ≤ p < j * n + i) → ¬ ((j + 1) * n ≤ p < (j + 1) * n + i) →
          cell t p = cell rv p) ∧
    length t = length rv) _ _ _ _ Hrun Hn).
  - split; [intros; lia|done].
  - intros i t t' Hi (Hdone & Hframe & Hlen) Hbody.
    destruct (int_index j n i) as [p|] eqn:Hp; [|done]. simpl in Hbody.
    apply int_index_Some in Hp as ->.
    destruct (int_add j 1) as [j1|] eqn:Hj1; [|done]. simpl in Hbody.
    apply int_add_Some in Hj1 as [-> _].
    destruct (int_index (j + 1) n i) as [p1|] eqn:Hp1; [|done]. simpl in Hbody.
    apply int_index_Some in Hp1 as ->.
    destruct (load vr (j * n + i)) as [x|] eqn:Hx; [|done].
    destruct (load vr ((j + 1) * n + i)) as [y|] eqn:Hy; [|done]. simpl in Hbody.
    destruct (store t (j * n + i) (Complex x y)) as [t1|] eqn:Hst1; [|done].
    simpl in Hbody.
    split; [|split].
    + intros i' Hi'. destruct (decide (i' = i)) as [->|Hne].
      * exists x, y. split; [done|]. split; [done|]. split.
        -- rewrite (load_store_ne _ _ _ _ _ Hbody) by lia.
           by rewrite (load_store_eq _ _ _ _ Hst1).
        -- by rewrite (load_store_eq _ _ _ _ Hbody).
      * destruct (Hdone i') as (x' & y' & ? & ? & ? & ?); [lia|].
        exists x', y'. split; [done|]. split; [done|].
        rewrite !(load_store_ne _ _ _ _ _ Hbody) by lia.
        rewrite !(load_store_ne _ _ _ _ _ Hst1) by lia. done.
    + intros p Hp1 Hp2.
      rewrite (store_cell_ne _ _ _ _ _ Hbody) by lia.
      rewrite (store_cell_ne _ _ _ _ _ Hst1) by lia.
      apply Hframe; lia.
    + by rewrite (store_length _ _ _ _ Hbody), (store_length _ _ _ _ Hst1).
Qed.

Section ColumnLoop.
Variables (eps : double) (n : Z) (wi vr : list (option double)).

Lemma next_column_increasing j j' : next_column eps n wi j j' → j < j'.
Proof. intros (w & _ & -> & _). destruct (PrimFloat.ltb _ _); lia. Qed.

Lemma next_column_deterministic j j1 j2 :
  next_column eps n wi j j1 → next_column eps n wi j j2 → j1 = j2.
Proof.
  intros (w & Hw & -> & _) (w' & Hw' & -> & _).
  rewrite Hw in Hw'. by injection Hw' as <-.
Qed.

Lemma rtc_next_column_le j j' : rtc (next_column eps n wi) j j' → j ≤ j'.
Proof.
  induction 1 as [|j j1 j' Hstep _ IH]; [lia|].
  apply next_column_increasing in Hstep. lia.
Qed.

Lemma rtc_next_column_chain a b c :
  rtc (next_column eps n wi) a b → rtc (next_column eps n wi) a c →
  rtc (next_column eps n wi) b c ∨ rtc (next_column eps n wi) c b.
Proof.
  intros Hab. revert c. induction Hab as [|a a1 b Hstep Hab IH]; intros c Hac.
  - by left.
  - destruct (rtc_inv _ _ Hac) as [->|(a2 & Hstep' & Hac')].
    + right. by eapply rtc_l.
    + rewrite <- (next_column_deterministic _ _ _ Hstep Hstep') in Hac'. by apply IH.
Qed.

(** After a conjugate pair at [j] the loop does not run with index [j + 1]. *)
Lemma loop_index_skips_second j w :
  loop_index eps n wi j → load wi j = Some w →
  PrimFloat.ltb (PrimFloat.abs w) eps = false →
  ¬ loop_index eps n wi (j + 1).
Proof.
  intros [_ Hj] Hw Hlarge [_ Hj1].
  destruct (rtc_next_column_chain _ _ _ Hj Hj1) as [Hfwd|Hback].
  - destruct (rtc_inv _ _ Hfwd) as [?|(j2 & (w' & Hw' & -> & _) & Hrest)]; [lia|].
    rewrite Hw in Hw'. injection Hw' as <-. rewrite Hlarge in Hrest.
    apply rtc_next_column_le in Hrest. lia.
  - apply rtc_next_column_le in Hback. lia.
Qed.

Lemma eigenvector_columns_0 j rv : eigenvector_columns eps n wi vr 0 j rv = Some rv.
Proof. reflexivity. Qed.

Lemma eigenvector_columns_S todo j rv :
  eigenvector_columns eps n wi vr (S todo) j rv =
    w ← load wi j;
    if PrimFloat.ltb (PrimFloat.abs w) eps then
      rv' ← real_column n vr j rv;
      eigenvector_columns eps n wi vr todo (j + 1) rv'
    else
      rv' ← conjugate_columns n vr j rv;
      match todo with
      | O => Some rv'
      | S todo' => eigenvector_columns eps n wi vr todo' (j + 2) rv'
      end.
Proof. reflexivity. Qed.

Lemma eigenvector_columns_spec todo : ∀ j rv out,
  Z.of_nat todo = n - j → 0 ≤ j →
  eigenvector_columns eps n wi vr todo j rv = Some out →
  (∀ p, p < j * n → cell out p = cell rv p) ∧
  (∀ j', j < n → rtc (next_column eps n wi) j j' → column_written eps n wi vr out j') ∧
  (Z.of_nat (length vr) ≤ n * n → ∀ p, n * n ≤ p → cell out p = cell rv p) ∧
  length out = length rv.
Proof.
  induction (lt_wf todo) as [todo _ IH]. intros j rv out Htodo Hj Hrun.
  destruct todo as [|todo'].
  { rewrite eigenvector_columns_0 in Hrun.
    injection Hrun as <-. repeat split; try done. intros; lia. }
  rewrite eigenvector_columns_S in Hrun.
  assert (0 ≤ n) as Hn by lia.
  destruct (load wi j) as [w|] eqn:Hw; [|done]. simpl in Hrun.
  destruct (PrimFloat.ltb (PrimFloat.abs w) eps) eqn:Hsmall.
  - (* a real eigenvalue *)
    destruct (real_column n vr j rv) as [rv1|] eqn:Hcol; [|done]. simpl in Hrun.
    destruct (real_column_spec _ _ _ _ _ Hn Hcol) as (Hdone & Hframe & Hlen).
    destruct (IH todo' ltac:(lia) (j + 1) rv1 out ltac:(lia) ltac:(lia) Hrun)
      as (IHlow & IHcols & IHhigh & IHlen).
    repeat split.
    + intros p Hp. rewrite IHlow by lia. apply Hframe. lia.
    + intros j' Hjn Hreach.
      destruct (rtc_inv _ _ Hreach) as [<-|(j1 & Hstep & Hrest)].
      * exists w. split; [done|]. rewrite Hsmall. intros i Hi.
        destruct (Hdone i Hi) as (x & Hx & Hout). exists x. split; [done|].
        rewrite load_cell, IHlow by lia. by rewrite <- load_cell.
      * destruct Hstep as (w' & Hw' & -> & Hlt).
        rewrite Hw in Hw'. injection Hw' as <-. rewrite Hsmall in Hlt, Hrest.
        by apply IHcols.
    + intros Hvr p Hp. rewrite IHhigh by done. apply Hframe. nia.
    + lia.
  - (* a conjugate pair *)
    destruct (conjugate_columns n vr j rv) as [rv1|] eqn:Hcol; [|done]. simpl in Hrun.
    destruct (conjugate_columns_spec _ _ _ _ _ Hn Hcol) as (Hdone & Hframe & Hlen).
    assert (column_written eps n wi vr rv1 j) as Hhere.
    { exists w. split; [done|]. by rewrite Hsmall. }
    destruct todo' as [|todo''].
    + injection Hrun as <-. repeat split.
      * intros p Hp. apply Hframe. lia.
      * intros j' Hjn Hreach.
        destruct (rtc_inv _ _ Hreach) as [<-|(j1 & Hstep & Hrest)]; [done|].
        destruct Hstep as (w' & Hw' & -> & Hlt).
        rewrite Hw in Hw'. injection Hw' as <-. rewrite Hsmall in Hlt. lia.
      * intros Hvr p Hp. exfalso.
        destruct (Hdone 0 ltac:(lia)) as (x & y & _ & Hy & _).
        apply load_in_range in Hy. nia.
      * done.
    + destruct (IH todo'' ltac:(lia) (j + 2) rv1 out ltac:(lia) ltac:(lia) Hrun)
        as (IHlow & IHcols & IHhigh & IHlen).
      repeat split.
      * intros p Hp. rewrite IHlow by lia. apply Hframe. lia.
      * intros j' Hjn Hreach.
        destruct (rtc_inv _ _ Hreach) as [<-|(j1 & Hstep & Hrest)].
        -- exists w. split; [done|]. rewrite Hsmall. intros i Hi.
           destruct (Hdone i Hi) as (x & y & Hx & Hy & Hout1 & Hout2).
           exists x, y. split; [done|]. split; [done|].
           rewrite !load_cell, !IHlow by lia. by rewrite <- !load_cell.
        -- destruct Hstep as (w' & Hw' & -> & Hlt).
           rewrite Hw in Hw'. injection Hw' as <-. rewrite Hsmall in Hlt, Hrest.
           by apply IHcols.
      * intros Hvr p Hp. rewrite IHhigh by done. apply Hframe. nia.
      * lia.
Qed.
End ColumnLoop.

(** *** When the loops are defined *)

Lemma eigenvalues_defined n wr wi values :
  (∀ i, 0 ≤ i < n → is_Some (load wr i)) →
  (∀ i, 0 ≤ i < n → is_Some (load wi i)) →
  n ≤ Z.of_nat (length values) →
  is_Some (eigenvalues n wr wi values).
Proof.
  intros Hwr Hwi Hcap. unfold eigenvalues, for_.
  destruct (for_loop_defined (λ _ t, length t = length values) (Z.to_nat n) 0
              (λ i vs, x ← load wr i; y ← load wi i; store vs i (Complex x y)) values)
    as (vs & Hvs); [done| |by rewrite Hvs].
  intros i t Hi Hlen.
  destruct (Hwr i) as [x ->]; [lia|]. destruct (Hwi i) as [y ->]; [lia|]. simpl.
  destruct (store_defined t i (Complex x y)) as (t' & Ht'); [lia|].
  exists t'. split; [done|]. by rewrite (store_length _ _ _ _ Ht').
Qed.

Lemma real_column_defined n vr j rv :
  0 ≤ j →
  (∀ i, 0 ≤ i < n → int_index j n i = Some (j * n + i)) →
  (∀ p, j * n ≤ p < (j + 1) * n → is_Some (load vr p)) →
  (j + 1) * n ≤ Z.of_nat (length rv) →
  is_Some (real_column n vr j rv).
Proof.
  intros Hj Hidx Hvr Hcap. unfold real_column, for_.
  destruct (for_loop_defined (λ _ t, length t = length rv) (Z.to_nat n) 0
              (λ i rv, p ← int_index j n i; x ← load vr p; store rv p (Complex x 0%float)) rv)
    as (rv' & Hrv'); [done| |by rewrite Hrv'].
  intros i t Hi Hlen. rewrite Hidx by lia. simpl.
  destruct (Hvr (j * n + i)) as [x ->]; [nia|]. simpl.
  destruct (store_defined t (j * n + i) (Complex x 0%float)) as (t' & Ht'); [nia|].
  exists t'. split; [done|]. by rewrite (store_length _ _ _ _ Ht').
Qed.

Lemma conjugate_columns_defined n vr j rv :
  0 ≤ j →
  int_add j 1 = Some (j + 1) →
  (∀ i, 0 ≤ i < n → int_index j n i = Some (j * n + i)) →
  (∀ i, 0 ≤ i < n → int_index (j + 1) n i = Some ((j + 1) * n + i)) →
  (∀ p, j * n ≤ p < (j + 2) * n → is_Some (load vr p)) →
  (j + 2) * n ≤ Z.of_nat (length rv) →
  is_Some (conjugate_columns n vr j rv).
Proof.
  intros Hj Hj1 Hidx Hidx1 Hvr Hcap. unfold conjugate_columns, for_.
  destruct (for_loop_defined (λ _ t, length t = length rv) (Z.to_nat n) 0
              (λ i rv,
                 p ← int_index j n i;
                 j1 ← int_add j 1;
                 p1 ← int_index j1 n i;
                 x ← load vr p;
                 y ← load vr p1;
                 rv ← store rv p (Complex x y);
                 x' ← load vr p;
                 y' ← load vr p1;
                 store rv p1 (Complex x' (- y')%float)) rv)
    as (rv' & Hrv'); [done| |by rewrite Hrv'].
  intros i t Hi Hlen. rewrite Hidx by lia. simpl. rewrite Hj1. simpl.
  rewrite Hidx1 by lia. simpl.
  destruct (Hvr (j * n + i)) as [x Hx]; [nia|].
  destruct (Hvr ((j + 1) * n + i)) as [y Hy]; [nia|].
  rewrite Hx, Hy. simpl.
  destruct (store_defined t (j * n + i) (Complex x y)) as (t1 & Ht1); [nia|].
  rewrite Ht1. simpl.
  destruct (store_defined t1 ((j + 1) * n + i) (Complex x (- y)%float)) as (t' & Ht');
    [rewrite (store_length _ _ _ _ Ht1); nia|].
  exists t'. split; [done|].
  by rewrite (store_length _ _ _ _ Ht'), (store_length _ _ _ _ Ht1).
Qed.

Section ColumnLoopDefined.
Variables (eps : double) (n : Z) (wi vr : list (option double)).
Hypothesis wi_filled : ∀ j, 0 ≤ j < n → is_Some (load wi j).
Hypothesis vr_filled : ∀ p, 0 ≤ p < n * n → is_Some (load vr p).
Hypothesis fits : n * n ≤ INT_MAX.

Lemma eigenvector_columns_defined todo : ∀ j rv,
  Z.of_nat todo = n - j → 0 ≤ j →
  n * n ≤ Z.of_nat (length rv) →
  (∀ j' w, rtc (next_column eps n wi) j j' → j' < n → load wi j' = Some w →
           PrimFloat.ltb (PrimFloat.abs w) eps = false → j' + 1 < n) →
  is_Some (eigenvector_columns eps n wi vr todo j rv).
Proof using wi_filled vr_filled fits.
  induction (lt_wf todo) as [todo _ IH]. intros j rv Htodo Hj Hcap Hpairs.
  destruct todo as [|todo']; [by rewrite eigenvector_columns_0|].
  rewrite eigenvector_columns_S.
  destruct (wi_filled j) as [w Hw]; [lia|]. rewrite Hw. simpl.
  destruct (PrimFloat.ltb (PrimFloat.abs w) eps) eqn:Hsmall.
  - assert ((j + 1) * n ≤ n * n) by (apply Z.mul_le_mono_nonneg_r; lia).
    assert (0 ≤ j * n) by (apply Z.mul_nonneg_nonneg; lia).
    destruct (real_column_defined n vr j rv) as [rv1 Hcol]; [lia| | |lia|].
    { intros i Hi. apply (int_index_cell n n); lia. }
    { intros p Hp. apply vr_filled. lia. }
    rewrite Hcol. simpl.
    destruct (real_column_spec n vr j rv rv1 ltac:(lia) Hcol) as (_ & _ & Hlen).
    apply IH; [lia..| |].
    + by rewrite Hlen.
    + intros j' w' Hreach Hlt. apply Hpairs; [|done].
      eapply rtc_l; [|done]. exists w. rewrite Hsmall. split; [done|]. split; [done|].
      apply rtc_next_column_le in Hreach. lia.
  - assert (j + 1 < n) as Hpair by (by eapply (Hpairs j w); [apply rtc_refl|lia|..]).
    assert ((j + 2) * n ≤ n * n) by (apply Z.mul_le_mono_nonneg_r; lia).
    assert (0 ≤ j * n) by (apply Z.mul_nonneg_nonneg; lia).
    destruct (conjugate_columns_defined n vr j rv) as [rv1 Hcol]; [lia| | | | |lia|].
    { apply int_add_in_range. rewrite INT_MIN_value. rewrite INT_MAX_value in *. nia. }
    { intros i Hi. apply (int_index_cell n n); lia. }
    { intros i Hi. apply (int_index_cell n n); lia. }
    { intros p Hp. apply vr_filled. lia. }
    rewrite Hcol. simpl.
    destruct (conjugate_columns_spec n vr j rv rv1 ltac:(lia) Hcol) as (_ & _ & Hlen).
    destruct todo' as [|todo'']; [lia|].
    apply IH; [lia..| |].
    + by rewrite Hlen.
    + intros j' w' Hreach Hlt. apply Hpairs; [|done].
      eapply rtc_l; [|done]. exists w. rewrite Hsmall. split; [done|]. split; [done|].
      apply rtc_next_column_le in Hreach. lia.
Qed.
End ColumnLoopDefined.

Lemma length_written {A} (old new : list (option A)) : length (written old new) = length old.
Proof.
  revert new. induction old as [|c old IH]; intros [|[v|] new]; simpl; auto.
Qed.

Lemma written_filled {A} (old new : list (option A)) i :
  Forall is_Some old →
  0 ≤ i < Z.of_nat (length old) →
  is_Some (load (written old new) i).
Proof.
  intros Hold Hi. unfold load. destruct (Z.leb_spec 0 i); [|lia].
  assert (Forall is_Some (written old new)) as Hall.
  { clear Hi. revert new. induction Hold as [|c old Hc Hold IH]; intros new.
    - by destruct new.
    - destruct new as [|[v|] new]; simpl.
      + by constructor.
      + constructor; [by eexists|apply IH].
      + constructor; [done|apply IH]. }
  destruct (written old new !! Z.to_nat i) as [c|] eqn:Hc.
  - rewrite Forall_lookup in Hall. destruct (Hall _ _ Hc) as [v ->]. by eexists.
  - apply lookup_ge_None in Hc. rewrite length_written in Hc. lia.
Qed.

(** The run of geev at a real kind with a negative [n]: the first
    workspace cannot be allocated. *)
Lemma geev_real_negative k nd lib jobvl jobvr n a lda values vl ldvl rightVectors ldvr work lwork :
  k = KFloat ∨ k = KDouble →
  n < 0 →
  run (geev k jobvl jobvr n a lda values vl ldvl rightVectors ldvr work lwork)
      (with_lapack nd) lib = (Thrown bad_array_new_length, [WsNew 0 (TElem k) (Some n)]).
Proof.
  intros [->| ->] Hn; unfold_wrappers; simpl.
  all: by destruct (Z.ltb_spec n 0); [|lia].
Qed.

(** The run with an [n] whose square is not an [int]. *)
Lemma geev_real_overflow k nd lib jobvl jobvr n a lda values vl ldvl rightVectors ldvr work lwork :
  k = KFloat ∨ k = KDouble →
  0 ≤ n →
  INT_MAX < n * n →
  run (geev k jobvl jobvr n a lda values vl ldvl rightVectors ldvr work lwork)
      (with_lapack nd) lib
  = (Undefined, [WsNew 0 (TElem k) (Some n); WsNew 1 (TElem k) (Some n)]).
Proof.
  intros [->| ->] Hn Hnn; unfold_wrappers; simpl.
  all: destruct (Z.ltb_spec n 0); [lia|]; simpl.
  all: destruct (int_mul n n) as [nn|] eqn:Hmul; [|done].
  all: apply int_mul_Some in Hmul; lia.
Qed.

(** The run of geev at a real kind. *)
Lemma geev_real_run k nd lib jobvl jobvr n a lda values vl ldvl rightVectors ldvr work lwork :
  k = KFloat ∨ k = KDouble →
  0 ≤ n →
  n * n ≤ INT_MAX →
  run (geev k jobvl jobvr n a lda values vl ldvl rightVectors ldvr work lwork)
      (with_lapack nd) lib =
    let tr0 := [WsNew 0 (TElem k) (Some n); WsNew 1 (TElem k) (Some n);
                WsNew 2 (TElem k) (Some (n * n))] in
    let zeros := replicate (Z.to_nat n) (Some 0%float) in
    let args := [AChar jobvl; AChar jobvr; AInt n; APtr a; AInt lda; AWork 0; AReals zeros;
                 APtr vl; AInt ldvl; AWork 2; AInt ldvr; APtr work; AInt lwork; AInfo;
                 AInt 1; AInt 1] in
    let reply := lib tr0 k (geev_routine k) args in
    let tr := tr0 ++ [Lapack k (geev_routine k) args reply] in
    let wr := written (uninitialized n) (r_wr reply) in
    let wi := written zeros (r_wi reply) in
    let vr := written (uninitialized (n * n)) (r_vr reply) in
    if r_info reply <? 0
    then (Thrown (IllegalLapackArg (geev_routine k) (r_info reply)), tr)
    else match eigenvalues n wr wi (cells values) with
         | None => (Undefined, tr)
         | Some vs =>
             match eigenvector_columns (geev_threshold k) n wi vr (Z.to_nat n) 0
                     (cells rightVectors) with
             | None => (Undefined, tr)
             | Some rv => (Returned (r_info reply, vs, rv), tr)
             end
         end.
Proof.
  intros Hk Hn Hnn.
  assert (int_mul n n = Some (n * n)) as Hmul.
  { apply int_mul_in_range. rewrite INT_MIN_value. nia. }
  assert ((n * n <? 0) = false) as Hsq by (apply Z.ltb_ge; nia).
  destruct Hk as [->| ->]; unfold_wrappers; simpl.
  all: destruct (Z.ltb_spec n 0); [lia|]; simpl.
  all: rewrite Hmul; simpl; rewrite Hsq; clear Hsq; simpl.
  all: rewrite zero_fill_uninitialized; simpl.
  all: destruct (_ <? 0); simpl; [done|].
  all: destruct (eigenvalues _ _ _ _); simpl; [|done].
  all: by destruct (eigenvector_columns _ _ _ _ _ _ _).
Qed.

(** *** The columns the loop covers *)

Section ColumnCover.
Variables (eps : double) (n : Z) (wi : list (option double)).
Hypothesis wi_filled : ∀ j, 0 ≤ j < n → is_Some (load wi j).

(** Every column is visited by the loop, or is the second column of a pair
    that the loop visits. *)
Lemma column_covered j :
  0 ≤ j < n →
  loop_index eps n wi j ∨
  ∃ w, loop_index eps n wi (j - 1) ∧ load wi (j - 1) = Some w ∧
       PrimFloat.ltb (PrimFloat.abs w) eps = false.
Proof using wi_filled.
  intros [Hj Hlt]. revert Hlt. pattern j. apply natlike_ind; [| |done].
  - intros Hn. left. split; [done|apply rtc_refl].
  - clear j Hj. intros j Hj IH Hlt.
    destruct IH as [[Hn Hreach]|(w & [Hn Hreach] & Hw & Hlarge)]; [lia| |].
    + destruct (wi_filled j) as [w Hw]; [lia|].
      destruct (PrimFloat.ltb (PrimFloat.abs w) eps) eqn:Hsmall.
      * left. split; [done|]. eapply rtc_r; [done|].
        exists w. rewrite Hsmall. split; [done|]. split; [done|lia].
      * right. exists w. replace (Z.succ j - 1) with j by lia. done.
    + left. split; [done|]. eapply rtc_r; [done|].
      exists w. rewrite Hlarge. split; [done|]. split; lia.
Qed.
End ColumnCover.

(** A cell of an [n]-column array by its column and row. *)
Lemma column_and_row n p :
  0 < n → 0 ≤ p < n * n → ∃ j i, p = j * n + i ∧ 0 ≤ j < n ∧ 0 ≤ i < n.
Proof.
  intros Hn Hp. exists (p / n), (p mod n).
  pose proof (Z.div_mod p n ltac:(lia)).
  pose proof (Z.mod_pos_bound p n Hn).
  assert (0 ≤ p / n) by (apply Z.div_pos; lia).
  assert (p / n < n) by (apply Z.div_lt_upper_bound; lia).
  lia.
Qed.

Lemma wi_is_filled n (new : list (option double)) j :
  0 ≤ j < n → is_Some (load (written (replicate (Z.to_nat n) (Some 0%float)) new) j).
Proof.
  intros Hj. apply written_filled.
  - apply Forall_replicate. by eexists.
  - rewrite length_replicate. lia.
Qed.

Lemma columns_cover eps n new vr rightVectors rv :
  let wi := written (replicate (Z.to_nat n) (Some 0%float)) new in
  0 ≤ n →
  eigenvector_columns eps n wi vr (Z.to_nat n) 0 rightVectors = Some rv →
  ∀ j, 0 ≤ j < n → column_written eps n wi vr rv j ∨
    ∃ w, load wi (j - 1) = Some w ∧ PrimFloat.ltb (PrimFloat.abs w) eps = false ∧
         loop_index eps n wi (j - 1) ∧ column_written eps n wi vr rv (j - 1).
Proof.
  intros wi Hn Hcols j Hj.
  edestruct (eigenvector_columns_spec eps n) as (_ & Hwritten & _);
    [| |exact Hcols|]; [lia..|].
  destruct (column_covered eps n wi (wi_is_filled n new) j Hj)
    as [[Hpos Hreach]|(w & [Hpos Hreach] & Hw & Hlarge)].
  - left. by apply Hwritten.
  - right. exists w. repeat split; try done. by apply Hwritten.
Qed.

(** The loops of geev read every cell of [wr] and of [vr]. *)
Lemma geev_loops_read_all eps n wr wi vr values rightVectors vs rv :
  0 ≤ n →
  eigenvalues n wr wi values = Some vs →
  eigenvector_columns eps n wi vr (Z.to_nat n) 0 rightVectors = Some rv →
  (∀ j, 0 ≤ j < n → column_written eps n wi vr rv j ∨
     ∃ w, load wi (j - 1) = Some w ∧ PrimFloat.ltb (PrimFloat.abs w) eps = false ∧
          loop_index eps n wi (j - 1) ∧ column_written eps n wi vr rv (j - 1)) →
  (∀ i, 0 ≤ i < n → is_Some (load wr i) ∧ is_Some (load vs i)) ∧
  (∀ p, 0 ≤ p < n * n → is_Some (load vr p) ∧ is_Some (load rv p)) ∧
  length vs = length values ∧ length rv = length rightVectors.
Proof.
  intros Hn Hvalues Hcols Hcover.
  destruct (eigenvalues_spec _ _ _ _ _ Hn Hvalues) as (Hvs & _ & Hlen).
  edestruct (eigenvector_columns_spec eps n) as (_ & _ & _ & Hlen');
    [| |exact Hcols|]; [lia..|].
  split; [|split; [|done]].
  - intros i Hi. destruct (Hvs i Hi) as (x & y & -> & _ & ->). by split; eexists.
  - intros p Hp.
    destruct (column_and_row n p) as (j & i & -> & Hj & Hi); [lia|done|].
    destruct (Hcover j Hj) as [(w & Hw & Hcol)|(w & Hw & Hlarge & _ & (w' & Hw' & Hcol))].
    + destruct (PrimFloat.ltb _ _).
      * destruct (Hcol i Hi) as (x & -> & ->). by split; eexists.
      * destruct (Hcol i Hi) as (x & y & -> & _ & -> & _). by split; eexists.
    + rewrite Hw in Hw'. injection Hw' as <-. rewrite Hlarge in Hcol.
      destruct (Hcol i Hi) as (x & y & _ & Hy & _ & Hout).
      replace (j - 1 + 1) with j in Hy, Hout by lia.
      rewrite Hy, Hout. by split; eexists.
Qed.

Lemma length_uninitialized {A} n : 0 ≤ n → Z.of_nat (length (@uninitialized A n)) = n.
Proof. intros Hn. unfold uninitialized. rewrite length_replicate. lia. Qed.

(** A run of geev at a real kind that returns had an [n] whose square is an
    [int]. *)
Lemma geev_real_returned_fits k nd lib jobvl jobvr n a lda values vl ldvl rightVectors ldvr work
    lwork info vs rv tr :
  k = KFloat ∨ k = KDouble →
  run (geev k jobvl jobvr n a lda values vl ldvl rightVectors ldvr work lwork)
      (with_lapack nd) lib = (Returned (info, vs, rv), tr) →
  0 ≤ n ∧ n * n ≤ INT_MAX.
Proof.
  intros Hk Hrun.
  destruct (Z.lt_ge_cases n 0) as [Hneg|Hn].
  { by rewrite geev_real_negative in Hrun. }
  destruct (Z.lt_ge_cases INT_MAX (n * n)) as [Hbig|Hnn]; [|done].
  by rewrite geev_real_overflow in Hrun.
Qed.

(** What a run of geev at a real kind that returns tells about the loops. *)
Lemma geev_real_returned k nd lib jobvl jobvr n a lda values vl ldvl rightVectors ldvr work lwork
    info vs rv tr :
  k = KFloat ∨ k = KDouble →
  run (geev k jobvl jobvr n a lda values vl ldvl rightVectors ldvr work lwork)
      (with_lapack nd) lib = (Returned (info, vs, rv), tr) →
  ∃ args reply,
    last tr = Some (Lapack k (geev_routine k) args reply) ∧
    info = r_info reply ∧ 0 ≤ info ∧
    let wr := written (uninitialized n) (r_wr reply) in
    let wi := written (replicate (Z.to_nat n) (Some 0%float)) (r_wi reply) in
    let vr := written (uninitialized (n * n)) (r_vr reply) in
    eigenvalues n wr wi (cells values) = Some vs ∧
    eigenvector_columns (geev_threshold k) n wi vr (Z.to_nat n) 0 (cells rightVectors) = Some rv.
Proof.
  intros Hk Hrun.
  destruct (geev_real_returned_fits _ _ _ _ _ _ _ _ _ _ _ _ _ _ _ _ _ _ _ Hk Hrun) as [Hn Hnn].
  rewrite geev_real_run in Hrun by done. simpl in Hrun.
  destruct (_ <? 0) eqn:Hinfo; [done|]. apply Z.ltb_ge in Hinfo.
  destruct (eigenvalues _ _ _ _) as [vs'|] eqn:Hvalues; [|done].
  destruct (eigenvector_columns _ _ _ _ _ _ _) as [rv'|] eqn:Hcols; [|done].
  injection Hrun as <- <- <- <-.
  eexists _, _. split; [reflexivity|]. split; [reflexivity|]. split; [done|]. simpl.
  split; done.
Qed.

(** ** The runs of lange *)

(** The run of lange at [float], in terms of the dense matrix. *)
Lemma lange_float_run nd lib norm m n (a : list (option double)) lda :
  0 ≤ m → 0 ≤ n → m * n ≤ INT_MAX →
  run (lange KFloat norm m n a lda) (with_lapack nd) lib =
    let tr0 := [WsNew 0 TDouble (Some m); WsNew 1 TDouble (Some (m * n))] in
    match dense m n a lda with
    | None => (Undefined, tr0)
    | Some da =>
        let args := [AChar norm; AInt m; AInt n; AReals da; AInt m; AWork 0; AInt 1] in
        let reply := lib tr0 KDouble "dlange"%string args in
        (Returned (r_result reply), tr0 ++ [Lapack KDouble "dlange" args reply])
    end.
Proof.
  intros Hm Hn Hfit.
  assert (int_mul m n = Some (m * n)) as Hmul.
  { apply int_mul_in_range. rewrite INT_MIN_value. nia. }
  unfold_wrappers. simpl.
  destruct (Z.ltb_spec m 0); [lia|]. simpl. rewrite Hmul. simpl.
  destruct (Z.ltb_spec (m * n) 0); [nia|]. simpl.
  unfold uninitialized. rewrite copy_matrix_promoted by done.
  rewrite (promoted_matrix_dense to_double) by done.
  by destruct (dense _ _ _ _).
Qed.

Lemma lange_complex_float_run nd lib norm m n (a : list (option complex)) lda :
  0 ≤ m → 0 ≤ n → m * n ≤ INT_MAX →
  run (lange KComplexFloat norm m n a lda) (with_lapack nd) lib =
    let tr0 := [WsNew 0 TDouble (Some m); WsNew 1 TComplexDouble (Some (m * n))] in
    match dense m n a lda with
    | None => (Undefined, tr0)
    | Some za =>
        let tr1 := tr0 ++ [Cout "LapackInterface::lange called"] in
        let args := [AChar norm; AInt m; AInt n; AComplexes za; AInt m; AWork 0; AInt 1] in
        let reply := lib tr1 KComplexDouble "zlange"%string args in
        (Returned (r_result reply), tr1 ++ [Lapack KComplexDouble "zlange" args reply])
    end.
Proof.
  intros Hm Hn Hfit.
  assert (int_mul m n = Some (m * n)) as Hmul.
  { apply int_mul_in_range. rewrite INT_MIN_value. nia. }
  unfold_wrappers. simpl.
  destruct (Z.ltb_spec m 0); [lia|]. simpl. rewrite Hmul. simpl.
  destruct (Z.ltb_spec (m * n) 0); [nia|]. simpl.
  unfold fresh. rewrite copy_matrix_promoted by done.
  rewrite (promoted_matrix_dense complex_to_double) by apply complex_to_double_exact.
  by destruct (dense _ _ _ _).
Qed.

(** The runs of lange at the single-precision kinds whose sizes are not
    those of a matrix that fits: a negative [m] fails the first allocation,
    a product [m*n] outside [int] is undefined, a negative product fails the
    second allocation. *)
Lemma lange_single_precision_sizes k nd lib norm m n (a : list (option (scalar k))) lda :
  k = KFloat ∨ k = KComplexFloat →
  run (lange k norm m n a lda) (with_lapack nd) lib =
    let ty := match k with KFloat => TDouble | _ => TComplexDouble end in
    if m <? 0 then (Thrown bad_array_new_length, [WsNew 0 TDouble (Some m)])
    else match int_mul m n with
         | None => (Undefined, [WsNew 0 TDouble (Some m)])
         | Some size =>
             if size <? 0
             then (Thrown bad_array_new_length,
                   [WsNew 0 TDouble (Some m); WsNew 1 ty (Some size)])
             else run (lange k norm m n a lda) (with_lapack nd) lib
         end.
Proof.
  intros [->| ->]; cbv zeta.
  all: destruct (m <? 0) eqn:Hm; [by unfold_wrappers; simpl; rewrite Hm|].
  all: destruct (int_mul m n) as [size|] eqn:Hmul;
    [|by unfold_wrappers; simpl; rewrite Hm; simpl; rewrite Hmul].
  all: destruct (size <? 0) eqn:Hsize; [|done].
  all: by unfold_wrappers; simpl; rewrite Hm; simpl; rewrite Hmul; simpl; rewrite Hsize.
Qed.

Lemma dense_entries {A} m n (a a' : list (option A)) lda :
  0 ≤ m → 0 ≤ n → m * n ≤ INT_MAX →
  (∀ i j, 0 ≤ i < m → 0 ≤ j < n → entry a lda j i = entry a' lda j i) →
  dense m n a lda = dense m n a' lda.
Proof.
  intros Hm Hn Hfit Hsame. unfold dense.
  rewrite <- !(copy_matrix_promoted _ _ _ _ _ None) by done. by apply copy_matrix_entries.
Qed.

Lemma dense_is_Some {A} m n (a : list (option A)) lda :
  is_Some (dense m n a lda) ↔
  ∀ i j, 0 ≤ i < m → 0 ≤ j < n → is_Some (entry a lda j i).
Proof.
  unfold dense, promoted_matrix, promoted_column.
  transitivity (is_Some (mapM (λ j, mapM (λ i, (λ x, x) <$> entry a lda j i) (seqZ 0 m))
                           (seqZ 0 n))).
  { destruct (mapM _ (seqZ 0 n)) as [cols|]; simpl.
    - split; intros _; eexists; reflexivity.
    - split; intros [? [=]]. }
  rewrite mapM_is_Some, Forall_forall.
  split.
  - intros Hall i j Hi Hj.
    specialize (Hall j). rewrite elem_of_seqZ in Hall. specialize (Hall ltac:(lia)).
    simpl in Hall. rewrite mapM_is_Some, Forall_forall in Hall.
    specialize (Hall i). rewrite elem_of_seqZ in Hall. specialize (Hall ltac:(lia)).
    simpl in Hall. by apply fmap_is_Some in Hall.
  - intros Hall j Hj. apply elem_of_seqZ in Hj. simpl.
    rewrite mapM_is_Some, Forall_forall. intros i Hi. apply elem_of_seqZ in Hi. simpl.
    apply fmap_is_Some. apply Hall; lia.
Qed.

(** The cells of a dense matrix are the entries, column after column. *)
Lemma entry_in_range {A} (a : list (option A)) lda j i v :
  entry a lda j i = Some v → 0 ≤ j * lda + i < Z.of_nat (length a).
Proof.
  unfold entry. destruct (int_index j lda i) as [p|] eqn:Hp; [|done]. simpl.
  apply int_index_Some in Hp as ->. apply load_in_range.
Qed.

(** ** Traces and strings *)

Lemma lapack_calls_app tr tr' : lapack_calls (tr ++ tr') = lapack_calls tr ++ lapack_calls tr'.
Proof. apply List.filter_app. Qed.

Lemma strcat_10 p name :
  String.length p = 1%nat →
  strcat 10 p name = if (String.length name <=? 8)%nat then Some (p +:+ name) else None.
Proof.
  intros Hp. unfold strcat. rewrite Hp.
  destruct (Nat.leb_spec (String.length name) 8);
    destruct (Nat.leb_spec (1 + String.length name + 1) 10); (done || lia).
Qed.

(** ** The status code: IllegalLapackArg and the info out-parameter *)

(** C1. The claim: at every wrapper and kind, a status [-k] from the routine
    raises IllegalLapackArg.  The code at the failing inputs: with
    [info = -4] from the routine, getrf at [double] and at [float] and tzrzf
    at [std::complex<double>] return normally and hand [-4] back, where
    their siblings at the other kinds raise; syev at
    [std::complex<double>] tests [info] after the size query only, so a
    status [-8] of the call proper is returned, where syev at
    [std::complex<float>] raises. *)
Theorem getrf_real_returns_negative_info :
  let lib := reporting (-4) 0 in
  (run (getrf KDouble 2 2 0%nat 1 1%nat) (with_lapack false) lib).1 = Returned (-4) ∧
  (run (getrf KFloat 2 2 0%nat 1 1%nat) (with_lapack false) lib).1 = Returned (-4) ∧
  (run (getrf KComplexDouble 2 2 0%nat 1 1%nat) (with_lapack false) lib).1
    = Thrown (IllegalLapackArg "zgetrf" (-4)) ∧
  (run (getrf KComplexFloat 2 2 0%nat 1 1%nat) (with_lapack false) lib).1
    = Thrown (IllegalLapackArg "cgetrf" (-4)) ∧
  (run (tzrzf KComplexDouble 2 2 0%nat 1 1%nat 2%nat 64) (with_lapack false) lib).1
    = Returned (-4) ∧
  (run (tzrzf KComplexFloat 2 2 0%nat 1 1%nat 2%nat 64) (with_lapack false) lib).1
    = Thrown (IllegalLapackArg "ctzrzf" (-4)) ∧
  (run (syev KComplexDouble "V" "U" 2 0%nat 2 1%nat) (with_lapack false)
     (query_succeeds_then (-8) 66)).1 = Returned (-8) ∧
  (run (syev KComplexFloat "V" "U" 2 0%nat 2 1%nat) (with_lapack false)
     (query_succeeds_then (-8) 66)).1 = Thrown (IllegalLapackArg "cheev" (-8)).
Proof. vm_compute. repeat split; reflexivity. Qed.

(** Every other wrapper raises: when the last call of a run reports
    [info < 0] -- a run that is defined and in which no allocation fails --
    that call is the last event of the run and the outcome is
    IllegalLapackArg with the name of the routine and [info], whose argument
    position is [-info]. *)
Theorem negative_info_raises_IllegalLapackArg c nd lib out tr info :
  checks_last_info c = true →
  run (invoke c) (with_lapack nd) lib = (out, tr) →
  last_call tr ≫= reported_info = Some info →
  info < 0 →
  out ≠ Undefined →
  out ≠ Thrown bad_array_new_length →
  ∃ k routine args reply,
    last tr = Some (Lapack k routine args reply) ∧
    r_info reply = info ∧
    out = Thrown (IllegalLapackArg routine info) ∧
    argumentPosition (IllegalLapackArg routine info) = Some (- info).
Proof.
  intros Hchk Hrun Hlast Hneg Hdef Halloc.
  unfold last_call, lapack_calls in Hlast.
  each_specialization c; try discriminate Hchk; revert Hrun; run_wrapper;
    intros [= <- <-]; simpl in *; try congruence; try lia.
  all: try (injection Hlast as <-; lia).
  all: injection Hlast as <-; eexists _, _, _, _; repeat split; reflexivity.
Qed.

Lemma potrf_raises_for_an_illegal_argument :
  (run (invoke (call_potrf KDouble "U" 3 0%nat 1)) (with_lapack false) (reporting (-4) 0)).1
  = Thrown (IllegalLapackArg "dpotrf" (-4)).
Proof.
  destruct (negative_info_raises_IllegalLapackArg (call_potrf KDouble "U" 3 0%nat 1) false
              (reporting (-4) 0) _ _ (-4) eq_refl (surjective_pairing _))
    as (k & routine & args & reply & Hlast & _ & Hout & _).
  - vm_compute. reflexivity.
  - lia.
  - vm_compute. discriminate.
  - vm_compute. discriminate.
  - vm_compute in Hlast. simplify_eq. exact Hout.
Defined.


(** Conversely, in the build with LAPACK a wrapper raises in two cases
    only.  Either the run ends with a call of a routine that has reported
    [info < 0] to a specialization with an [info] test: the exception is
    IllegalLapackArg, names that routine and carries that [info].  Or the
    run ends with the allocation of a workspace of negative size: the
    exception is [std::bad_array_new_length].  Hence potrs, sytrs, getrs,
    getrf, tzrzf, lascl, ormqr, ormrz, potrf and sytrf, which allocate
    nothing, raise IllegalLapackArg or nothing, and trsm, copy, laic1,
    ilaenv and the two machine-constant accessors raise nothing. *)
Theorem raised_exception_is_IllegalLapackArg_of_the_last_call c nd lib e tr :
  run (invoke c) (with_lapack nd) lib = (Thrown e, tr) →
  (tests_info c = true ∧
   ∃ k routine args reply,
     last tr = Some (Lapack k routine args reply) ∧
     reported_info (Lapack k routine args reply) = Some (r_info reply) ∧
     r_info reply < 0 ∧
     e = IllegalLapackArg routine (r_info reply)) ∨
  (e = bad_array_new_length ∧ declared tr ≠ [] ∧
   ∃ alloc, last tr = Some alloc ∧ failed_allocation alloc).
Proof.
  intros Hrun.
  each_specialization c; revert Hrun; run_wrapper; intros [= <- <-] || intros [=].
  all: first
    [ left; split; [reflexivity|]; eexists _, _, _, _; repeat split; lia
    | right; split; [reflexivity|]; split; [discriminate|];
      eexists; split; [reflexivity|]; simpl; lia ].
Qed.

Lemma gesdd_raises_for_an_illegal_argument :
  (∃ args reply,
     last (run (invoke (call_gesdd KFloat "A" 3 2 0%nat 1 1%nat 2%nat 3 3%nat 2))
             (with_lapack false) (query_succeeds_then (-5) 40)).2
     = Some (Lapack KFloat "sgesdd" args reply) ∧ r_info reply = -5) ∧
  last (run (invoke (call_syevx KDouble "V" "A" "U" (-1) 0%nat 1 0 0 1 1 0 1%nat 2%nat 3%nat 1
                       4%nat)) (with_lapack false) (reporting 0 30)).2
  = Some (WsNew 0 TInt (Some (-5))).
Proof.
  split.
  - destruct (raised_exception_is_IllegalLapackArg_of_the_last_call
                (call_gesdd KFloat "A" 3 2 0%nat 1 1%nat 2%nat 3 3%nat 2) false
                (query_succeeds_then (-5) 40) (IllegalLapackArg "sgesdd" (-5))
                (run (invoke (call_gesdd KFloat "A" 3 2 0%nat 1 1%nat 2%nat 3 3%nat 2))
                   (with_lapack false) (query_succeeds_then (-5) 40)).2)
      as [(_ & k & routine & args & reply & Hlast & _ & _ & He)|(He & _)].
    + vm_compute. reflexivity.
    + injection He as <- Hinfo. rewrite Hlast.
      vm_compute in Hlast. simplify_eq. eexists _, _. split; [reflexivity|]. done.
    + discriminate He.
  - destruct (raised_exception_is_IllegalLapackArg_of_the_last_call
                (call_syevx KDouble "V" "A" "U" (-1) 0%nat 1 0 0 1 1 0 1%nat 2%nat 3%nat 1 4%nat)
                false (reporting 0 30) bad_array_new_length
                (run (invoke (call_syevx KDouble "V" "A" "U" (-1) 0%nat 1 0 0 1 1 0 1%nat 2%nat
                                3%nat 1 4%nat)) (with_lapack false) (reporting 0 30)).2)
      as [(_ & k & routine & args & reply & _ & _ & _ & He)|(_ & _ & alloc & Hlast & _)].
    + vm_compute. reflexivity.
    + discriminate He.
    + rewrite Hlast. vm_compute in Hlast. simplify_eq. reflexivity.
Defined.

(** When a call returns, the [info] the caller finds is the status of the
    last call of the routine -- of the call proper, not of the size query --
    and absent for the wrappers without an [info] parameter.  Where the
    specialization tests its last status, a returned [info] is never
    negative. *)
Theorem returned_info_is_the_status_of_the_last_call c nd lib v tr :
  run (invoke c) (with_lapack nd) lib = (Returned v, tr) →
  v = (if has_info_parameter c then last_call tr ≫= reported_info else None) ∧
  (has_info_parameter c = true → is_Some v) ∧
  (checks_last_info c = true → ∀ info, v = Some info → 0 ≤ info).
Proof.
  intros Hrun. unfold last_call, lapack_calls.
  each_specialization c; revert Hrun; run_wrapper; intros [= <- <-] || intros [=].
  all: simpl; repeat split; eauto; try discriminate; intros; simplify_eq; lia.
Qed.

Lemma syevx_returns_the_status_of_the_second_call :
  let r := run (invoke (call_syevx KDouble "V" "A" "U" 3 0%nat 3 0 0 1 3 0 1%nat 2%nat 3%nat 3
                          4%nat)) (with_lapack false) (query_succeeds_then 2 30) in
  r.1 = Returned (Some 2) ∧ last_call r.2 ≫= reported_info = Some 2 ∧
  length (lapack_calls r.2) = 2%nat.
Proof.
  intros r. split; [vm_compute; reflexivity|]. split; [|vm_compute; reflexivity].
  destruct (returned_info_is_the_status_of_the_last_call
    (call_syevx KDouble "V" "A" "U" 3 0%nat 3 0 0 1 3 0 1%nat 2%nat 3%nat 3 4%nat) false
    (query_succeeds_then 2 30) (Some 2) r.2) as (Hv & _).
  - vm_compute. reflexivity.
  - simpl in Hv. symmetry. exact Hv.
Defined.

(** ** Dispatch *)

(** C4. sytrs at [std::complex<float>] and [std::complex<double>] calls
    chetrs_ and zhetrs_, once, and no other routine. *)
Theorem sytrs_complex_calls_hetrs nd lib trans ncol nrhs lu pivots b :
  let args := [AChar trans; AInt ncol; AInt nrhs; APtr lu; AInt ncol; APtr pivots; APtr b;
               AInt ncol; AInfo; AInt 1] in
  (run (sytrs KComplexFloat trans ncol nrhs lu pivots b) (with_lapack nd) lib).2
    = [Lapack KComplexFloat "chetrs" args (lib [] KComplexFloat "chetrs"%string args)] ∧
  (run (sytrs KComplexDouble trans ncol nrhs lu pivots b) (with_lapack nd) lib).2
    = [Lapack KComplexDouble "zhetrs" args (lib [] KComplexDouble "zhetrs"%string args)].
Proof. split; run_wrapper; reflexivity. Qed.

(** sytrf at the complex kinds calls csytrf_ and zsytrf_, the routines for
    symmetric matrices -- not the Hermitian ones that sytrs calls. *)
Theorem sytrf_complex_calls_sytrf nd lib uplo n a lda pivots work lwork :
  routine_of <$> (run (sytrf KComplexFloat uplo n a lda pivots work lwork) (with_lapack nd) lib).2
    = [Some "csytrf"%string] ∧
  routine_of <$> (run (sytrf KComplexDouble uplo n a lda pivots work lwork) (with_lapack nd) lib).2
    = [Some "zsytrf"%string].
Proof. split; run_wrapper; reflexivity. Qed.

(** C8. ilaenv never passes [n4] on: the routine gets [n3] in both the
    third and the fourth dimension, so the run is the same for every [n4];
    the name it gets is the input name after the precision letter of the
    kind (when the name has at most 8 characters, so that it fits the
    10-character buffer; longer names overflow it). *)
Theorem ilaenv_passes_n3_twice k nd lib ispec name opts n1 n2 n3 n4 :
  let args := [AInt ispec; AStr (precision_letter k +:+ name); AStr opts; AInt n1; AInt n2;
               AInt n3; AInt n3; AInt 6; AInt (strlen opts)] in
  (∀ n4', run (ilaenv k ispec name opts n1 n2 n3 n4) (with_lapack nd) lib
          = run (ilaenv k ispec name opts n1 n2 n3 n4') (with_lapack nd) lib) ∧
  (∀ e, e ∈ lapack_calls (run (ilaenv k ispec name opts n1 n2 n3 n4) (with_lapack nd) lib).2 →
        e = Lapack k "ilaenv" args (lib [] k "ilaenv"%string args)) ∧
  ((String.length name ≤ 8)%nat →
   run (ilaenv k ispec name opts n1 n2 n3 n4) (with_lapack nd) lib
   = (Returned (r_ilaenv (lib [] k "ilaenv"%string args)),
      [Lapack k "ilaenv" args (lib [] k "ilaenv"%string args)])).
Proof.
  assert (∀ p, (String.length name ≤ 8)%nat → String.length p = 1%nat →
            strcat 10 p name = Some (p +:+ name)) as Hfits.
  { intros p Hlen Hp. unfold strcat. rewrite Hp.
    destruct (Nat.leb_spec (1 + String.length name + 1) 10); [done|lia]. }
  assert (∀ p, strcat 10 p name = None ∨ strcat 10 p name = Some (p +:+ name)) as Hcat.
  { intros p. unfold strcat. destruct (_ <=? _)%nat; auto. }
  simpl. split; [done|]. split.
  - intros e. destruct k; unfold_wrappers; simpl;
      match goal with |- context [strcat 10 ?p name] => destruct (Hcat p) as [-> | ->] end;
      simpl; intros He; by repeat (apply elem_of_cons in He as [->|He]; [done|]);
      try apply elem_of_nil in He.
  - intros Hlen. destruct k; unfold_wrappers; simpl; rewrite Hfits by done; reflexivity.
Qed.

Lemma ilaenv_geqrf_block_size :
  run (ilaenv KDouble 1 "geqrf" " " 30 20 (-1) 7) (with_lapack false) (reporting 0 0)
  = run (ilaenv KDouble 1 "geqrf" " " 30 20 (-1) 1000) (with_lapack false) (reporting 0 0) ∧
  routine_of <$> (run (ilaenv KDouble 1 "geqrf" " " 30 20 (-1) 7) (with_lapack false)
                    (reporting 0 0)).2 = [Some "ilaenv"%string] ∧
  (run (ilaenv KDouble 1 "geqrf" " " 30 20 (-1) 7) (with_lapack false) (reporting 0 0)).2
  = [Lapack KDouble "ilaenv"
       [AInt 1; AStr "dgeqrf"; AStr " "; AInt 30; AInt 20; AInt (-1); AInt (-1); AInt 6; AInt 1]
       (status KDouble 0 0)].
Proof.
  destruct (ilaenv_passes_n3_twice KDouble false (reporting 0 0) 1 "geqrf" " " 30 20 (-1) 7)
    as (Hn4 & _ & Hrun).
  split; [apply Hn4|].
  rewrite Hrun by (simpl; lia). split; reflexivity.
Defined.

(** In the build without LAPACK every specialization raises
    [std::runtime_error] with the message
    ["LapackInterface::<wrapper> called"], calls no routine and has done
    nothing before -- except geqp3 at the complex kinds and lange at
    [double], which declare a workspace before the [#ifdef]: [rwork(2*n)]
    and [work(m)].  With a size that is not negative they raise the same
    error after the allocation; with a negative size the allocation raises
    [std::bad_array_new_length]; and [2*n] outside the range of [int] is
    undefined. *)
Theorem without_lapack_every_wrapper_raises_runtime_error c nd lib :
  let unavailable := Thrown (runtime_error (called (wrapper_name c))) in
  run (invoke c) (without_lapack nd) lib =
    match declared_before_ifdef c with
    | None => (unavailable, [])
    | Some (ty, None) => (Undefined, [])
    | Some (ty, Some size) =>
        (if size <? 0 then Thrown bad_array_new_length else unavailable,
         [WsNew 0 ty (Some size)])
    end.
Proof.
  each_specialization c; try reflexivity.
  all: unfold declared_before_ifdef; run_wrapper; reflexivity.
Qed.

(** The routines a specialization calls, in order, are a prefix of: the
    routine of the wrapper -- twice for gelss, syevx, syev and gesdd, which
    ask for the workspace size first -- and, for getMachinePrecision, xLAMCH
    twice and then xLABAD.  A run that returns has made all these calls.
    The routine of a wrapper is named by the precision letter of the element
    type and the stem of the wrapper: the Hermitian and unitary stems at the
    complex kinds of sytrs, syev, syevx, ormqr and ormrz, the wrapper's own
    name elsewhere (sytrf stays symmetric), [lamch] for the machine
    constants; lange at the single-precision kinds calls the
    double-precision routine, and ilaenv calls ilaenv_. *)
Theorem every_call_is_to_the_routine_of_the_wrapper c nd lib :
  let r := run (invoke c) (with_lapack nd) lib in
  omap routine_of (lapack_calls r.2) `prefix_of` routines_called c ∧
  ((∃ v, r.1 = Returned v) → omap routine_of (lapack_calls r.2) = routines_called c).
Proof.
  unfold lapack_calls.
  each_specialization c; run_wrapper.
  all: split; [by eexists|]; intros [v [=]]; reflexivity.
Qed.

Lemma getMachinePrecision_calls_lamch_twice_then_labad :
  omap routine_of
    (lapack_calls (run (invoke (call_getMachinePrecision RDouble true))
                     (with_lapack false) machine_constants).2)
  = ["dlamch"; "dlamch"; "dlabad"]%string ∧
  omap routine_of
    (lapack_calls (run (invoke (call_getMachinePrecision RFloat false))
                     (with_lapack false) machine_constants).2)
  = ["slamch"; "slamch"; "slabad"]%string.
Proof.
  split.
  - apply (every_call_is_to_the_routine_of_the_wrapper
             (call_getMachinePrecision RDouble true) false machine_constants).
    eexists. vm_compute. reflexivity.
  - apply (every_call_is_to_the_routine_of_the_wrapper
             (call_getMachinePrecision RFloat false) false machine_constants).
    eexists. vm_compute. reflexivity.
Defined.

(** Factoring and then solving: when both calls return, the solver has
    been given [n] as the leading dimension of the factors and of [b],
    whatever [lda] the factorization was given; and at the complex kinds
    the factors that sytrs hands to the Hermitian solver ([chetrs_],
    [zhetrs_]) were computed by the symmetric factorization ([csytrf_],
    [zsytrf_]).  potrf/potrs and getrf/getrs stay within one family. *)
Theorem factor_then_solve_calls k nd lib uplo n nrhs a lda pivots work lwork b :
  let p := precision_letter k in
  let potr := run (potrf_then_potrs k uplo n nrhs a lda b) (with_lapack nd) lib in
  let getr := run (getrf_then_getrs k uplo n nrhs a lda pivots b) (with_lapack nd) lib in
  let sytr := run (sytrf_then_sytrs k uplo n nrhs a lda pivots work lwork b) (with_lapack nd) lib in
  (potr.1 = Returned tt →
   ∃ r1 r2,
     potr.2 = [Lapack k (p +:+ "potrf") [AChar uplo; AInt n; APtr a; AInt lda; AInfo] r1;
               Lapack k (p +:+ "potrs")
                 [AChar uplo; AInt n; AInt nrhs; APtr a; AInt n; APtr b; AInt n; AInfo; AInt 1]
                 r2]) ∧
  (getr.1 = Returned tt →
   ∃ r1 r2,
     getr.2 = [Lapack k (p +:+ "getrf") [AInt n; AInt n; APtr a; AInt lda; APtr pivots; AInfo] r1;
               Lapack k (p +:+ "getrs")
                 [AChar uplo; AInt n; AInt nrhs; APtr a; AInt n; APtr pivots; APtr b; AInt n;
                  AInfo; AInt 1] r2]) ∧
  (sytr.1 = Returned tt →
   ∃ r1 r2,
     sytr.2 = [Lapack k (p +:+ "sytrf")
                 [AChar uplo; AInt n; APtr a; AInt lda; APtr pivots; APtr work; AInt lwork; AInfo]
                 r1;
               Lapack k (p +:+ (if is_complex k then "hetrs" else "sytrs"))
                 [AChar uplo; AInt n; AInt nrhs; APtr a; AInt n; APtr pivots; APtr b; AInt n;
                  AInfo; AInt 1] r2]).
Proof.
  unfold potrf_then_potrs, getrf_then_getrs, sytrf_then_sytrs.
  destruct k; repeat split; run_wrapper; intros [=]; eexists _, _; reflexivity.
Qed.

Lemma zsytrf_then_zhetrs :
  omap routine_of
    (run (sytrf_then_sytrs KComplexDouble "U" 3 1 0%nat 3 1%nat 2%nat 64 3%nat)
       (with_lapack false) (reporting 0 0)).2 = ["zsytrf"; "zhetrs"]%string.
Proof.
  destruct (factor_then_solve_calls KComplexDouble false (reporting 0 0) "U" 3 1 0%nat 3 1%nat
              2%nat 64 3%nat) as (_ & _ & Hsy).
  destruct Hsy as (r1 & r2 & ->); [vm_compute; reflexivity|]. reflexivity.
Defined.

(** No specialization writes to [std::cout], in either build, except lange
    at [std::complex<float>]: each of its calls that returns has printed the
    one line ["LapackInterface::lange called"]. *)
Theorem only_lange_complex_float_prints c bld lib :
  let r := run (invoke c) bld lib in
  printed r.2 =
    match c, r.1 with
    | call_lange KComplexFloat _ _ _ _ _, Returned _ => [Cout "LapackInterface::lange called"]
    | _, _ => []
    end.
Proof.
  destruct bld as [[] nd]; unfold printed.
  all: each_specialization c; run_wrapper; reflexivity.
Qed.

(** ilaenv overflows its 10-character buffer -- undefined behaviour, before
    any call -- exactly when the name has more than 8 characters.
    Otherwise it returns what ilaenv_ answers; the string it passes has one
    character more than the name, while the length it passes for that
    string is always 6: the two agree for the names of 5 characters only. *)
Theorem ilaenv_is_undefined_iff_the_name_exceeds_8_characters
    k nd lib ispec name opts n1 n2 n3 n4 :
  let r := run (ilaenv k ispec name opts n1 n2 n3 n4) (with_lapack nd) lib in
  (r.1 = Undefined ↔ (8 < String.length name)%nat) ∧
  ((8 < String.length name)%nat → r.2 = []) ∧
  ((String.length name ≤ 8)%nat →
   ∃ d reply,
     r = (Returned (r_ilaenv reply),
          [Lapack k "ilaenv" [AInt ispec; AStr d; AStr opts; AInt n1; AInt n2; AInt n3; AInt n3;
                              AInt 6; AInt (strlen opts)] reply]) ∧
     strlen d = 1 + strlen name ∧
     (strlen d = 6 ↔ String.length name = 5%nat)).
Proof.
  assert (∀ p, String.length (p +:+ name) = (String.length p + String.length name)%nat) as Hlen.
  { intros p. induction p as [|c p IH]; simpl; [done|]. by rewrite IH. }
  destruct k; unfold_wrappers; simpl; rewrite strcat_10 by done.
  all: destruct (Nat.leb_spec (String.length name) 8); simpl.
  all: repeat split; try done; try lia.
  all: intros _; eexists _, _; split; [reflexivity|]; unfold strlen; rewrite Hlen; simpl; lia.
Qed.

Lemma ilaenv_syev_name_is_shorter_than_6 :
  ∃ d reply,
    run (ilaenv KDouble 1 "syev" "NU" 30 (-1) (-1) (-1)) (with_lapack false) (reporting 0 0)
    = (Returned (r_ilaenv reply),
       [Lapack KDouble "ilaenv" [AInt 1; AStr d; AStr "NU"; AInt 30; AInt (-1); AInt (-1);
                                 AInt (-1); AInt 6; AInt 2] reply]) ∧
    strlen d = 5.
Proof.
  destruct (ilaenv_is_undefined_iff_the_name_exceeds_8_characters KDouble false (reporting 0 0) 1
              "syev" "NU" 30 (-1) (-1) (-1)) as (_ & _ & Hshort).
  destruct Hshort as (d & reply & Hrun & Hlen & _); [simpl; lia|].
  exists d, reply. split; [exact Hrun|exact Hlen].
Defined.

(** ** Workspaces *)




(** C5.  The scratch arrays a complex specialization allocates before it
    calls the routine, for sizes that are [int] values: gelss, called with
    [mn = min(m,n)], a real array of [5*mn] elements; gesdd, with
    [mn = min(m,n)], a real array of [5*mn] elements when [jobz] is ['N'] and
    of [5*mn*mn + 7*mn] otherwise, the one-element array for the size
    query, and an integer array of [8*mn] elements; geev a real array of
    [2*n] elements.  In each case the routine is then called. *)
Theorem complex_scratch_array_sizes k nd lib :
  is_complex k = true →
  (∀ m n mn nrhs a lda b ldb s rcond rank,
     let tr := (run (gelss k m n mn nrhs a lda b ldb s rcond rank) (with_lapack nd) lib).2 in
     mn = Z.min m n → 0 ≤ mn → 5 * mn ≤ INT_MAX →
     before_first_call tr = [WsNew 0 (TReal k) (Some (5 * mn))] ∧ lapack_calls tr ≠ []) ∧
  (∀ jobz m n a lda s u ldu vt ldvt,
     let tr := (run (gesdd k jobz m n a lda s u ldu vt ldvt) (with_lapack nd) lib).2 in
     let mn := Z.min m n in
     0 ≤ mn → 8 * mn ≤ INT_MAX →
     (Ascii.eqb jobz "N" = false → 5 * mn * mn + 7 * mn ≤ INT_MAX) →
     before_first_call tr
     = [WsNew 0 (TReal k) None;
        WsResize 0 (if Ascii.eqb jobz "N" then 5 * mn else 5 * mn * mn + 7 * mn);
        WsNew 1 (TElem k) (Some 1);
        WsNew 2 TInt (Some (8 * mn))] ∧
     lapack_calls tr ≠ []) ∧
  (∀ jobvl jobvr n a lda values vl ldvl rightVectors ldvr work lwork,
     let tr := (run (geev k jobvl jobvr n a lda values vl ldvl rightVectors ldvr work lwork)
                  (with_lapack nd) lib).2 in
     0 ≤ n → 2 * n ≤ INT_MAX →
     before_first_call tr = [WsNew 0 (TReal k) (Some (2 * n))] ∧ lapack_calls tr ≠ []).
Proof.
  intros Hk. unfold lapack_calls.
  destruct k; try discriminate Hk; repeat split; intros; try discriminate.
  all: try (replace (Z.min m n) with (if m <? n then m else n) in *
              by (destruct (Z.ltb_spec m n); lia)).
  all: run_wrapper; int_facts; try first [reflexivity | discriminate | nia].

Qed.

Lemma zgesdd_scratch_array_sizes :
  before_first_call
    (run (gesdd KComplexDouble "A" 4 3 0%nat 4 1%nat 2%nat 4 3%nat 3) (with_lapack false)
       (reporting 0 66)).2
  = [WsNew 0 TDouble None; WsResize 0 66; WsNew 1 TComplexDouble (Some 1);
     WsNew 2 TInt (Some 24)] ∧
  before_first_call
    (run (gelss KComplexDouble 3 2 2 1 0%nat 3 1%nat 3 2%nat 0 3%nat) (with_lapack false)
       (reporting 0 66)).2
  = [WsNew 0 TDouble (Some 10)] ∧
  before_first_call
    (run (geev KComplexFloat "N" "V" 2 0%nat 2 values_2 1%nat 1 rightVectors_2 2 2%nat 8)
       (with_lapack false) (reporting 0 66)).2
  = [WsNew 0 TFloat (Some 4)].
Proof.
  destruct (complex_scratch_array_sizes KComplexDouble false (reporting 0 66) eq_refl)
    as (Hgelss & Hgesdd & _).
  destruct (complex_scratch_array_sizes KComplexFloat false (reporting 0 66) eq_refl)
    as (_ & _ & Hgeev).
  split; [|split].
  - apply (Hgesdd "A"%char 4 3 0%nat 4 1%nat 2%nat 4 3%nat 3); vm_compute; discriminate.
  - apply (Hgelss 3 2 2 1 0%nat 3 1%nat 3 2%nat 0%float 3%nat);
      [reflexivity|lia|vm_compute; discriminate].
  - apply (Hgeev "N"%char "V"%char 2 0%nat 2 values_2 1%nat 1 rightVectors_2 2 2%nat 8);
      [lia|vm_compute; discriminate].
Defined.

(** The undefined behaviour of gelss, syevx, syev and gesdd themselves.
    Before the size query: a run that ends without a call has overflowed an
    [int] in the size of a scratch array, or has failed to allocate a
    scratch array of negative size.  After the size query, in one case
    only: the first element of the scratch slot cannot be read as a size --
    the routine has stored nothing there and the slot is an uninitialized
    [float] or [double], or what the slot holds does not convert to an
    [int] (it is NaN, infinite or beyond the range of [int]); the run then
    ends with the query.  (syev at [std::complex<double>] reads the size
    only after it has tested the status of the query.) *)
Theorem size_query_is_undefined_iff_the_size_cannot_be_read c nd lib out tr :
  uses_workspace_query c = true →
  run (invoke c) (with_lapack nd) lib = (out, tr) →
  (lapack_calls tr = [] →
   out = Undefined ∨
   (out = Thrown bad_array_new_length ∧ ∃ alloc, last tr = Some alloc ∧ failed_allocation alloc)) ∧
  (lapack_calls tr ≠ [] →
   (out = Undefined ↔
    ∃ pre routine args q,
      tr = pre ++ [Lapack (kind_of c) routine args q] ∧ lapack_calls pre = [] ∧
      slot_0 q ≫= getLWork (kind_of c) = None ∧
      (checks_last_info c = false → 0 ≤ r_info q))).
Proof.
  intros Huses Hrun.
  destruct c; try discriminate Huses; destruct k; revert Hrun; run_wrapper;
    intros [= <- <-]; simpl.
  all: split; [first [by left | solve [intros [=]]
                     | intros _; right; split; [reflexivity|]; eexists; split; [reflexivity|];
                       int_facts; simpl; lia]
              |intros Hcalls; try (exfalso; apply Hcalls; reflexivity); clear Hcalls].
  all: split; try discriminate.
  all: try (intros (pre & routine & args & q & Htr & Hpre & Hsize & Hinfo);
            try reflexivity;
            apply (f_equal lapack_calls) in Htr; rewrite lapack_calls_app, Hpre in Htr;
            unfold lapack_calls in Htr; simpl in Htr; simplify_eq;
            repeat match goal with
                   | H : slot_0 _ = _, H' : context [slot_0 _] |- _ => rewrite H in H'
                   end; simpl in *; try congruence;
            match goal with H : _ → 0 ≤ _ |- _ => specialize (H eq_refl) end; int_facts; lia).
  all: intros _;
    match goal with
    | |- ∃ _ _ _ _, ?tr = _ ∧ _ =>
        let n := eval compute in (length tr - 1)%nat in
        let pre := eval simpl in (take n tr) in
        exists pre; eexists _, _, _; split; [reflexivity|]; split; [reflexivity|];
        split; [repeat match goal with H : slot_0 _ = _ |- _ => rewrite H end; simpl;
                try assumption; reflexivity|];
        try discriminate; intros; int_facts; lia
    end.
Qed.

Lemma gelss_with_an_unreadable_size_is_undefined :
  let gelss_3x2 := call_gelss KDouble 3 2 2 1 0%nat 3 1%nat 3 2%nat 0 3%nat in
  (run (invoke gelss_3x2) (with_lapack false) (reporting 0 0x1p31)).1 = Undefined ∧
  (run (invoke gelss_3x2) (with_lapack false) (rejecting (-5))).1 = Undefined.
Proof.
  intros gelss_3x2. split.
  - apply (size_query_is_undefined_iff_the_size_cannot_be_read gelss_3x2 false
             (reporting 0 0x1p31) _ _ eq_refl (surjective_pairing _)).
    + vm_compute. discriminate.
    + eexists [], _, _, _. split; [vm_compute; reflexivity|].
      split; [reflexivity|]. split; [vm_compute; reflexivity|]. discriminate.
  - apply (size_query_is_undefined_iff_the_size_cannot_be_read gelss_3x2 false
             (rejecting (-5)) _ _ eq_refl (surjective_pairing _)).
    + vm_compute. discriminate.
    + eexists [], _, _, _. split; [vm_compute; reflexivity|].
      split; [reflexivity|]. split; [vm_compute; reflexivity|]. discriminate.
Defined.

(** A size that the routine stores in [work[0]] as an integer of the range
    of [int] is recovered exactly by getLWork, at every element type; at
    the complex types the imaginary part of [work[0]] plays no role. *)
Theorem getLWork_recovers_an_int_size z :
  INT_MIN ≤ z ≤ INT_MAX →
  (∀ k, getLWork k (of_double k (of_int z)) = Some z) ∧
  (∀ y, getLWork KComplexFloat (Complex (of_int z) y) = Some z ∧
        getLWork KComplexDouble (Complex (of_int z) y) = Some z).
Proof.
  intros Hz. pose proof (to_int_of_int z Hz). split; [by intros []|done].
Qed.

Lemma getLWork_of_66 :
  getLWork KDouble 66%float = Some 66 ∧
  getLWork KComplexDouble (Complex (-3) 0.5) = Some (-3).
Proof.
  destruct (getLWork_recovers_an_int_size 66) as [Hreal _]; [vm_compute; split; discriminate|].
  destruct (getLWork_recovers_an_int_size (-3)) as [_ Hcomplex];
    [vm_compute; split; discriminate|].
  split; [exact (Hreal KDouble)|exact (proj2 (Hcomplex 0.5%float))].
Defined.

(** The scratch arrays the other specializations declare before they call
    the routine, for sizes that are [int] values: syevx an integer array of
    [5*n] elements and, at the complex kinds, a real array of [7*n]; syev
    at the complex kinds a real array of [max(1, 3*n-2)] elements; gesdd at
    the real kinds the one-element array for the size query and an integer
    array of [8*min(m,n)]; geqp3 at the complex kinds a real array of [2*n];
    in each of these cases the routine is then called.  lange declares a
    [double] array of [m] elements at every kind and, at the
    single-precision kinds, the [m*n] array for the promoted copy. *)
Theorem scratch_arrays_declared_before_the_call k nd lib :
  (∀ jobz range uplo n a lda vl vu il iu abstol nFound values vectors LDVectors ifail,
     let tr := (run (syevx k jobz range uplo n a lda vl vu il iu abstol nFound values vectors
                       LDVectors ifail) (with_lapack nd) lib).2 in
     0 ≤ n → 7 * n ≤ INT_MAX →
     before_first_call tr
     = WsNew 0 TInt (Some (5 * n))
       :: (if is_complex k then [WsNew 1 (TReal k) (Some (7 * n))] else []) ∧
     lapack_calls tr ≠ []) ∧
  (∀ jobz uplo n a lda eigenValues,
     let tr := (run (syev k jobz uplo n a lda eigenValues) (with_lapack nd) lib).2 in
     0 ≤ n → 3 * n ≤ INT_MAX →
     before_first_call tr
     = (if is_complex k then [WsNew 0 (TReal k) (Some (Z.max 1 (3 * n - 2)))] else []) ∧
     lapack_calls tr ≠ []) ∧
  (∀ jobz m n a lda s u ldu vt ldvt,
     let tr := (run (gesdd k jobz m n a lda s u ldu vt ldvt) (with_lapack nd) lib).2 in
     is_complex k = false →
     0 ≤ Z.min m n → 8 * Z.min m n ≤ INT_MAX →
     before_first_call tr = [WsNew 0 (TElem k) (Some 1); WsNew 1 TInt (Some (8 * Z.min m n))] ∧
     lapack_calls tr ≠ []) ∧
  (∀ m n a lda pivots tau work lwork,
     let tr := (run (geqp3 k m n a lda pivots tau work lwork) (with_lapack nd) lib).2 in
     0 ≤ n → 2 * n ≤ INT_MAX →
     before_first_call tr = (if is_complex k then [WsNew 0 (TReal k) (Some (2 * n))] else []) ∧
     lapack_calls tr ≠ []) ∧
  (∀ norm m n a lda,
     0 ≤ m → 0 ≤ n → m * n ≤ INT_MAX →
     declared (run (lange k norm m n a lda) (with_lapack nd) lib).2
     = WsNew 0 TDouble (Some m)
       :: match k with
          | KFloat => [WsNew 1 TDouble (Some (m * n))]
          | KComplexFloat => [WsNew 1 TComplexDouble (Some (m * n))]
          | _ => []
          end).
Proof.
  unfold declared, lapack_calls.
  destruct k; repeat split; intros; try discriminate.
  all: try replace (Z.max 1 (3 * n - 2)) with (if 3 * n - 2 <? 1 then 1 else 3 * n - 2)
         by (destruct (Z.ltb_spec (3 * n - 2) 1); lia).
  all: try (replace (Z.min m n) with (if m <? n then m else n) in *
              by (destruct (Z.ltb_spec m n); lia)).
  all: run_wrapper; int_facts;
    first [reflexivity | discriminate | nia | exfalso; repeat case_match; lia].
Qed.

Lemma dgesdd_scratch_arrays :
  before_first_call
    (run (gesdd KDouble "A" 4 3 0%nat 4 1%nat 2%nat 4 3%nat 3) (with_lapack false)
       (reporting 0 66)).2
  = [WsNew 0 TDouble (Some 1); WsNew 1 TInt (Some 24)].
Proof.
  destruct (scratch_arrays_declared_before_the_call KDouble false (reporting 0 66))
    as (_ & _ & Hgesdd & _).
  apply (Hgesdd "A"%char 4 3 0%nat 4 1%nat 2%nat 4 3%nat 3); [reflexivity|..];
    vm_compute; discriminate.
Defined.

(** ** geev at the real kinds *)

(** C2, as the code has it.  geev at [float] and [double], after the
    routine has returned: at every index [j] with which the column loop
    runs, if [fabs(wi[j]) < eps] column [j] of the output is [(vr_j, 0)];
    otherwise column [j] is [vr_j + i vr_{j+1}], column [j+1] is
    [vr_j - i vr_{j+1}] -- equal real parts, imaginary parts that are
    negations of each other -- and the loop does not run with index [j+1].
    [eps] does not involve the matrix, but it depends on the kind: at
    [double] it is [EPS], the [double] nearest to [0.000001]; at [float] it
    is [(float)EPS], which is [0x1.0c6f7ap-20] and smaller than [EPS]. *)
Theorem geev_real_eigenvector_columns
    k nd lib jobvl jobvr n a lda values vl ldvl rightVectors ldvr work lwork info vs rv tr :
  k = KFloat ∨ k = KDouble →
  run (geev k jobvl jobvr n a lda values vl ldvl rightVectors ldvr work lwork)
      (with_lapack nd) lib = (Returned (info, vs, rv), tr) →
  (EPS = (1 / 1000000)%float ∧ to_float EPS = 0x1.0c6f7ap-20%float ∧
   PrimFloat.ltb (to_float EPS) EPS = true) ∧
  ∃ args reply,
    last tr = Some (Lapack k (geev_routine k) args reply) ∧
    let eps := match k with KFloat => to_float EPS | _ => EPS end in
    let wi := written (replicate (Z.to_nat n) (Some 0%float)) (r_wi reply) in
    let vr := written (uninitialized (n * n)) (r_vr reply) in
    ∀ j, loop_index eps n wi j →
      ∃ w, load wi j = Some w ∧
        if PrimFloat.ltb (PrimFloat.abs w) eps
        then ∀ i, 0 ≤ i < n →
               ∃ x, load vr (j * n + i) = Some x ∧
                    load rv (j * n + i) = Some (Complex x 0%float)
        else ¬ loop_index eps n wi (j + 1) ∧
             ∀ i, 0 ≤ i < n →
               ∃ x y, load vr (j * n + i) = Some x ∧ load vr ((j + 1) * n + i) = Some y ∧
                      load rv (j * n + i) = Some (Complex x y) ∧
                      load rv ((j + 1) * n + i) = Some (Complex x (- y)%float).
Proof.
  intros Hk Hrun. split; [vm_compute; repeat split; reflexivity|].
  destruct (geev_real_returned_fits _ _ _ _ _ _ _ _ _ _ _ _ _ _ _ _ _ _ _ Hk Hrun) as [Hn Hnn].
  rewrite geev_real_run in Hrun by done. simpl in Hrun.
  destruct (_ <? 0); [done|].
  destruct (eigenvalues _ _ _ _) as [vs'|]; [|done].
  destruct (eigenvector_columns _ _ _ _ _ _ _) as [rv'|] eqn:Hcols; [|done].
  injection Hrun as <- <- <- <-.
  eexists _, _. split; [reflexivity|]. simpl.
  replace (match k with KFloat => to_float EPS | _ => EPS end) with (geev_threshold k)
    by by destruct Hk as [-> | ->].
  intros j [Hpos Hj].
  edestruct (eigenvector_columns_spec (geev_threshold k) n) as (_ & Hwritten & _);
    [| |exact Hcols|]; [lia..|].
  destruct (Hwritten j Hpos Hj) as (w & Hw & Hcol).
  exists w. split; [done|].
  destruct (PrimFloat.ltb _ _) eqn:Hsmall; [done|].
  split; [|done]. by eapply loop_index_skips_second.
Qed.

(** C2 as stated fails.  xGEEV returns an eigenvalue with the imaginary
    part [w = 0x1.0c6f7ap-20], which is below [0.000001]; by the claim column
    0 of the output is [(vr_0, 0)], and so it is at [double].  geev at
    [float] compares [w] with [(float)EPS], which it equals, and writes the
    conjugate pair [vr_0 +- i vr_1]: the second element of column 0 is
    [(0, -1)], not [(0, 0)]. *)
Lemma geev_float_compares_with_the_rounded_threshold :
  let w := 0x1.0c6f7ap-20%float in
  let geev_2x2 k :=
    run (geev k "N" "V" 2 0%nat 2 values_2 1%nat 2 rightVectors_2 2 2%nat 8)
        (with_lapack false) pair_at_the_float_threshold in
  PrimFloat.ltb (PrimFloat.abs w) EPS = true ∧
  (∃ vs rv tr,
     geev_2x2 KDouble = (Returned (0, vs, rv), tr) ∧
     load vs 0 = Some (Complex 1 w) ∧
     rv = [Some (Complex 1 0); Some (Complex 0 0); Some (Complex 0 0); Some (Complex (-1) 0)]) ∧
  (∃ vs rv tr,
     geev_2x2 KFloat = (Returned (0, vs, rv), tr) ∧
     load vs 0 = Some (Complex 1 w) ∧
     rv = [Some (Complex 1 0); Some (Complex 0 (-1));
           Some (Complex 1 (-0)); Some (Complex 0 (- -1))] ∧
     load rv (0 * 2 + 1) ≠ Some (Complex 0 0)).
Proof.
  split; [vm_compute; reflexivity|]. split.
  - eexists _, _, _. split; [vm_compute; reflexivity|].
    split; [vm_compute; reflexivity|reflexivity].
  - eexists _, _, _. split; [vm_compute; reflexivity|].
    split; [vm_compute; reflexivity|]. split; [reflexivity|]. vm_compute. intros [=].
Qed.

Lemma geev_rotation_block_conjugate_columns :
  ∃ vs rv tr,
    run (geev KDouble "N" "V" 2 0%nat 2 values_2 1%nat 1 rightVectors_2 2 2%nat 8)
        (with_lapack false) rotation_block = (Returned (0, vs, rv), tr) ∧
    load rv 0 = Some (Complex 1 0) ∧ load rv 2 = Some (Complex 1 (-0)) ∧
    load rv 1 = Some (Complex 0 (-1)) ∧ load rv 3 = Some (Complex 0 (- -1)).
Proof.
  eexists _, _, _. split; [vm_compute; reflexivity|].
  edestruct (geev_real_eigenvector_columns KDouble false rotation_block "N" "V" 2 0%nat 2
               values_2 1%nat 1 rightVectors_2 2 2%nat 8)
    as (_ & args & reply & Hlast & Hcols); [by right|vm_compute; reflexivity|].
  vm_compute in Hlast. simplify_eq.
  destruct (Hcols 0) as (w & Hw & Hcol); [split; [lia|apply rtc_refl]|].
  injection Hw as <-.
  destruct Hcol as [_ Hcol].
  destruct (Hcol 0) as (x0 & y0 & Hx0 & Hy0 & Hc0 & Hd0); [lia|].
  destruct (Hcol 1) as (x1 & y1 & Hx1 & Hy1 & Hc1 & Hd1); [lia|].
  injection Hx0 as <-. injection Hy0 as <-. injection Hx1 as <-. injection Hy1 as <-.
  repeat split; assumption.
Defined.



(** geev at [float] and [double] returns whenever [n*n] is an [int], the
    routine reports [info >= 0] and has filled [wr] and [vr], the caller's
    arrays hold [n] and [n*n] cells, and no conjugate pair starts in the last
    column; [wi] needs no condition, it was cleared before the call. *)
Theorem geev_real_returns
    k nd lib jobvl jobvr n a lda values vl ldvl rightVectors ldvr work lwork :
  let zeros := replicate (Z.to_nat n) (Some 0%float) in
  let reply :=
    lib [WsNew 0 (TElem k) (Some n); WsNew 1 (TElem k) (Some n);
         WsNew 2 (TElem k) (Some (n * n))] k (geev_routine k)
        [AChar jobvl; AChar jobvr; AInt n; APtr a; AInt lda; AWork 0; AReals zeros;
         APtr vl; AInt ldvl; AWork 2; AInt ldvr; APtr work; AInt lwork; AInfo;
         AInt 1; AInt 1] in
  let wr := written (uninitialized n) (r_wr reply) in
  let wi := written zeros (r_wi reply) in
  let vr := written (uninitialized (n * n)) (r_vr reply) in
  k = KFloat ∨ k = KDouble →
  0 ≤ n →
  n * n ≤ INT_MAX →
  0 ≤ r_info reply →
  (∀ i, 0 ≤ i < n → is_Some (load wr i)) →
  (∀ p, 0 ≤ p < n * n → is_Some (load vr p)) →
  n ≤ Z.of_nat (length (cells values)) →
  n * n ≤ Z.of_nat (length (cells rightVectors)) →
  pairs_complete (geev_threshold k) n wi →
  ∃ vs rv tr,
    run (geev k jobvl jobvr n a lda values vl ldvl rightVectors ldvr work lwork)
        (with_lapack nd) lib = (Returned (r_info reply, vs, rv), tr).
Proof.
  intros zeros reply wr wi vr Hk Hn Hnn Hinfo Hwr Hvr Hvalues Hright Hpairs.
  rewrite geev_real_run by done. simpl.
  fold zeros. fold reply. fold wr. fold wi. fold vr.
  destruct (Z.ltb_spec (r_info reply) 0); [lia|].
  assert (∀ j, 0 ≤ j < n → is_Some (load wi j)) as Hwi.
  { intros j Hj. apply written_filled.
    - apply Forall_replicate. by eexists.
    - unfold zeros. rewrite length_replicate. lia. }
  destruct (eigenvalues_defined n wr wi (cells values)) as [vs ->]; [done..|].
  destruct (eigenvector_columns_defined (geev_threshold k) n wi vr Hwi Hvr Hnn (Z.to_nat n) 0
              (cells rightVectors)) as [rv ->]; [lia..| |by eauto].
  intros j' w Hreach Hlt Hw Hlarge. apply (Hpairs j' w); [|done..].
  split; [|done]. apply rtc_next_column_le in Hreach. lia.
Qed.

Lemma geev_rotation_block_returns :
  ∃ vs rv tr,
    run (geev KDouble "N" "V" 2 0%nat 2 values_2 1%nat 1 rightVectors_2 2 2%nat 8)
        (with_lapack false) rotation_block = (Returned (0, vs, rv), tr).
Proof.
  apply (geev_real_returns KDouble false rotation_block "N" "V" 2 0%nat 2 values_2 1%nat 1
           rightVectors_2 2 2%nat 8).
  - by right.
  - lia.
  - vm_compute. discriminate.
  - vm_compute. discriminate.
  - intros i Hi. assert (i = 0 ∨ i = 1) as [-> | ->] by lia; vm_compute; eauto.
  - intros p Hp.
    assert (p = 0 ∨ p = 1 ∨ p = 2 ∨ p = 3) as [-> | [-> | [-> | ->]]] by lia;
      vm_compute; eauto.
  - vm_compute. discriminate.
  - vm_compute. discriminate.
  - intros j w [_ Hj] Hw Hlarge.
    destruct (rtc_inv _ _ Hj) as [<-|(j1 & (w1 & Hw1 & -> & Hlt) & Hrest)]; [lia|].
    injection Hw1 as <-. vm_compute in Hlt. discriminate Hlt.
Defined.

(** The conditions under which geev returns are necessary as well: when
    geev at [float] or [double] returns, the routine has reported
    [info >= 0] and has filled all of [wr] and all [n*n] cells of [vr], the
    caller's arrays hold at least [n] and [n*n] elements, and no conjugate
    pair starts in the last column. *)
Theorem geev_real_returns_only_if
    k nd lib jobvl jobvr n a lda values vl ldvl rightVectors ldvr work lwork info vs rv tr :
  k = KFloat ∨ k = KDouble →
  0 ≤ n →
  run (geev k jobvl jobvr n a lda values vl ldvl rightVectors ldvr work lwork)
      (with_lapack nd) lib = (Returned (info, vs, rv), tr) →
  ∃ args reply,
    last tr = Some (Lapack k (geev_routine k) args reply) ∧
    0 ≤ r_info reply ∧
    let wr := written (uninitialized n) (r_wr reply) in
    let wi := written (replicate (Z.to_nat n) (Some 0%float)) (r_wi reply) in
    let vr := written (uninitialized (n * n)) (r_vr reply) in
    (∀ i, 0 ≤ i < n → is_Some (load wr i)) ∧
    (∀ p, 0 ≤ p < n * n → is_Some (load vr p)) ∧
    n ≤ Z.of_nat (length (cells values)) ∧
    n * n ≤ Z.of_nat (length (cells rightVectors)) ∧
    pairs_complete (geev_threshold k) n wi.
Proof.
  intros Hk Hn Hrun.
  destruct (geev_real_returned _ _ _ _ _ _ _ _ _ _ _ _ _ _ _ _ _ _ _ Hk Hrun)
    as (args & reply & Hlast & -> & Hinfo & Hvalues & Hcols).
  exists args, reply. split; [done|]. split; [done|]. simpl in *.
  destruct (geev_loops_read_all _ _ _ _ _ _ _ _ _ Hn Hvalues Hcols
              (columns_cover _ _ _ _ _ _ Hn Hcols)) as (Hwr & Hvr & Hlen & Hlen').
  split; [intros i Hi; by apply Hwr|]. split; [intros p Hp; by apply Hvr|].
  destruct (decide (n = 0)) as [->|Hpos]; [repeat split; try lia; intros j w [? _]; lia|].
  split; [|split].
  - destruct (Hwr (n - 1)) as [_ [v Hv]]; [lia|]. apply load_in_range in Hv. lia.
  - destruct (Hvr (n * n - 1)) as [_ [v Hv]]; [nia|]. apply load_in_range in Hv. lia.
  - intros j w [_ Hj] Hw Hlarge.
    edestruct (eigenvector_columns_spec (geev_threshold k) n) as (_ & Hwritten & _);
      [| |exact Hcols|]; [lia..|].
    destruct (Hwritten j ltac:(lia) Hj) as (w' & Hw' & Hcol).
    rewrite Hw in Hw'. injection Hw' as <-. rewrite Hlarge in Hcol.
    destruct (Hcol 0 ltac:(lia)) as (x & y & _ & Hy & _).
    apply load_in_range in Hy. rewrite length_written, length_uninitialized in Hy by nia.
    nia.
Qed.

Lemma geev_rotation_block_arrays_are_filled :
  ∃ args reply,
    last (run (geev KDouble "N" "V" 2 0%nat 2 values_2 1%nat 1 rightVectors_2 2 2%nat 8)
            (with_lapack false) rotation_block).2 = Some (Lapack KDouble "dgeev" args reply) ∧
    ∀ p, 0 ≤ p < 2 * 2 → is_Some (load (written (uninitialized (2 * 2)) (r_vr reply)) p).
Proof.
  edestruct (geev_real_returns_only_if KDouble false rotation_block "N" "V" 2 0%nat 2 values_2
               1%nat 1 rightVectors_2 2 2%nat 8)
    as (args & reply & Hlast & _ & _ & Hvr & _); [by right|lia|vm_compute; reflexivity|].
  exists args, reply. split; [exact Hlast|exact Hvr].
Defined.

(** So geev at [float] and [double] has undefined behaviour whenever the
    routine reports [info >= 0] and has left a cell of [wr] or of [vr]
    unwritten: the loops after the call read every cell of the two
    workspaces, which are not initialized.  xGEEV leaves [vr] alone when it
    is called with [jobvr = 'N']. *)
Theorem geev_real_is_undefined_if_a_cell_is_unwritten
    k nd lib jobvl jobvr n a lda values vl ldvl rightVectors ldvr work lwork :
  let zeros := replicate (Z.to_nat n) (Some 0%float) in
  let reply :=
    lib [WsNew 0 (TElem k) (Some n); WsNew 1 (TElem k) (Some n);
         WsNew 2 (TElem k) (Some (n * n))] k (geev_routine k)
        [AChar jobvl; AChar jobvr; AInt n; APtr a; AInt lda; AWork 0; AReals zeros;
         APtr vl; AInt ldvl; AWork 2; AInt ldvr; APtr work; AInt lwork; AInfo;
         AInt 1; AInt 1] in
  let wr := written (uninitialized n) (r_wr reply) in
  let vr := written (uninitialized (n * n)) (r_vr reply) in
  k = KFloat ∨ k = KDouble →
  0 ≤ n →
  0 ≤ r_info reply →
  (∃ i, 0 ≤ i < n ∧ load wr i = None) ∨ (∃ p, 0 ≤ p < n * n ∧ load vr p = None) →
  (run (geev k jobvl jobvr n a lda values vl ldvl rightVectors ldvr work lwork)
     (with_lapack nd) lib).1 = Undefined.
Proof.
  intros zeros reply wr vr Hk Hn Hinfo Hunwritten.
  destruct (Z.lt_ge_cases INT_MAX (n * n)) as [Hbig|Hnn].
  { by rewrite geev_real_overflow. }
  rewrite geev_real_run by done. simpl.
  fold zeros. fold reply. fold wr. fold vr.
  destruct (Z.ltb_spec (r_info reply) 0); [lia|].
  destruct (eigenvalues _ _ _ _) as [vs|] eqn:Hvalues; [|done].
  destruct (eigenvector_columns _ _ _ _ _ _ _) as [rv|] eqn:Hcols; [|done].
  exfalso.
  destruct (geev_loops_read_all _ _ _ _ _ _ _ _ _ Hn Hvalues Hcols
              (columns_cover _ _ _ _ _ _ Hn Hcols)) as (Hwr & Hvr & _).
  destruct Hunwritten as [(i & Hi & Hnone)|(p & Hp & Hnone)].
  - destruct (Hwr i Hi) as [[x Hx] _]. congruence.
  - destruct (Hvr p Hp) as [[x Hx] _]. congruence.
Qed.

Lemma geev_without_eigenvectors_is_undefined :
  (run (geev KDouble "N" "N" 2 0%nat 2 values_2 1%nat 1 rightVectors_2 1 2%nat 8)
     (with_lapack false) eigenvalues_only).1 = Undefined.
Proof.
  apply (geev_real_is_undefined_if_a_cell_is_unwritten KDouble false eigenvalues_only "N" "N" 2
           0%nat 2 values_2 1%nat 1 rightVectors_2 1 2%nat 8).
  - by right.
  - lia.
  - vm_compute. discriminate.
  - right. exists 0. split; [lia|]. vm_compute. reflexivity.
Defined.

(** When geev at [float] or [double] returns, it has assigned every one of
    the first [n] elements of [values] and of the first [n*n] elements of
    [rightVectors], whatever the arrays held before, and has kept their
    lengths. *)
Theorem geev_real_outputs_are_initialised
    k nd lib jobvl jobvr n a lda values vl ldvl rightVectors ldvr work lwork info vs rv tr :
  k = KFloat ∨ k = KDouble →
  0 ≤ n →
  run (geev k jobvl jobvr n a lda values vl ldvl rightVectors ldvr work lwork)
      (with_lapack nd) lib = (Returned (info, vs, rv), tr) →
  (∀ i, 0 ≤ i < n → is_Some (load vs i)) ∧
  (∀ j i, 0 ≤ j < n → 0 ≤ i < n → is_Some (load rv (j * n + i))) ∧
  length vs = length (cells values) ∧
  length rv = length (cells rightVectors).
Proof.
  intros Hk Hn Hrun.
  destruct (geev_real_returned _ _ _ _ _ _ _ _ _ _ _ _ _ _ _ _ _ _ _ Hk Hrun)
    as (args & reply & Hlast & -> & Hinfo & Hvalues & Hcols).
  destruct (geev_loops_read_all _ _ _ _ _ _ _ _ _ Hn Hvalues Hcols
              (columns_cover _ _ _ _ _ _ Hn Hcols)) as (Hwr & Hvr & Hlen & Hlen').
  split; [intros i Hi; by apply Hwr|]. split; [|done].
  intros j i Hj Hi. apply Hvr. nia.
Qed.

Lemma geev_rotation_block_outputs_are_initialised :
  ∃ vs rv tr,
    run (geev KDouble "N" "V" 2 0%nat 2 values_2 1%nat 1 rightVectors_2 2 2%nat 8)
        (with_lapack false) rotation_block = (Returned (0, vs, rv), tr) ∧
    is_Some (load vs 1) ∧ is_Some (load rv (1 * 2 + 1)) ∧ length rv = 4%nat.
Proof.
  eexists _, _, _. split; [vm_compute; reflexivity|].
  edestruct (geev_real_outputs_are_initialised KDouble false rotation_block "N" "V" 2 0%nat 2
               values_2 1%nat 1 rightVectors_2 2 2%nat 8)
    as (Hvs & Hrv & _ & Hlen); [by right|lia|vm_compute; reflexivity|].
  split; [apply Hvs; lia|]. split; [apply Hrv; lia|exact Hlen].
Defined.

(** When every eigenvalue has [fabs(wi[j])] below the threshold, geev at
    [float] and [double] gives all eigenvectors as real: element [j*n+i]
    of [rightVectors] is [(vr[j*n+i], 0)] for every column and row.  This
    includes a conjugate pair with a small imaginary part, whose two
    columns -- real part and imaginary part -- come out as two real
    vectors, while [values] keeps the imaginary parts. *)
Theorem geev_real_spectrum_gives_real_vectors
    k nd lib jobvl jobvr n a lda values vl ldvl rightVectors ldvr work lwork info vs rv tr :
  k = KFloat ∨ k = KDouble →
  0 ≤ n →
  run (geev k jobvl jobvr n a lda values vl ldvl rightVectors ldvr work lwork)
      (with_lapack nd) lib = (Returned (info, vs, rv), tr) →
  ∃ args reply,
    last tr = Some (Lapack k (geev_routine k) args reply) ∧
    let wi := written (replicate (Z.to_nat n) (Some 0%float)) (r_wi reply) in
    let vr := written (uninitialized (n * n)) (r_vr reply) in
    (∀ j, 0 ≤ j < n →
       ∃ w, load wi j = Some w ∧ PrimFloat.ltb (PrimFloat.abs w) (geev_threshold k) = true) →
    ∀ j i, 0 ≤ j < n → 0 ≤ i < n →
      ∃ x, load vr (j * n + i) = Some x ∧ load rv (j * n + i) = Some (Complex x 0%float).
Proof.
  intros Hk Hn Hrun.
  destruct (geev_real_returned _ _ _ _ _ _ _ _ _ _ _ _ _ _ _ _ _ _ _ Hk Hrun)
    as (args & reply & Hlast & -> & Hinfo & Hvalues & Hcols).
  exists args, reply. split; [done|]. simpl in *.
  intros Hsmall j i Hj Hi.
  pose proof (columns_cover _ _ _ _ _ _ Hn Hcols) as Hcover.
  destruct (Hcover j Hj) as [(w & Hw & Hcol)|(w & Hw & Hlarge & _)].
  - destruct (Hsmall j Hj) as (w' & Hw' & Hlt). rewrite Hw in Hw'. injection Hw' as <-.
    rewrite Hlt in Hcol. by apply Hcol.
  - destruct (decide (j = 0)) as [->|Hj0].
    + unfold load in Hw. simpl in Hw. done.
    + destruct (Hsmall (j - 1)) as (w' & Hw' & Hlt); [lia|].
      rewrite Hw in Hw'. injection Hw' as <-. congruence.
Qed.

Lemma geev_nearly_real_pair_gives_two_real_vectors :
  ∃ vs rv tr,
    run (geev KDouble "N" "V" 2 0%nat 2 values_2 1%nat 1 rightVectors_2 2 2%nat 8)
        (with_lapack false) nearly_real_pair = (Returned (0, vs, rv), tr) ∧
    load vs 0 = Some (Complex 1 0x1p-24) ∧
    load rv (0 * 2 + 0) = Some (Complex 1 0) ∧ load rv (1 * 2 + 1) = Some (Complex (-1) 0).
Proof.
  eexists _, _, _. split; [vm_compute; reflexivity|]. split; [vm_compute; reflexivity|].
  edestruct (geev_real_spectrum_gives_real_vectors KDouble false nearly_real_pair "N" "V" 2 0%nat
               2 values_2 1%nat 1 rightVectors_2 2 2%nat 8)
    as (args & reply & Hlast & Hreal); [by right|lia|vm_compute; reflexivity|].
  vm_compute in Hlast. simplify_eq.
  assert (∀ j, 0 ≤ j < 2 →
            ∃ w, load (written (replicate (Z.to_nat 2) (Some 0%float))
                         [Some 0x1p-24; Some (-0x1p-24)]%float) j = Some w ∧
                 PrimFloat.ltb (PrimFloat.abs w) (geev_threshold KDouble) = true) as Hsmall.
  { intros j Hj. assert (j = 0 ∨ j = 1) as [-> | ->] by lia; eexists; split; reflexivity. }
  destruct (Hreal Hsmall 0 0) as (x0 & Hx0 & Hr0); [lia..|].
  destruct (Hreal Hsmall 1 1) as (x1 & Hx1 & Hr1); [lia..|].
  injection Hx0 as <-. injection Hx1 as <-. split; assumption.
Defined.

(** geev at [float] and [double] with an [n] that is not the order of a
    matrix it can hold: a negative [n] fails the allocation of [wr], and
    an [n] whose square is not an [int] ([n > 46340]) is undefined when the
    size of [vr] is computed.  In neither case is the routine called. *)
Theorem geev_real_with_an_order_of_no_matrix
    k nd lib jobvl jobvr n a lda values vl ldvl rightVectors ldvr work lwork :
  k = KFloat ∨ k = KDouble →
  let r := run (geev k jobvl jobvr n a lda values vl ldvl rightVectors ldvr work lwork)
               (with_lapack nd) lib in
  (n < 0 → r = (Thrown bad_array_new_length, [WsNew 0 (TElem k) (Some n)])) ∧
  (46340 < n →
   r = (Undefined, [WsNew 0 (TElem k) (Some n); WsNew 1 (TElem k) (Some n)])).
Proof.
  intros Hk r. subst r. split.
  - intros Hn. by apply geev_real_negative.
  - intros Hn. apply geev_real_overflow; [done|lia|]. rewrite INT_MAX_value. nia.
Qed.

Lemma geev_of_order_46341_is_undefined :
  (run (geev KDouble "N" "V" 46341 0%nat 46341 values_2 1%nat 1 rightVectors_2 46341 2%nat 8)
     (with_lapack false) rotation_block).1 = Undefined ∧
  (run (geev KFloat "N" "V" (-1) 0%nat 1 values_2 1%nat 1 rightVectors_2 1 2%nat 8)
     (with_lapack false) rotation_block).1 = Thrown bad_array_new_length.
Proof.
  destruct (geev_real_with_an_order_of_no_matrix KDouble false rotation_block "N" "V" 46341 0%nat
              46341 values_2 1%nat 1 rightVectors_2 46341 2%nat 8) as [_ Hbig]; [by right|].
  destruct (geev_real_with_an_order_of_no_matrix KFloat false rotation_block "N" "V" (-1) 0%nat
              1 values_2 1%nat 1 rightVectors_2 1 2%nat 8) as [Hneg _]; [by left|].
  split; [by rewrite Hbig by lia|by rewrite Hneg by lia].
Defined.

(** geev at [float] and [double] with [n = 0]: the loops do not run, the
    routine is still called, with three empty workspaces, and the caller's
    arrays come back as they were. *)
Theorem geev_real_of_order_zero
    k nd lib jobvl jobvr a lda values vl ldvl rightVectors ldvr work lwork :
  k = KFloat ∨ k = KDouble →
  let tr0 := [WsNew 0 (TElem k) (Some 0); WsNew 1 (TElem k) (Some 0);
              WsNew 2 (TElem k) (Some 0)] in
  let args := [AChar jobvl; AChar jobvr; AInt 0; APtr a; AInt lda; AWork 0; AReals [];
               APtr vl; AInt ldvl; AWork 2; AInt ldvr; APtr work; AInt lwork; AInfo;
               AInt 1; AInt 1] in
  let reply := lib tr0 k (geev_routine k) args in
  run (geev k jobvl jobvr 0 a lda values vl ldvl rightVectors ldvr work lwork)
      (with_lapack nd) lib
  = (if r_info reply <? 0 then Thrown (IllegalLapackArg (geev_routine k) (r_info reply))
     else Returned (r_info reply, cells values, cells rightVectors),
     tr0 ++ [Lapack k (geev_routine k) args reply]).
Proof.
  intros Hk. rewrite geev_real_run by done. simpl.
  by destruct (_ <? 0).
Qed.

Lemma geev_of_order_zero_leaves_the_arrays :
  run (geev KDouble "N" "V" 0 0%nat 1 values_2 1%nat 1 rightVectors_2 1 2%nat 8)
      (with_lapack false) rotation_block
  = (Returned (0, [None; None], [None; None; None; None]),
     [WsNew 0 TDouble (Some 0); WsNew 1 TDouble (Some 0); WsNew 2 TDouble (Some 0);
      Lapack KDouble "dgeev"
        [AChar "N"; AChar "V"; AInt 0; APtr 0%nat; AInt 1; AWork 0; AReals []; APtr 1%nat;
         AInt 1; AWork 2; AInt 1; APtr 2%nat; AInt 8; AInfo; AInt 1; AInt 1]
        (rotation_block [] KDouble "dgeev"%string [])]).
Proof.
  rewrite (geev_real_of_order_zero KDouble false rotation_block "N" "V" 0%nat 1 values_2 1%nat 1
             rightVectors_2 1 2%nat 8) by (by right).
  reflexivity.
Defined.

(** ** lange at the single-precision kinds *)

Lemma promoted_column_lookup {A B} (convert : A → B) m (a : list (option A)) lda j col i :
  promoted_column convert m a lda j = Some col →
  0 ≤ i < m →
  col !! Z.to_nat i = convert <$> entry a lda j i.
Proof.
  unfold promoted_column. intros Hcol Hi.
  apply mapM_Some in Hcol.
  destruct (Forall2_lookup_l _ _ _ (Z.to_nat i) i Hcol) as (y & Hy & Hentry).
  { rewrite lookup_seqZ. split; lia. }
  by rewrite Hy, Hentry.
Qed.

Lemma promoted_columns_lookup {A B} (convert : A → B) m (a : list (option A)) lda count :
  ∀ j0 cols,
  0 ≤ m →
  mapM (promoted_column convert m a lda) (seqZ j0 (Z.of_nat count)) = Some cols →
  length (concat cols) = (count * Z.to_nat m)%nat ∧
  ∀ j i, 0 ≤ j < Z.of_nat count → 0 ≤ i < m →
    concat cols !! Z.to_nat (j * m + i) = convert <$> entry a lda (j0 + j) i.
Proof.
  induction count as [|c IH]; intros j0 cols Hm Hcols.
  - simpl in Hcols. injection Hcols as <-. split; [done|]. intros; lia.
  - rewrite Nat2Z.inj_succ, seqZ_cons in Hcols by lia. simpl in Hcols.
    destruct (promoted_column convert m a lda j0) as [col|] eqn:Hcol; [|done].
    simpl in Hcols. rewrite Z.pred_succ in Hcols.
    destruct (mapM _ (seqZ (Z.succ j0) _)) as [rest|] eqn:Hrest; [|done].
    injection Hcols as <-. simpl.
    assert (length col = Z.to_nat m) as Hlen.
    { apply length_mapM in Hcol. by rewrite length_seqZ in Hcol. }
    destruct (IH (Z.succ j0) rest Hm Hrest) as [IHlen IHcells].
    split; [rewrite length_app; lia|].
    intros j i Hj Hi. destruct (decide (j = 0)) as [->|Hpos].
    + replace (0 * m + i) with i by lia. rewrite lookup_app_l by lia.
      rewrite (promoted_column_lookup _ _ _ _ _ _ _ Hcol Hi). by rewrite Z.add_0_r.
    + rewrite lookup_app_r by nia.
      replace (Z.to_nat (j * m + i) - length col)%nat with (Z.to_nat ((j - 1) * m + i)) by nia.
      rewrite IHcells by lia. f_equal. f_equal. lia.
Qed.

(** The cells of the dense matrix: [m*n] of them, the entry in row [i] and
    column [j] at the index [j*m + i]. *)
Lemma dense_cells {A} m n (a : list (option A)) lda da :
  0 ≤ m → 0 ≤ n →
  dense m n a lda = Some da →
  length da = Z.to_nat (m * n) ∧
  ∀ j i, 0 ≤ j < n → 0 ≤ i < m →
    is_Some (entry a lda j i) ∧ load da (j * m + i) = entry a lda j i.
Proof.
  intros Hm Hn. unfold dense, promoted_matrix.
  destruct (mapM _ (seqZ 0 n)) as [cols|] eqn:Hcols; [|done]. simpl. intros [= <-].
  rewrite <- (Z2Nat.id n) in Hcols by done.
  destruct (promoted_columns_lookup _ _ _ _ _ _ _ Hm Hcols) as [Hlen Hcells].
  split; [rewrite length_fmap; lia|].
  intros j i Hj Hi. specialize (Hcells j i ltac:(lia) Hi).
  assert (0 ≤ j * m) by (apply Z.mul_nonneg_nonneg; lia).
  assert ((j + 1) * m ≤ n * m) by (apply Z.mul_le_mono_nonneg_r; lia).
  assert (Z.to_nat (j * m + i) < length (concat cols))%nat as Hin by lia.
  apply lookup_lt_is_Some in Hin. destruct Hin as [v Hv].
  rewrite Hv in Hcells. replace (0 + j) with j in Hcells by lia.
  destruct (entry a lda j i) as [x|] eqn:Hx; [|discriminate Hcells]. simpl in Hcells.
  injection Hcells as <-. split; [by eexists|].
  unfold load. destruct (Z.leb_spec 0 (j * m + i)); [|lia].
  rewrite list_lookup_fmap, Hv. done.
Qed.

(** C10. lange at [float] and at [std::complex<float>], for an [m]-by-[n]
    matrix whose [m*n] elements can be counted in an [int]: it copies the
    entries of [a] into a fresh dense array -- [m*n] cells, the entry of row
    [i] and column [j] at [j*m + i], with the value it has in [a], which
    promotion to double precision keeps -- and returns what dlange_
    (zlange_) answers for that copy with the leading dimension [m].  Hence
    the result is the same for two arrays that agree on the [m]-by-[n]
    entries, whatever they hold between row [m] and the leading dimension,
    and with a library that answers by its arguments it is the result of
    lange at the double kind on the dense matrix. *)
Theorem lange_single_precision_is_double_norm_of_copy nd lib norm m n lda :
  0 ≤ m → 0 ≤ n → m * n ≤ INT_MAX →
  (∀ a : list (option double),
     run (lange KFloat norm m n a lda) (with_lapack nd) lib =
       let tr0 := [WsNew 0 TDouble (Some m); WsNew 1 TDouble (Some (m * n))] in
       match dense m n a lda with
       | None => (Undefined, tr0)
       | Some da =>
           let args := [AChar norm; AInt m; AInt n; AReals da; AInt m; AWork 0; AInt 1] in
           let reply := lib tr0 KDouble "dlange"%string args in
           (Returned (r_result reply), tr0 ++ [Lapack KDouble "dlange" args reply])
       end) ∧
  (∀ a : list (option complex),
     run (lange KComplexFloat norm m n a lda) (with_lapack nd) lib =
       let tr0 := [WsNew 0 TDouble (Some m); WsNew 1 TComplexDouble (Some (m * n))] in
       match dense m n a lda with
       | None => (Undefined, tr0)
       | Some za =>
           let tr1 := tr0 ++ [Cout "LapackInterface::lange called"] in
           let args := [AChar norm; AInt m; AInt n; AComplexes za; AInt m; AWork 0; AInt 1] in
           let reply := lib tr1 KComplexDouble "zlange"%string args in
           (Returned (r_result reply), tr1 ++ [Lapack KComplexDouble "zlange" args reply])
       end) ∧
  (∀ k (a : list (option (scalar k))) da,
     dense m n a lda = Some da →
     length da = Z.to_nat (m * n) ∧
     ∀ j i, 0 ≤ j < n → 0 ≤ i < m →
       is_Some (entry a lda j i) ∧ load da (j * m + i) = entry a lda j i) ∧
  (∀ k (a a' : list (option (scalar k))),
     k = KFloat ∨ k = KComplexFloat →
     (∀ i j, 0 ≤ i < m → 0 ≤ j < n → entry a lda j i = entry a' lda j i) →
     run (lange k norm m n a lda) (with_lapack nd) lib =
     run (lange k norm m n a' lda) (with_lapack nd) lib) ∧
  (stateless lib →
   (∀ (a : list (option double)) da, dense m n a lda = Some da →
      (run (lange KFloat norm m n a lda) (with_lapack nd) lib).1 =
      (run (lange KDouble norm m n da m) (with_lapack nd) lib).1) ∧
   (∀ (a : list (option complex)) za, dense m n a lda = Some za →
      (run (lange KComplexFloat norm m n a lda) (with_lapack nd) lib).1 =
      (run (lange KComplexDouble norm m n za m) (with_lapack nd) lib).1)).
Proof.
  intros Hm Hn Hfit.
  split; [intros a; by apply lange_float_run|].
  split; [intros a; by apply lange_complex_float_run|].
  split; [intros k a da; by apply dense_cells|].
  split.
  - intros k a a' [-> | ->] Hsame.
    + rewrite !lange_float_run by done. by rewrite (dense_entries _ _ a a').
    + rewrite !lange_complex_float_run by done. by rewrite (dense_entries _ _ a a').
  - intros Hlib. split.
    + intros a da Hda. rewrite lange_float_run by done. rewrite Hda. simpl.
      unfold_wrappers. simpl. destruct (Z.ltb_spec m 0); [lia|]. simpl.
      f_equal. f_equal. apply Hlib.
    + intros a za Hza. rewrite lange_complex_float_run by done. rewrite Hza. simpl.
      unfold_wrappers. simpl. destruct (Z.ltb_spec m 0); [lia|]. simpl.
      f_equal. f_equal. apply Hlib.
Qed.

Lemma lange_single_precision_ignores_padding :
  (run (lange KFloat "M" 2 2 (a_2x2 None) 3) (with_lapack false) norm_library).1
    = Returned 4%float ∧
  run (lange KFloat "M" 2 2 (a_2x2 (Some 9%float)) 3) (with_lapack false) norm_library
    = run (lange KFloat "M" 2 2 (a_2x2 None) 3) (with_lapack false) norm_library ∧
  (run (lange KDouble "M" 2 2 [Some 1; Some 2; Some 3; Some 4]%float 2) (with_lapack false)
     norm_library).1 = Returned 4%float ∧
  (run (lange KComplexFloat "M" 2 2 (c_2x2 None) 3) (with_lapack false) norm_library).1
    = Returned 5%float ∧
  run (lange KComplexFloat "M" 2 2 (c_2x2 (Some (Complex 9 9))) 3) (with_lapack false)
      norm_library
    = run (lange KComplexFloat "M" 2 2 (c_2x2 None) 3) (with_lapack false) norm_library ∧
  (run (lange KComplexDouble "M" 2 2
          [Some (Complex 1 0); Some (Complex 0 2); Some (Complex 3 4); Some (Complex 0 0)] 2)
     (with_lapack false) norm_library).1 = Returned 5%float.
Proof.
  destruct (lange_single_precision_is_double_norm_of_copy false norm_library "M" 2 2 3)
    as (Hfloat & Hcomplex & _ & Hsame & Hdouble); [lia| lia| vm_compute; discriminate|].
  destruct Hdouble as [Hd Hz]; [done|].
  split; [rewrite Hfloat; vm_compute; reflexivity|].
  split.
  { apply (Hsame KFloat); [by left|]. intros i j Hi Hj.
    assert (i = 0 ∨ i = 1) as [-> | ->] by lia;
      assert (j = 0 ∨ j = 1) as [-> | ->] by lia; reflexivity. }
  split.
  { rewrite <- (Hd (a_2x2 None)) by (vm_compute; reflexivity).
    rewrite Hfloat. vm_compute. reflexivity. }
  split; [rewrite Hcomplex; vm_compute; reflexivity|].
  split.
  { apply (Hsame KComplexFloat); [by right|]. intros i j Hi Hj.
    assert (i = 0 ∨ i = 1) as [-> | ->] by lia;
      assert (j = 0 ∨ j = 1) as [-> | ->] by lia; reflexivity. }
  rewrite <- (Hz (c_2x2 None)) by (vm_compute; reflexivity).
  rewrite Hcomplex. vm_compute. reflexivity.
Defined.

(** lange at [float] and [std::complex<float>], for an [m]-by-[n] matrix
    whose [m*n] elements can be counted in an [int], returns exactly when
    every entry [a[j*lda+i]], [i < m], [j < n], can be read -- the index is
    an [int] and the array has a value there -- and has undefined behaviour
    otherwise; it raises nothing.  So for a matrix with at least one row
    and one column the array has to reach up to the last entry,
    [(n-1)*lda + m] elements. *)
Theorem lange_single_precision_returns_iff_the_entries_are_readable
    k nd lib norm m n (a : list (option (scalar k))) lda :
  k = KFloat ∨ k = KComplexFloat →
  0 ≤ m → 0 ≤ n → m * n ≤ INT_MAX →
  let out := (run (lange k norm m n a lda) (with_lapack nd) lib).1 in
  ((∃ x, out = Returned x) ↔
   ∀ i j, 0 ≤ i < m → 0 ≤ j < n → is_Some (entry a lda j i)) ∧
  (out = Undefined ↔ ¬ ∃ x, out = Returned x) ∧
  ((∃ x, out = Returned x) → 0 < m → 0 < n →
   0 ≤ (n - 1) * lda ∧ (n - 1) * lda + m ≤ Z.of_nat (length a)).
Proof.
  intros Hk Hm Hn Hfit out.
  assert (((∃ x, out = Returned x) ↔
           ∀ i j, 0 ≤ i < m → 0 ≤ j < n → is_Some (entry a lda j i)) ∧
          (out = Undefined ↔ ¬ ∃ x, out = Returned x)) as [Hiff Hundef].
  { subst out. destruct Hk as [-> | ->].
    - rewrite lange_float_run by done. simpl. rewrite <- dense_is_Some.
      destruct (dense _ _ _ _); simpl.
      + split; [split; eauto|]. split; [done|]. intros []. eauto.
      + split; [split; [by intros [? ?]|by intros [? ?]]|]. split; [|done]. by intros _ [? ?].
    - rewrite lange_complex_float_run by done. simpl. rewrite <- dense_is_Some.
      destruct (dense _ _ _ _); simpl.
      + split; [split; eauto|]. split; [done|]. intros []. eauto.
      + split; [split; [by intros [? ?]|by intros [? ?]]|]. split; [|done]. by intros _ [? ?]. }
  split; [done|]. split; [done|].
  intros Hret Hm' Hn'.
  destruct (proj1 Hiff Hret (m - 1) (n - 1)) as [v Hlast]; [lia..|].
  destruct (proj1 Hiff Hret 0 (n - 1)) as [v' Hfirst]; [lia..|].
  apply entry_in_range in Hlast, Hfirst. lia.
Qed.

Lemma lange_float_needs_the_last_column :
  (∃ x, (run (lange KFloat "M" 2 2 (a_2x2 None) 3) (with_lapack false) norm_library).1
        = Returned x) ∧
  (run (lange KFloat "M" 2 2 [Some 1; Some 2; None; Some 3]%float 3) (with_lapack false)
     norm_library).1 = Undefined.
Proof.
  assert (2 * 2 ≤ INT_MAX) as Hfit by (vm_compute; discriminate).
  split.
  - apply (lange_single_precision_returns_iff_the_entries_are_readable KFloat false norm_library
             "M" 2 2 (a_2x2 None) 3 (or_introl eq_refl) ltac:(lia) ltac:(lia) Hfit).
    intros i j Hi Hj.
    assert (i = 0 ∨ i = 1) as [-> | ->] by lia;
      assert (j = 0 ∨ j = 1) as [-> | ->] by lia; vm_compute; eauto.
  - destruct (lange_single_precision_returns_iff_the_entries_are_readable KFloat false
                norm_library "M" 2 2 [Some 1; Some 2; None; Some 3]%float 3 (or_introl eq_refl)
                ltac:(lia) ltac:(lia) Hfit) as (_ & Hundef & Hreach).
    apply Hundef. intros Hret.
    destruct (Hreach Hret) as [_ Hlen]; [lia..|]. simpl in Hlen. lia.
Defined.

(** lange at [float] and [std::complex<float>] with other sizes.  A
    negative [m] fails the allocation of [work]; otherwise a product [m*n]
    that is not an [int] is undefined, and a negative product fails the
    allocation of the copy.  In none of these cases is the matrix read or the
    routine called. *)
Theorem lange_single_precision_with_sizes_of_no_matrix
    k nd lib norm m n (a : list (option (scalar k))) lda :
  k = KFloat ∨ k = KComplexFloat →
  let r := run (lange k norm m n a lda) (with_lapack nd) lib in
  let copy := match k with KFloat => TDouble | _ => TComplexDouble end in
  (m < 0 → r = (Thrown bad_array_new_length, [WsNew 0 TDouble (Some m)])) ∧
  (0 ≤ m → ¬ (INT_MIN ≤ m * n ≤ INT_MAX) → r = (Undefined, [WsNew 0 TDouble (Some m)])) ∧
  (0 ≤ m → INT_MIN ≤ m * n < 0 →
   r = (Thrown bad_array_new_length, [WsNew 0 TDouble (Some m); WsNew 1 copy (Some (m * n))])).
Proof.
  intros Hk r copy. subst r copy.
  rewrite lange_single_precision_sizes by done. cbv zeta.
  repeat split.
  - intros Hneg. by destruct (Z.ltb_spec m 0); [|lia].
  - intros Hm Hfit. destruct (Z.ltb_spec m 0); [lia|].
    destruct (int_mul m n) as [size|] eqn:Hmul; [|done].
    apply int_mul_Some in Hmul. lia.
  - intros Hm Hneg. destruct (Z.ltb_spec m 0); [lia|].
    rewrite int_mul_in_range by (rewrite INT_MAX_value; lia).
    by destruct (Z.ltb_spec (m * n) 0); [|lia].
Qed.

Lemma lange_float_with_a_negative_row_count :
  run (lange KFloat "M" (-1) 2 (a_2x2 None) 3) (with_lapack false) norm_library
  = (Thrown bad_array_new_length, [WsNew 0 TDouble (Some (-1))]) ∧
  (run (lange KFloat "M" 65536 65536 (a_2x2 None) 0) (with_lapack false) norm_library).1
  = Undefined.
Proof.
  destruct (lange_single_precision_with_sizes_of_no_matrix KFloat false norm_library "M" (-1) 2
              (a_2x2 None) 3) as (Hneg & _); [by left|].
  destruct (lange_single_precision_with_sizes_of_no_matrix KFloat false norm_library "M" 65536
              65536 (a_2x2 None) 0) as (_ & Hbig & _); [by left|].
  split; [apply Hneg; lia|]. rewrite Hbig; [done|lia|vm_compute; intros [_ H]; by apply H].
Defined.
